(** * nut-scanner: the scan orchestration of tools/nut-scanner/nut-scanner.c

    A shallow embedding of the orchestration code of [nut-scanner.c]: the
    registry of IP ranges ([add_ip_range]), the per-protocol thread bodies
    ([run_usb], [run_snmp], [run_xml], ...), and [main]: the limits on the
    number of scanning threads, the option loop, the start of one thread per
    protocol, the joins and the report.

    What is modelled and how:
    - the registry is the singly linked list of the source, kept in a heap of
      nodes addressed by index, with the three file-scope variables
      [ip_ranges], [ip_ranges_last] and [ip_ranges_count];
    - [size_t] and [rlim_t] values are integers in [Z] of an LP64 platform
      (64-bit [size_t] and [long], 32-bit [unsigned int]), with the wrap-around
      written out;
    - the probes of the scanning library are one opaque function of the
      arguments they are called with; every thread body records the calls it
      makes, in order, in its own log;
    - what [main] prints and which library calls it makes is a trace of
      events;
    - the build modelled is the one with HAVE_PTHREAD, HAVE_SEMAPHORE and
      HAVE_SYS_RESOURCE_H.  A thread that was started runs to its end before
      it is joined; it writes its own slot of [dev] only and reads variables
      that [main] no longer writes once the threads are started, so its
      effect is applied where the thread is created.

    Options outside the model of the run: [-m] (the CIDR and interface
    expansion is done by the library and the operating system), and the
    values carried by [-t], [-p] and the SNMP and IPMI credentials, which
    only the probes read.  The cases of [-m], [-t] and the IPMI options are
    modelled on their own further down, with the conversion of a CIDR and
    the list of the interfaces as inputs; so is the registry with its strings
    and nodes as allocated blocks, up to [free_ip_ranges]. *)

From Stdlib Require Import ZArith Lia Permutation.
From Stdlib Require DecimalString.
From stdpp Require Import base option list functions strings.

Local Open Scope string_scope.
Local Open Scope list_scope.
Local Open Scope Z_scope.

(** ** Constants of the platform and of the file *)

Definition SIZE_MAX : Z := 2 ^ 64 - 1.
Definition UINT_MAX : Z := 2 ^ 32 - 1.
Definition RESERVE_FD_COUNT : Z := 3.
Definition ERR_BAD_OPTION : Z := -1.
Definition EXIT_SUCCESS : Z := 0.

(** Conversion to [size_t], [uintmax_t] and [rlim_t]: 64 bits, unsigned. *)
Definition to_size_t (z : Z) : Z := z mod 2 ^ 64.

(** Conversion to [unsigned int]. *)
Definition to_uint (z : Z) : Z := z mod 2 ^ 32.

(** ** Protocol kinds *)

(** The indices of [dev] and [thread] that [main] uses. *)
Inductive scan_type :=
| TYPE_USB
| TYPE_SNMP
| TYPE_XML
| TYPE_NUT
| TYPE_NUT_SIMULATION
| TYPE_AVAHI
| TYPE_IPMI
| TYPE_EATON_SERIAL.

#[global] Instance scan_type_eq_dec : EqDecision scan_type.
Proof. solve_decision. Defined.

(** ** Device lists *)

(** A discovered device, opaque to the orchestration. *)
Record device_info := Device { dev_driver : string; dev_port : string }.

#[global] Instance device_info_eq_dec : EqDecision device_info.
Proof. solve_decision. Defined.

(** A non-NULL [nutscan_device_t *]: a node of a doubly linked list, with
    the devices before it and the devices after it, both in list order. *)
Record dev_node := DevNode {
  dev_prev : list device_info;
  dev_this : device_info;
  dev_next : list device_info
}.

(** A [nutscan_device_t *]; [None] is NULL. *)
Definition nutscan_device_ptr : Type := option dev_node.

(** The whole list a pointer belongs to, from its head. *)
Definition device_list (p : nutscan_device_ptr) : list device_info :=
  match p with
  | None => []
  | Some n => dev_prev n ++ dev_this n :: dev_next n
  end.

(** The pointer to the first node of a list (NULL for no device). *)
Definition at_head (l : list device_info) : nutscan_device_ptr :=
  match l with
  | [] => None
  | d :: l' => Some (DevNode [] d l')
  end.

(** The pointer to the last node of a list (NULL for no device). *)
Definition at_tail (l : list device_info) : nutscan_device_ptr :=
  match rev l with
  | [] => None
  | d :: r => Some (DevNode (rev r) d [])
  end.

(** Modelled from the spec: [nutscan_rewind_device] is defined in the scanning
    library (nutscan-device.c), not in nut-scanner.c.  The spec (4.6, 6):
    the combined list's read cursor is reset to its head. *)
Definition nutscan_rewind_device (p : nutscan_device_ptr) : nutscan_device_ptr :=
  at_head (device_list p).

(** Modelled from the spec: [nutscan_add_device_to_device] is defined in the
    scanning library (nutscan-device.c), not in nut-scanner.c.  The spec (6, 8):
    [mergeDeviceLists(a, b)] appends, merging [d1,d2] with [d3] yields
    [d1,d2,d3], and merging with an empty list is the identity: the devices
    of the first operand come first, those of the second operand follow.
    The spec has the cursor reset after a merge, so the merge may leave it
    anywhere; here it is left on the last device. *)
Definition nutscan_add_device_to_device (first second : nutscan_device_ptr)
  : nutscan_device_ptr :=
  at_tail (device_list first ++ device_list second).

(** ** Probes *)

(** The options [run_usb] hands to the USB probe. *)
Record nutscan_usb_t := UsbOpts {
  report_bus : Z;
  report_busport : Z;
  report_device : Z;
  report_bcdDevice : Z
}.

(** A call of a probe of the scanning library, with the arguments that
    [nut-scanner.c] chooses (time-outs and credentials are left out). *)
Inductive probe_call :=
| nutscan_scan_usb (scanopts : option nutscan_usb_t)
| nutscan_scan_snmp (start_ip end_ip : option string)
| nutscan_scan_xml_http_range (start_ip end_ip : option string)
| nutscan_scan_nut (start_ip end_ip : option string)
| nutscan_scan_nut_simulation
| nutscan_scan_avahi
| nutscan_scan_ipmi (start_ip end_ip : option string)
| nutscan_scan_eaton_serial (ports : option string).

(** ** What [main] prints and calls *)

Inductive display_fn :=
| nutscan_display_ups_conf_with_sanity_check
| nutscan_display_ups_conf
| nutscan_display_parsable.

Inductive event :=
| Debug (level : Z) (msg : string)      (* upsdebugx(level, msg, ...) *)
| Stderr (msg : string)                 (* fprintf(stderr, msg, ...) *)
| Stdout (msg : string)                 (* printf(msg, ...) *)
| Usage                                 (* show_usage() *)
| SemDestroy                            (* sem_destroy(current_sem) *)
| SemInit (value : Z)                   (* sem_init(current_sem, 0, value) *)
| PthreadCreate (t : scan_type) (started : bool)
| PthreadJoin (t : scan_type)
| Display (f : display_fn) (t : scan_type) (d : nutscan_device_ptr)
| FreeDevice (t : scan_type).           (* nutscan_free_device(dev[t]) *)

(** ** The registry of IP ranges *)

(** [struct ip_range_s]; [next] is the index of the next node in the heap. *)
Record ip_range_t := IpRange {
  start_ip : option string;
  end_ip : option string;
  next : option nat
}.

(** The file-scope variables of the registry, and the heap their nodes are
    allocated in: [xcalloc] returns the first unused index. *)
Record registry := Registry {
  heap : list ip_range_t;
  ip_ranges : option nat;
  ip_ranges_last : option nat;
  ip_ranges_count : Z
}.

Definition empty_registry : registry := Registry [] None None 0.

(** ** The state of the program *)

Record state := State {
  (* file scope *)
  dev : scan_type -> nutscan_device_ptr;
  serial_ports : option string;
  cli_link_detail_level : Z;
  reg : registry;
  thread : scan_type -> bool;
  (* globals of the scanning library *)
  max_threads : Z;
  nutscan_avail : scan_type -> bool;
  (* locals of main *)
  nofile_rlim_cur : Z;
  nofile_rlim_max : Z;
  pend_start_ip : option string;
  pend_end_ip : option string;
  allow_all : bool;
  allow : scan_type -> bool;
  quiet : Z;
  display_func : display_fn;
  (* observations *)
  calls : scan_type -> list probe_call;
  trace : list event
}.

Definition set_dev (f : scan_type -> nutscan_device_ptr) (st : state) : state :=
  State f (serial_ports st) (cli_link_detail_level st) (reg st) (thread st)
    (max_threads st) (nutscan_avail st) (nofile_rlim_cur st) (nofile_rlim_max st)
    (pend_start_ip st) (pend_end_ip st) (allow_all st) (allow st) (quiet st)
    (display_func st) (calls st) (trace st).

Definition set_serial_ports (v : option string) (st : state) : state :=
  State (dev st) v (cli_link_detail_level st) (reg st) (thread st)
    (max_threads st) (nutscan_avail st) (nofile_rlim_cur st) (nofile_rlim_max st)
    (pend_start_ip st) (pend_end_ip st) (allow_all st) (allow st) (quiet st)
    (display_func st) (calls st) (trace st).

Definition set_cli_link_detail_level (v : Z) (st : state) : state :=
  State (dev st) (serial_ports st) v (reg st) (thread st)
    (max_threads st) (nutscan_avail st) (nofile_rlim_cur st) (nofile_rlim_max st)
    (pend_start_ip st) (pend_end_ip st) (allow_all st) (allow st) (quiet st)
    (display_func st) (calls st) (trace st).

Definition set_reg (v : registry) (st : state) : state :=
  State (dev st) (serial_ports st) (cli_link_detail_level st) v (thread st)
    (max_threads st) (nutscan_avail st) (nofile_rlim_cur st) (nofile_rlim_max st)
    (pend_start_ip st) (pend_end_ip st) (allow_all st) (allow st) (quiet st)
    (display_func st) (calls st) (trace st).

Definition set_thread (f : scan_type -> bool) (st : state) : state :=
  State (dev st) (serial_ports st) (cli_link_detail_level st) (reg st) f
    (max_threads st) (nutscan_avail st) (nofile_rlim_cur st) (nofile_rlim_max st)
    (pend_start_ip st) (pend_end_ip st) (allow_all st) (allow st) (quiet st)
    (display_func st) (calls st) (trace st).

Definition set_max_threads (v : Z) (st : state) : state :=
  State (dev st) (serial_ports st) (cli_link_detail_level st) (reg st) (thread st)
    v (nutscan_avail st) (nofile_rlim_cur st) (nofile_rlim_max st)
    (pend_start_ip st) (pend_end_ip st) (allow_all st) (allow st) (quiet st)
    (display_func st) (calls st) (trace st).

Definition set_nutscan_avail (f : scan_type -> bool) (st : state) : state :=
  State (dev st) (serial_ports st) (cli_link_detail_level st) (reg st) (thread st)
    (max_threads st) f (nofile_rlim_cur st) (nofile_rlim_max st)
    (pend_start_ip st) (pend_end_ip st) (allow_all st) (allow st) (quiet st)
    (display_func st) (calls st) (trace st).

Definition set_nofile_limit (cur mx : Z) (st : state) : state :=
  State (dev st) (serial_ports st) (cli_link_detail_level st) (reg st) (thread st)
    (max_threads st) (nutscan_avail st) cur mx
    (pend_start_ip st) (pend_end_ip st) (allow_all st) (allow st) (quiet st)
    (display_func st) (calls st) (trace st).

Definition set_pending (s e : option string) (st : state) : state :=
  State (dev st) (serial_ports st) (cli_link_detail_level st) (reg st) (thread st)
    (max_threads st) (nutscan_avail st) (nofile_rlim_cur st) (nofile_rlim_max st)
    s e (allow_all st) (allow st) (quiet st)
    (display_func st) (calls st) (trace st).

Definition set_allow_all (v : bool) (st : state) : state :=
  State (dev st) (serial_ports st) (cli_link_detail_level st) (reg st) (thread st)
    (max_threads st) (nutscan_avail st) (nofile_rlim_cur st) (nofile_rlim_max st)
    (pend_start_ip st) (pend_end_ip st) v (allow st) (quiet st)
    (display_func st) (calls st) (trace st).

Definition set_allow (f : scan_type -> bool) (st : state) : state :=
  State (dev st) (serial_ports st) (cli_link_detail_level st) (reg st) (thread st)
    (max_threads st) (nutscan_avail st) (nofile_rlim_cur st) (nofile_rlim_max st)
    (pend_start_ip st) (pend_end_ip st) (allow_all st) f (quiet st)
    (display_func st) (calls st) (trace st).

Definition set_quiet (v : Z) (st : state) : state :=
  State (dev st) (serial_ports st) (cli_link_detail_level st) (reg st) (thread st)
    (max_threads st) (nutscan_avail st) (nofile_rlim_cur st) (nofile_rlim_max st)
    (pend_start_ip st) (pend_end_ip st) (allow_all st) (allow st) v
    (display_func st) (calls st) (trace st).

Definition set_display_func (v : display_fn) (st : state) : state :=
  State (dev st) (serial_ports st) (cli_link_detail_level st) (reg st) (thread st)
    (max_threads st) (nutscan_avail st) (nofile_rlim_cur st) (nofile_rlim_max st)
    (pend_start_ip st) (pend_end_ip st) (allow_all st) (allow st) (quiet st)
    v (calls st) (trace st).

Definition set_calls (f : scan_type -> list probe_call) (st : state) : state :=
  State (dev st) (serial_ports st) (cli_link_detail_level st) (reg st) (thread st)
    (max_threads st) (nutscan_avail st) (nofile_rlim_cur st) (nofile_rlim_max st)
    (pend_start_ip st) (pend_end_ip st) (allow_all st) (allow st) (quiet st)
    (display_func st) f (trace st).

Definition set_trace (v : list event) (st : state) : state :=
  State (dev st) (serial_ports st) (cli_link_detail_level st) (reg st) (thread st)
    (max_threads st) (nutscan_avail st) (nofile_rlim_cur st) (nofile_rlim_max st)
    (pend_start_ip st) (pend_end_ip st) (allow_all st) (allow st) (quiet st)
    (display_func st) (calls st) v.

(** An event of the main thread, appended to the trace. *)
Definition emit (e : event) (st : state) : state :=
  set_trace (trace st ++ [e]) st.

Definition upsdebugx (level : Z) (msg : string) (st : state) : state :=
  emit (Debug level msg) st.

(** ** add_ip_range *)

Definition set_next (p : option nat) (n : ip_range_t) : ip_range_t :=
  IpRange (start_ip n) (end_ip n) p.

Definition add_ip_range (start_ip end_ip : option string) (st : state)
  : Z * state :=
  match start_ip, end_ip with
  | None, None =>
      (ip_ranges_count (reg st),
       upsdebugx 5 "%s: skip, no addresses were provided" st)
  | _, _ =>
      let '(start_ip, st) :=
        match start_ip with
        | None =>
            (end_ip,
             upsdebugx 5
               "%s: only end address was provided, setting start to same: %s" st)
        | Some _ => (start_ip, st)
        end in
      let '(end_ip, st) :=
        match end_ip with
        | None =>
            (start_ip,
             upsdebugx 5
               "%s: only start address was provided, setting end to same: %s" st)
        | Some _ => (end_ip, st)
        end in
      let r := reg st in
      (* p = xcalloc(1, sizeof(ip_range_t)), then its three fields *)
      let p := length (heap r) in
      let h := heap r ++ [IpRange start_ip end_ip None] in
      let head := match ip_ranges r with
                  | None => Some p
                  | Some q => Some q
                  end in
      let h := match ip_ranges_last r with
               | Some l => alter (set_next (Some p)) l h
               | None => h
               end in
      let count := to_size_t (ip_ranges_count r + 1) in
      let st := set_reg (Registry h head (Some p) count) st in
      (count, upsdebugx 1 "Recorded IP address range #%zu: [%s .. %s]" st)
  end.

(** ** The environment of a run *)

(** What the run takes from outside: the soft and hard limits on open file
    descriptors ([None] when [getrlimit] fails), the library's initial
    [max_threads], the capabilities found by [nutscan_init], the probes, and
    the result of [pthread_create] for each protocol (0 when the thread was
    started). *)
Record environment := Environment {
  getrlimit : option (Z * Z);
  default_max_threads : Z;
  detected_avail : scan_type -> bool;
  nutscan_scan : probe_call -> nutscan_device_ptr;
  pthread_create_rc : scan_type -> Z
}.

(** ** Thread bodies *)

(** The call of a probe by the thread of protocol [t]. *)
Definition call_probe (env : environment) (t : scan_type) (c : probe_call)
  (st : state) : nutscan_device_ptr * state :=
  (nutscan_scan env c, set_calls (<[t := calls st t ++ [c]]> (calls st)) st).

Definition store_dev (t : scan_type) (d : nutscan_device_ptr) (st : state)
  : state :=
  set_dev (<[t := d]> (dev st)) st.

Definition run_usb (env : environment) (arg : option Z) (st : state)
  : option state :=
  let scanopts_ptr :=
    match arg with
    | None => None
    | Some link_detail_level =>
        if decide (link_detail_level = 0) then Some (UsbOpts 0 0 0 0)
        else if decide (link_detail_level = 1) then Some (UsbOpts 1 1 0 0)
        else if decide (link_detail_level = 2) then Some (UsbOpts 1 1 1 0)
        else if decide (link_detail_level = 3) then Some (UsbOpts 1 1 1 1)
        else None
    end in
  let '(d, st) := call_probe env TYPE_USB (nutscan_scan_usb scanopts_ptr) st in
  Some (store_dev TYPE_USB d st).

(** The loop [while (p) { ... p = p->next; }] that [run_snmp], [run_xml],
    [run_nut_old] and [run_ipmi] share word for word, for the slot [t] and
    the probe [scan].  [fuel] bounds the number of iterations; the result is
    [None] when the loop does not end within [fuel] or follows a pointer to
    no node. *)
Fixpoint scan_ranges (env : environment) (t : scan_type)
  (scan : option string -> option string -> probe_call)
  (fuel : nat) (p : option nat) (st : state) : option state :=
  match p with
  | None => Some st
  | Some a =>
      match fuel with
      | O => None
      | S fuel' =>
          match heap (reg st) !! a with
          | None => None
          | Some node =>
              let '(dev_ret, st) :=
                call_probe env t (scan (start_ip node) (end_ip node)) st in
              let st :=
                match dev st t with
                | None => store_dev t dev_ret st
                | Some _ =>
                    store_dev t
                      (nutscan_rewind_device
                         (nutscan_add_device_to_device dev_ret (dev st t))) st
                end in
              scan_ranges env t scan fuel' (next node) st
          end
      end
  end.

Definition run_snmp (env : environment) (fuel : nat) (st : state)
  : option state :=
  let p := ip_ranges (reg st) in
  let st := store_dev TYPE_SNMP None st in
  scan_ranges env TYPE_SNMP nutscan_scan_snmp fuel p st.

Definition run_xml (env : environment) (fuel : nat) (st : state)
  : option state :=
  let p := ip_ranges (reg st) in
  match p with
  | None =>
      (* Probe broadcast *)
      let '(d, st) :=
        call_probe env TYPE_XML (nutscan_scan_xml_http_range None None) st in
      Some (store_dev TYPE_XML d st)
  | Some _ =>
      let st := store_dev TYPE_XML None st in
      scan_ranges env TYPE_XML nutscan_scan_xml_http_range fuel p st
  end.

Definition run_nut_old (env : environment) (fuel : nat) (st : state)
  : option state :=
  let p := ip_ranges (reg st) in
  let st := store_dev TYPE_NUT None st in
  scan_ranges env TYPE_NUT nutscan_scan_nut fuel p st.

Definition run_nut_simulation (env : environment) (st : state)
  : option state :=
  let '(d, st) :=
    call_probe env TYPE_NUT_SIMULATION nutscan_scan_nut_simulation st in
  Some (store_dev TYPE_NUT_SIMULATION d st).

Definition run_avahi (env : environment) (st : state) : option state :=
  let '(d, st) := call_probe env TYPE_AVAHI nutscan_scan_avahi st in
  Some (store_dev TYPE_AVAHI d st).

Definition run_ipmi (env : environment) (fuel : nat) (st : state)
  : option state :=
  let p := ip_ranges (reg st) in
  match p with
  | None =>
      (* Probe local device *)
      let '(d, st) := call_probe env TYPE_IPMI (nutscan_scan_ipmi None None) st in
      Some (store_dev TYPE_IPMI d st)
  | Some _ =>
      let st := store_dev TYPE_IPMI None st in
      scan_ranges env TYPE_IPMI nutscan_scan_ipmi fuel p st
  end.

Definition run_eaton_serial (env : environment) (arg : option string)
  (st : state) : option state :=
  let '(d, st) :=
    call_probe env TYPE_EATON_SERIAL (nutscan_scan_eaton_serial arg) st in
  Some (store_dev TYPE_EATON_SERIAL d st).

(** ** main: limits, options *)

(** The options of the second [getopt_long] loop.  [Opt_T] carries what
    [strtol(optarg, &endptr, 10)] gives: the value and the text left at
    [endptr].  [Opt_snmp_sec] stands for -c -l -u -W -X -w -x and
    [Opt_ipmi_sec] for -b -B -d -L; [Opt_unknown] is the '?' that [getopt]
    returns for an option it does not know or whose argument is missing. *)
Inductive cli_opt :=
| Opt_t
| Opt_s (optarg : string)
| Opt_e (optarg : string)
| Opt_E (optarg : string)
| Opt_D
| Opt_snmp_sec
| Opt_S
| Opt_ipmi_sec
| Opt_p
| Opt_T (val : Z) (endptr : string)
| Opt_C
| Opt_U
| Opt_M
| Opt_O
| Opt_A
| Opt_n
| Opt_I
| Opt_Q
| Opt_N
| Opt_P
| Opt_q
| Opt_V
| Opt_a
| Opt_unknown
| Opt_h.

(** Where the option loop goes next: on to the next option, or out of
    [main] with an exit status. *)
Inductive flow :=
| Continue (st : state)
| Return (code : Z) (st : state).

(** The state in which [main] starts. *)
Definition initial_state (env : environment) : state :=
  State (fun _ => None) None (-1) empty_registry (fun _ => false)
    (to_size_t (default_max_threads env)) (detected_avail env)
    0 0 None None false (fun _ => false) 0
    nutscan_display_ups_conf_with_sanity_check (fun _ => []) [].

(** max_threads = (size_t)nofile_limit.rlim_cur;
    if (max_threads > (RESERVE_FD_COUNT + 1)) max_threads -= RESERVE_FD_COUNT; *)
Definition constrain_to_nofile (st : state) : state :=
  let st := set_max_threads (to_size_t (nofile_rlim_cur st)) st in
  if decide (max_threads st > RESERVE_FD_COUNT + 1)
  then set_max_threads (to_size_t (max_threads st - RESERVE_FD_COUNT)) st
  else st.

(** The start of [main]: the limit on open file descriptors. *)
Definition init_nofile_limit (env : environment) (st : state) : state :=
  match getrlimit env with
  | None =>
      set_nofile_limit 0 0
        (emit (Stderr "getrlimit() failed with errno=%d, keeping default job limits") st)
  | Some (cur, mx) =>
      let st := set_nofile_limit (to_size_t cur) (to_size_t mx) st in
      if decide (nofile_rlim_cur st > 0
                 /\ nofile_rlim_cur st > RESERVE_FD_COUNT
                 /\ max_threads st > to_size_t (nofile_rlim_cur st - RESERVE_FD_COUNT)
                 /\ nofile_rlim_cur st < SIZE_MAX)
      then constrain_to_nofile st
      else st
  end.

(** The label [display_help]. *)
Definition display_help (opt_is_h : bool) (ret_code : Z) (st : state) : flow :=
  let st := emit Usage st in
  let st :=
    if negb opt_is_h || negb (bool_decide (ret_code = EXIT_SUCCESS))
    then emit (Stderr "WARNING: Some error has occurred while processing 'nut-scanner' command-line arguments, see more details above the usage help text.") st
    else st in
  Return ret_code st.

(** add_ip_range(start_ip, end_ip); start_ip = NULL; end_ip = NULL; *)
Definition flush_range (st : state) : state :=
  let '(_, st) := add_ip_range (pend_start_ip st) (pend_end_ip st) st in
  set_pending None None st.

(** A scan option whose capability is tested first: [goto display_help]
    when it is not available, [allow_...  = 1] otherwise. *)
Definition allow_if_avail (t : scan_type) (st : state) : flow :=
  if negb (nutscan_avail st t) then display_help false EXIT_SUCCESS st
  else Continue (set_allow (<[t := true]> (allow st)) st).

(** One turn of the [switch (opt_ret)]. *)
Definition process_option (o : cli_opt) (st : state) : flow :=
  match o with
  | Opt_t => Continue st
  | Opt_s optarg =>
      let st := match pend_start_ip st with
                | Some _ => flush_range st
                | None => st
                end in
      let st := set_pending (Some optarg) (pend_end_ip st) st in
      let st := match pend_end_ip st with
                | Some _ => flush_range st
                | None => st
                end in
      Continue st
  | Opt_e optarg =>
      let st := match pend_end_ip st with
                | Some _ => flush_range st
                | None => st
                end in
      let st := set_pending (pend_start_ip st) (Some optarg) st in
      let st := match pend_start_ip st with
                | Some _ => flush_range st
                | None => st
                end in
      Continue st
  | Opt_E optarg =>
      let st := set_serial_ports (Some optarg) st in
      Continue (set_allow (<[TYPE_EATON_SERIAL := true]> (allow st)) st)
  | Opt_D => Continue st
  | Opt_snmp_sec =>
      if negb (nutscan_avail st TYPE_SNMP)
      then display_help false EXIT_SUCCESS st
      else Continue st
  | Opt_S => allow_if_avail TYPE_SNMP st
  | Opt_ipmi_sec =>
      if negb (nutscan_avail st TYPE_IPMI)
      then display_help false EXIT_SUCCESS st
      else Continue st
  | Opt_p => Continue st
  | Opt_T val endptr =>
      if decide (endptr = EmptyString
                 /\ val > 0
                 /\ to_size_t val < SIZE_MAX)
      then
        if decide (nofile_rlim_cur st > 0
                   /\ nofile_rlim_cur st > RESERVE_FD_COUNT
                   /\ nofile_rlim_cur st < SIZE_MAX
                   /\ to_size_t val
                      > to_size_t (nofile_rlim_cur st - RESERVE_FD_COUNT))
        then
          let st := upsdebugx 1 "Detected soft limit for file descriptor count is %ju" st in
          let st := upsdebugx 1 "Detected hard limit for file descriptor count is %ju" st in
          let st := constrain_to_nofile st in
          Continue
            (emit (Stderr "WARNING: Requested max scanning thread count %s (%ld) exceeds the current file descriptor count limit (minus reservation), constraining to %zu") st)
        else Continue (set_max_threads (to_size_t val) st)
      else
        Continue
          (emit (Stderr "WARNING: Requested max scanning thread count %s (%ld) is out of range, using default %zu") st)
  | Opt_C => Continue (set_allow_all true st)
  | Opt_U =>
      if negb (nutscan_avail st TYPE_USB)
      then display_help false EXIT_SUCCESS st
      else
        let st := set_allow (<[TYPE_USB := true]> (allow st)) st in
        Continue
          (if decide (cli_link_detail_level st < 3)
           then set_cli_link_detail_level (cli_link_detail_level st + 1) st
           else st)
  | Opt_M => allow_if_avail TYPE_XML st
  | Opt_O => Continue (set_allow (<[TYPE_NUT := true]> (allow st)) st)
  | Opt_A => allow_if_avail TYPE_AVAHI st
  | Opt_n => Continue (set_allow (<[TYPE_NUT_SIMULATION := true]> (allow st)) st)
  | Opt_I => allow_if_avail TYPE_IPMI st
  | Opt_Q =>
      Continue (set_display_func nutscan_display_ups_conf_with_sanity_check st)
  | Opt_N => Continue (set_display_func nutscan_display_ups_conf st)
  | Opt_P => Continue (set_display_func nutscan_display_parsable st)
  | Opt_q => Continue (set_quiet 1 st)
  | Opt_V =>
      Return EXIT_SUCCESS (emit (Stdout "Network UPS Tools - %s") st)
  | Opt_a =>
      let st := emit (Stdout "OLDNUT") st in
      let st := if nutscan_avail st TYPE_USB then emit (Stdout "USB") st else st in
      let st := if nutscan_avail st TYPE_SNMP then emit (Stdout "SNMP") st else st in
      let st := if nutscan_avail st TYPE_XML then emit (Stdout "XML") st else st in
      let st := if nutscan_avail st TYPE_AVAHI then emit (Stdout "AVAHI") st else st in
      let st := if nutscan_avail st TYPE_IPMI then emit (Stdout "IPMI") st else st in
      Return EXIT_SUCCESS (emit (Stdout "EATON_SERIAL") st)
  | Opt_unknown => display_help false ERR_BAD_OPTION st
  | Opt_h => display_help true EXIT_SUCCESS st
  end.

(** The second [while ((opt_ret = getopt_long(...)) != -1)] loop. *)
Fixpoint parse_options (opts : list cli_opt) (st : state) : flow :=
  match opts with
  | [] => Continue st
  | o :: opts' =>
      match process_option o st with
      | Continue st' => parse_options opts' st'
      | Return code st' => Return code st'
      end
  end.

(** ** main: after the options *)

(** sem_destroy, the clamp to what [sem_init] takes, and sem_init. *)
Definition init_semaphore (st : state) : state :=
  let st := emit SemDestroy st in
  let st :=
    if decide (SIZE_MAX > UINT_MAX /\ max_threads st > UINT_MAX)
    then
      set_max_threads (UINT_MAX - 1)
        (emit (Stderr "WARNING: Limiting max_threads to range acceptable for sem_init()") st)
    else st in
  emit (SemInit (to_uint (max_threads st))) st.

(** if (start_ip != NULL || end_ip != NULL) { ... } *)
Definition flush_pending (st : state) : state :=
  match pend_start_ip st, pend_end_ip st with
  | None, None => st
  | _, _ => flush_range st
  end.

(** The two blocks on [allow_all]. *)
Definition resolve_allow (st : state) : state :=
  let st :=
    if negb (allow st TYPE_USB) && negb (allow st TYPE_SNMP)
       && negb (allow st TYPE_XML) && negb (allow st TYPE_NUT)
       && negb (allow st TYPE_NUT_SIMULATION) && negb (allow st TYPE_AVAHI)
       && negb (allow st TYPE_IPMI) && negb (allow st TYPE_EATON_SERIAL)
    then set_allow_all true st
    else st in
  if allow_all st then
    let st := set_allow (<[TYPE_USB := true]> (allow st)) st in
    let st :=
      if decide (cli_link_detail_level st < 0)
      then set_cli_link_detail_level (cli_link_detail_level st + 1) st
      else st in
    let st := set_allow (<[TYPE_SNMP := true]> (allow st)) st in
    let st := set_allow (<[TYPE_XML := true]> (allow st)) st in
    let st := set_allow (<[TYPE_NUT := true]> (allow st)) st in
    let st := set_allow (<[TYPE_NUT_SIMULATION := true]> (allow st)) st in
    let st := set_allow (<[TYPE_AVAHI := true]> (allow st)) st in
    set_allow (<[TYPE_IPMI := true]> (allow st)) st
  else st.

(** [pthread_create(&thread[t], NULL, body, arg)]: its result, and the
    state once the thread, if it was started, has run. *)
Definition pthread_create (env : environment) (t : scan_type)
  (body : state -> option state) (st : state) : option (Z * state) :=
  let rc := pthread_create_rc env t in
  if decide (rc = 0) then
    st ← body (emit (PthreadCreate t true) st);
    Some (rc, set_thread (<[t := true]> (thread st)) st)
  else Some (rc, emit (PthreadCreate t false) st).

Definition disable (t : scan_type) (st : state) : state :=
  set_nutscan_avail (<[t := false]> (nutscan_avail st)) st.

(** if (pthread_create(...)) { upsdebugx(1, ...); nutscan_avail_... = 0; } *)
Definition start_thread (env : environment) (t : scan_type)
  (body : state -> option state) (st : state) : option state :=
  '(rc, st) ← pthread_create env t body st;
  Some (if decide (rc ≠ 0)
        then disable t
               (upsdebugx 1 "pthread_create returned an error; disabling this scan mode" st)
        else st).

(** The number of nodes allocated bounds the length of the registry. *)
Definition loop_fuel (st : state) : nat := length (heap (reg st)).

Definition dispatch_usb (env : environment) (st : state) : option state :=
  if allow st TYPE_USB && nutscan_avail st TYPE_USB then
    let st := upsdebugx (quiet st) "Scanning USB bus." st in
    start_thread env TYPE_USB
      (run_usb env (Some (cli_link_detail_level st))) st
  else Some (upsdebugx 1 "USB SCAN: not requested or supported, SKIPPED" st).

Definition dispatch_snmp (env : environment) (st : state) : option state :=
  if allow st TYPE_SNMP && nutscan_avail st TYPE_SNMP then
    if decide (ip_ranges_count (reg st) = 0) then
      Some (disable TYPE_SNMP
              (upsdebugx (quiet st) "No IP range(s) requested, skipping SNMP" st))
    else
      let st := upsdebugx (quiet st) "Scanning SNMP bus." st in
      let st := upsdebugx 1 "SNMP SCAN: starting pthread_create with run_snmp..." st in
      start_thread env TYPE_SNMP (run_snmp env (loop_fuel st)) st
  else Some (upsdebugx 1 "SNMP SCAN: not requested or supported, SKIPPED" st).

Definition dispatch_xml (env : environment) (st : state) : option state :=
  if allow st TYPE_XML && nutscan_avail st TYPE_XML then
    let st := upsdebugx (quiet st) "Scanning XML/HTTP bus." st in
    let st := upsdebugx 1 "XML/HTTP SCAN: starting pthread_create with run_xml..." st in
    start_thread env TYPE_XML (run_xml env (loop_fuel st)) st
  else Some (upsdebugx 1 "XML/HTTP SCAN: not requested or supported, SKIPPED" st).

Definition dispatch_nut (env : environment) (st : state) : option state :=
  if allow st TYPE_NUT && nutscan_avail st TYPE_NUT then
    if decide (ip_ranges_count (reg st) = 0) then
      Some (disable TYPE_NUT
              (upsdebugx (quiet st)
                 "No IP range(s) requested, skipping NUT bus (old libupsclient connect method)" st))
    else
      let st := upsdebugx (quiet st) "Scanning NUT bus (old libupsclient connect method)." st in
      let st := upsdebugx 1 "NUT bus (old) SCAN: starting pthread_create with run_nut_old..." st in
      start_thread env TYPE_NUT (run_nut_old env (loop_fuel st)) st
  else Some (upsdebugx 1 "NUT bus (old) SCAN: not requested or supported, SKIPPED" st).

Definition dispatch_nut_simulation (env : environment) (st : state)
  : option state :=
  if allow st TYPE_NUT_SIMULATION && nutscan_avail st TYPE_NUT_SIMULATION then
    let st := upsdebugx (quiet st) "Scanning NUT simulation devices." st in
    let st := upsdebugx 1 "NUT simulation devices SCAN: starting pthread_create with run_nut_simulation..." st in
    start_thread env TYPE_NUT_SIMULATION (run_nut_simulation env) st
  else Some (upsdebugx 1 "NUT simulation devices SCAN: not requested or supported, SKIPPED" st).

Definition dispatch_avahi (env : environment) (st : state) : option state :=
  if allow st TYPE_AVAHI && nutscan_avail st TYPE_AVAHI then
    let st := upsdebugx (quiet st) "Scanning NUT bus (avahi method)." st in
    let st := upsdebugx 1 "NUT bus (avahi) SCAN: starting pthread_create with run_avahi..." st in
    start_thread env TYPE_AVAHI (run_avahi env) st
  else Some (upsdebugx 1 "NUT bus (avahi) SCAN: not requested or supported, SKIPPED" st).

Definition dispatch_ipmi (env : environment) (st : state) : option state :=
  if allow st TYPE_IPMI && nutscan_avail st TYPE_IPMI then
    let st := upsdebugx (quiet st) "Scanning IPMI bus." st in
    let st := upsdebugx 1 "IPMI SCAN: starting pthread_create with run_ipmi..." st in
    start_thread env TYPE_IPMI (run_ipmi env (loop_fuel st)) st
  else Some (upsdebugx 1 "IPMI SCAN: not requested or supported, SKIPPED" st).

(** The result of this [pthread_create] is not looked at. *)
Definition dispatch_eaton_serial (env : environment) (st : state)
  : option state :=
  if allow st TYPE_EATON_SERIAL then
    let st := upsdebugx (quiet st) "Scanning serial bus for Eaton devices." st in
    let st := upsdebugx 1 "SERIAL SCAN: starting pthread_create with run_eaton_serial (return not checked!)..." st in
    '(_, st) ← pthread_create env TYPE_EATON_SERIAL
                 (run_eaton_serial env (serial_ports st)) st;
    Some st
  else Some (upsdebugx 1 "SERIAL SCAN: not requested or supported, SKIPPED" st).

(** The eight blocks that start the scans, in the order of the source. *)
Definition dispatch_all (env : environment) (st : state) : option state :=
  st ← dispatch_usb env st;
  st ← dispatch_snmp env st;
  st ← dispatch_xml env st;
  st ← dispatch_nut env st;
  st ← dispatch_nut_simulation env st;
  st ← dispatch_avahi env st;
  st ← dispatch_ipmi env st;
  dispatch_eaton_serial env st.

(** The line logged before the thread of a protocol is joined. *)
Definition join_msg (t : scan_type) : string :=
  match t with
  | TYPE_USB => "USB SCAN: join back the pthread"
  | TYPE_SNMP => "SNMP SCAN: join back the pthread"
  | TYPE_XML => "XML/HTTP SCAN: join back the pthread"
  | TYPE_NUT => "NUT bus (old) SCAN: join back the pthread"
  | TYPE_NUT_SIMULATION => "NUT simulation devices SCAN: join back the pthread"
  | TYPE_AVAHI => "NUT bus (avahi) SCAN: join back the pthread"
  | TYPE_IPMI => "IPMI SCAN: join back the pthread"
  | TYPE_EATON_SERIAL => "SERIAL SCAN: join back the pthread"
  end.

(** if (cond && thread[t]) { upsdebugx(1, ...); pthread_join(thread[t], NULL); } *)
Definition join_thread (t : scan_type) (cond : bool) (st : state) : state :=
  if cond && thread st t
  then emit (PthreadJoin t) (upsdebugx 1 (join_msg t) st)
  else st.

Definition requested_and_avail (t : scan_type) (st : state) : bool :=
  allow st t && nutscan_avail st t.

(** The join of a protocol with a capability flag:
    if (allow_... && nutscan_avail_... && thread[t]) *)
Definition join_checked (t : scan_type) (st : state) : state :=
  join_thread t (requested_and_avail t st) st.

(** if (allow_eaton_serial && thread[TYPE_EATON_SERIAL]) *)
Definition join_eaton_serial (st : state) : state :=
  join_thread TYPE_EATON_SERIAL (allow st TYPE_EATON_SERIAL) st.

(** The eight joins, in the order of the source. *)
Definition join_all (st : state) : state :=
  join_eaton_serial
    (join_checked TYPE_IPMI
       (join_checked TYPE_AVAHI
          (join_checked TYPE_NUT_SIMULATION
             (join_checked TYPE_NUT
                (join_checked TYPE_XML
                   (join_checked TYPE_SNMP
                      (join_checked TYPE_USB st))))))).

(** The name of a protocol in the lines of the report. *)
Definition report_name (t : scan_type) : string :=
  match t with
  | TYPE_USB => "USB"
  | TYPE_SNMP => "SNMP"
  | TYPE_XML => "XML/HTTP"
  | TYPE_NUT => "NUT bus (old)"
  | TYPE_NUT_SIMULATION => "NUT simulation devices"
  | TYPE_AVAHI => "NUT bus (avahi)"
  | TYPE_IPMI => "IPMI"
  | TYPE_EATON_SERIAL => "SERIAL"
  end.

(** display_func(dev[t]); nutscan_free_device(dev[t]); with their two
    debug lines. *)
Definition display_and_free (t : scan_type) (st : state) : state :=
  let st := upsdebugx 1 ("SCANS DONE: display results: " +:+ report_name t) st in
  let st := emit (Display (display_func st) t (dev st t)) st in
  let st := upsdebugx 1 ("SCANS DONE: free resources: " +:+ report_name t) st in
  emit (FreeDevice t) st.

(** The report, in the order of the source. *)
Definition report (st : state) : state :=
  display_and_free TYPE_EATON_SERIAL
    (display_and_free TYPE_IPMI
       (display_and_free TYPE_AVAHI
          (display_and_free TYPE_NUT_SIMULATION
             (display_and_free TYPE_NUT
                (display_and_free TYPE_XML
                   (display_and_free TYPE_SNMP
                      (display_and_free TYPE_USB
                         (upsdebugx 1 "SCANS DONE: display results" st)))))))).

(** What [main] does once the option loop has ended without leaving. *)
Definition scan_and_report (env : environment) (st : state)
  : option (Z * state) :=
  let st := init_semaphore st in
  let st := flush_pending st in
  let st := resolve_allow st in
  st ← dispatch_all env st;
  let st := join_all st in
  let st := report st in
  let st := emit SemDestroy st in
  let st := upsdebugx 1 "SCANS DONE: free common scanner resources" st in
  Some (EXIT_SUCCESS, upsdebugx 1 "SCANS DONE: EXIT_SUCCESS" st).

(** [main]: the exit status and the last state; [None] when a thread does
    not come to its end.  The release of the memory of the library and of
    the registry ([nutscan_free], [free_ip_ranges]) before the last line is
    left out. *)
Definition main (env : environment) (opts : list cli_opt)
  : option (Z * state) :=
  match parse_options opts (init_nofile_limit env (initial_state env)) with
  | Return code st => Some (code, st)
  | Continue st => scan_and_report env st
  end.

(** ** The registry as a list *)

Definition range_of (n : ip_range_t) : option string * option string :=
  (start_ip n, end_ip n).

(** The ranges met on the way from [p] along the [next] pointers, as the
    loops of the thread bodies go; [None] when the way does not end within
    [fuel] steps or leaves the heap. *)
Fixpoint walk (fuel : nat) (h : list ip_range_t) (p : option nat)
  : option (list (option string * option string)) :=
  match p with
  | None => Some []
  | Some a =>
      match fuel with
      | O => None
      | S fuel' =>
          match h !! a with
          | None => None
          | Some node =>
              match walk fuel' h (next node) with
              | None => None
              | Some rest => Some (range_of node :: rest)
              end
          end
      end
  end.

(** The ranges of the registry, in the order in which the probes meet them. *)
Definition registry_ranges (r : registry)
  : option (list (option string * option string)) :=
  walk (length (heap r)) (heap r) (ip_ranges r).

(** The pointer to the node of index [i] of a heap of [n] nodes that are
    linked in the order of their allocation. *)
Definition node_ptr (n i : nat) : option nat :=
  if decide (i < n)%nat then Some i else None.

(** The representation invariant of the registry: every node allocated is
    linked to the one allocated next, [ip_ranges] is the first node,
    [ip_ranges_last] the last one, [ip_ranges_count] their number. *)
Record reg_wf (r : registry) : Prop := RegWf {
  wf_next : forall i node,
    heap r !! i = Some node -> next node = node_ptr (length (heap r)) (S i);
  wf_head : ip_ranges r = node_ptr (length (heap r)) 0;
  wf_last : ip_ranges_last r
            = match heap r with
              | [] => None
              | _ :: _ => Some (Nat.pred (length (heap r)))
              end;
  wf_count : ip_ranges_count r = to_size_t (Z.of_nat (length (heap r)))
}.

(** The heap and the variables after a node for [(s, e)] is linked in. *)
Definition link_new (s e : option string) (r : registry) : registry :=
  let p := length (heap r) in
  let h := heap r ++ [IpRange s e None] in
  Registry
    (match ip_ranges_last r with
     | Some l => alter (set_next (Some p)) l h
     | None => h
     end)
    (match ip_ranges r with None => Some p | Some q => Some q end)
    (Some p)
    (to_size_t (ip_ranges_count r + 1)).


(** ** What a sequence of -s and -e options implies (spec 4.2) *)

(** An occurrence of [-s] or of [-e], with its address. *)
Inductive endpoint_opt :=
| Start (a : string)
| End (a : string).

Definition cli_of (x : endpoint_opt) : cli_opt :=
  match x with
  | Start a => Opt_s a
  | End a => Opt_e a
  end.

Definition endpoint_address (x : endpoint_opt) : string :=
  match x with
  | Start a => a
  | End a => a
  end.

(** A range implied by the options: a start and an end that were paired, or
    a single endpoint that was not. *)
Inductive implied_range :=
| Lone (a : string)
| Paired (s e : string).

(** The range that an implied range is flushed as. *)
Definition implied_bounds (i : implied_range) : option string * option string :=
  match i with
  | Lone a => (Some a, Some a)
  | Paired s e => (Some s, Some e)
  end.

(** The option occurrences an implied range is made of. *)
Definition implied_uses (i : implied_range) : list string :=
  match i with
  | Lone a => [a]
  | Paired s e => [s; e]
  end.

(** The pairing in the words of the spec: an endpoint that arrives while the
    slot of its own side is taken flushes the pending one as a range of its
    own and takes its place; an endpoint that arrives while the slot of the
    other side is taken completes the range, which is flushed, and both slots
    are cleared; an endpoint left over at the end is flushed as a
    single-address range. *)
Fixpoint implied_ranges (pending : option endpoint_opt) (xs : list endpoint_opt)
  : list implied_range :=
  match xs with
  | [] =>
      match pending with
      | None => []
      | Some p => [Lone (endpoint_address p)]
      end
  | x :: xs' =>
      match pending, x with
      | None, _ => implied_ranges (Some x) xs'
      | Some (Start a), Start b => Lone a :: implied_ranges (Some (Start b)) xs'
      | Some (End a), End b => Lone a :: implied_ranges (Some (End b)) xs'
      | Some (End a), Start b => Paired b a :: implied_ranges None xs'
      | Some (Start a), End b => Paired a b :: implied_ranges None xs'
      end
  end.

(** The two locals [start_ip] and [end_ip] of [main] for a pending endpoint. *)
Definition pending_slots (pending : option endpoint_opt)
  : option string * option string :=
  match pending with
  | None => (None, None)
  | Some (Start a) => (Some a, None)
  | Some (End a) => (None, Some a)
  end.

(** The state in which [main] starts the scans, when the option loop ends
    without leaving. *)
Definition before_dispatch (env : environment) (opts : list cli_opt)
  : option state :=
  match parse_options opts (init_nofile_limit env (initial_state env)) with
  | Return _ _ => None
  | Continue st => Some (resolve_allow (flush_pending (init_semaphore st)))
  end.

(** The address of the pending endpoint, if there is one. *)
Definition pending_address (pending : option endpoint_opt) : list string :=
  match pending with
  | None => []
  | Some x => [endpoint_address x]
  end.

(** ** The result of a loop over the ranges *)

(** One turn of the loop of [run_snmp] and its three siblings on the slot
    [dev[t]]: the result [dev_ret] of the probe is stored when the slot is
    NULL, and merged with the slot otherwise. *)
Definition accumulate_one (acc dev_ret : nutscan_device_ptr)
  : nutscan_device_ptr :=
  match acc with
  | None => dev_ret
  | Some _ =>
      nutscan_rewind_device (nutscan_add_device_to_device dev_ret acc)
  end.

(** The slot after the results of the probe for the ranges, in their order. *)
Definition accumulate (acc : nutscan_device_ptr)
  (results : list nutscan_device_ptr) : nutscan_device_ptr :=
  fold_left accumulate_one results acc.

(** The protocols whose thread body loops over the registry, with the body
    and the probe of each. *)
Definition range_scoped
  : list (scan_type
          * (environment -> nat -> state -> option state)
          * (option string -> option string -> probe_call)) :=
  [ (TYPE_SNMP, run_snmp, nutscan_scan_snmp);
    (TYPE_XML, run_xml, nutscan_scan_xml_http_range);
    (TYPE_NUT, run_nut_old, nutscan_scan_nut);
    (TYPE_IPMI, run_ipmi, nutscan_scan_ipmi) ].

(** What a thread body may change: its own slot of [dev] and its own log of
    calls, and nothing else. *)
Record thread_effect (t : scan_type) (st st' : state) : Prop := ThreadEffect {
  te_dev : forall t', t' <> t -> dev st' t' = dev st t';
  te_calls : forall t', t' <> t -> calls st' t' = calls st t';
  te_serial_ports : serial_ports st' = serial_ports st;
  te_level : cli_link_detail_level st' = cli_link_detail_level st;
  te_reg : reg st' = reg st;
  te_thread : thread st' = thread st;
  te_max_threads : max_threads st' = max_threads st;
  te_avail : nutscan_avail st' = nutscan_avail st;
  te_allow_all : allow_all st' = allow_all st;
  te_allow : allow st' = allow st;
  te_quiet : quiet st' = quiet st;
  te_display_func : display_func st' = display_func st;
  te_trace : trace st' = trace st
}.

(** The call of the probe [scan] for a range. *)
Definition range_call (scan : option string -> option string -> probe_call)
  (r : option string * option string) : probe_call :=
  scan r.1 r.2.

(** The range-scoped protocols whose thread body probes a default target
    when the registry is empty: broadcast for XML/HTTP, the local device for
    IPMI. *)
Definition has_default_target (t : scan_type) : bool :=
  match t with
  | TYPE_XML | TYPE_IPMI => true
  | _ => false
  end.

(** ** What the start of the scans does, protocol by protocol *)

Definition all_types : list scan_type :=
  [TYPE_USB; TYPE_SNMP; TYPE_XML; TYPE_NUT; TYPE_NUT_SIMULATION; TYPE_AVAHI;
   TYPE_IPMI; TYPE_EATON_SERIAL].

(** The block of [main] that starts the scan of a protocol. *)
Definition dispatch_of (t : scan_type)
  : environment -> state -> option state :=
  match t with
  | TYPE_USB => dispatch_usb
  | TYPE_SNMP => dispatch_snmp
  | TYPE_XML => dispatch_xml
  | TYPE_NUT => dispatch_nut
  | TYPE_NUT_SIMULATION => dispatch_nut_simulation
  | TYPE_AVAHI => dispatch_avahi
  | TYPE_IPMI => dispatch_ipmi
  | TYPE_EATON_SERIAL => dispatch_eaton_serial
  end.

(** The protocols with a capability flag [nutscan_avail_...]: all but the
    Eaton serial scan. *)
Definition avail_checked (t : scan_type) : bool :=
  match t with
  | TYPE_EATON_SERIAL => false
  | _ => true
  end.

(** The protocols that [main] does not start without a range. *)
Definition needs_ranges (t : scan_type) : bool :=
  match t with
  | TYPE_SNMP | TYPE_NUT => true
  | _ => false
  end.

(** [main] comes to the [pthread_create] of the protocol. *)
Definition dispatched (t : scan_type) (st : state) : bool :=
  allow st t
  && (negb (avail_checked t) || nutscan_avail st t)
  && negb (needs_ranges t && bool_decide (ip_ranges_count (reg st) = 0)).

(** The thread of the protocol is started. *)
Definition started (env : environment) (t : scan_type) (st : state) : bool :=
  dispatched t st && bool_decide (pthread_create_rc env t = 0).

(** The options that [run_usb] derives from the link detail level. *)
Definition usb_scanopts (level : Z) : option nutscan_usb_t :=
  if decide (level = 0) then Some (UsbOpts 0 0 0 0)
  else if decide (level = 1) then Some (UsbOpts 1 1 0 0)
  else if decide (level = 2) then Some (UsbOpts 1 1 1 0)
  else if decide (level = 3) then Some (UsbOpts 1 1 1 1)
  else None.

(** The calls of its probe that the thread of a protocol makes, in order. *)
Definition expected_calls (t : scan_type) (st : state) : list probe_call :=
  let ranges := map range_of (heap (reg st)) in
  match t with
  | TYPE_USB => [nutscan_scan_usb (usb_scanopts (cli_link_detail_level st))]
  | TYPE_SNMP => map (range_call nutscan_scan_snmp) ranges
  | TYPE_XML =>
      match ranges with
      | [] => [nutscan_scan_xml_http_range None None]
      | _ :: _ => map (range_call nutscan_scan_xml_http_range) ranges
      end
  | TYPE_NUT => map (range_call nutscan_scan_nut) ranges
  | TYPE_NUT_SIMULATION => [nutscan_scan_nut_simulation]
  | TYPE_AVAHI => [nutscan_scan_avahi]
  | TYPE_IPMI =>
      match ranges with
      | [] => [nutscan_scan_ipmi None None]
      | _ :: _ => map (range_call nutscan_scan_ipmi) ranges
      end
  | TYPE_EATON_SERIAL => [nutscan_scan_eaton_serial (serial_ports st)]
  end.

(** The slot of the protocol once its thread has ended. *)
Definition expected_dev (env : environment) (t : scan_type) (st : state)
  : nutscan_device_ptr :=
  accumulate None (map (nutscan_scan env) (expected_calls t st)).

(** The line that [main] logs when it does not start a protocol that was
    not requested or is not supported. *)
Definition skipped_msg (t : scan_type) : string :=
  match t with
  | TYPE_USB => "USB SCAN: not requested or supported, SKIPPED"
  | TYPE_SNMP => "SNMP SCAN: not requested or supported, SKIPPED"
  | TYPE_XML => "XML/HTTP SCAN: not requested or supported, SKIPPED"
  | TYPE_NUT => "NUT bus (old) SCAN: not requested or supported, SKIPPED"
  | TYPE_NUT_SIMULATION =>
      "NUT simulation devices SCAN: not requested or supported, SKIPPED"
  | TYPE_AVAHI => "NUT bus (avahi) SCAN: not requested or supported, SKIPPED"
  | TYPE_IPMI => "IPMI SCAN: not requested or supported, SKIPPED"
  | TYPE_EATON_SERIAL => "SERIAL SCAN: not requested or supported, SKIPPED"
  end.

(** The line that [main] logs when it skips a protocol for want of a range. *)
Definition no_range_msg (t : scan_type) : string :=
  match t with
  | TYPE_SNMP => "No IP range(s) requested, skipping SNMP"
  | TYPE_NUT =>
      "No IP range(s) requested, skipping NUT bus (old libupsclient connect method)"
  | _ => EmptyString
  end.

(** The events of the start of the scan of [t]: debug lines, and the
    [pthread_create] of [t]. *)
Definition event_about (t : scan_type) (e : event) : Prop :=
  match e with
  | Debug _ _ => True
  | PthreadCreate t' _ => t' = t
  | _ => False
  end.

(** The variables that the start of the scans only reads. *)
Record same_config (st st' : state) : Prop := SameConfig {
  sc_serial_ports : serial_ports st' = serial_ports st;
  sc_level : cli_link_detail_level st' = cli_link_detail_level st;
  sc_reg : reg st' = reg st;
  sc_max_threads : max_threads st' = max_threads st;
  sc_allow_all : allow_all st' = allow_all st;
  sc_allow : allow st' = allow st;
  sc_quiet : quiet st' = quiet st;
  sc_display_func : display_func st' = display_func st
}.

(** The four variables of a protocol are those of another state. *)
Definition same_slot (t : scan_type) (st st' : state) : Prop :=
  dev st' t = dev st t
  /\ calls st' t = calls st t
  /\ thread st' t = thread st t
  /\ nutscan_avail st' t = nutscan_avail st t.

(** The four variables of a protocol in [st'], and the events [evs] logged,
    once [main] is past the block of the protocol entered in [st]. *)
Record slot_result (env : environment) (t : scan_type) (st st' : state)
  (evs : list event) : Prop := SlotResult {
  sr_dev : dev st' t
           = if started env t st then expected_dev env t st else dev st t;
  sr_calls : calls st' t
             = if started env t st
               then calls st t ++ expected_calls t st
               else calls st t;
  sr_thread : thread st' t = started env t st || thread st t;
  sr_avail : nutscan_avail st' t
             = if allow st t && avail_checked t
               then nutscan_avail st t && started env t st
               else nutscan_avail st t;
  sr_created : forall b,
    In (PthreadCreate t b) evs
    <-> dispatched t st = true /\ b = started env t st;
  sr_skipped : allow st t && (negb (avail_checked t) || nutscan_avail st t) = false ->
               In (Debug 1 (skipped_msg t)) evs;
  sr_no_range : allow st t && nutscan_avail st t = true ->
                needs_ranges t = true ->
                ip_ranges_count (reg st) = 0 ->
                In (Debug (quiet st) (no_range_msg t)) evs
}.

(** What the block of a protocol does to the state. *)
Record dispatch_post (env : environment) (t : scan_type) (st st' : state)
  (evs : list event) : Prop := DispatchPost {
  dp_trace : trace st' = trace st ++ evs;
  dp_events : Forall (event_about t) evs;
  dp_config : same_config st st';
  dp_others : forall t', t' <> t -> same_slot t' st st';
  dp_slot : slot_result env t st st' evs
}.

(** The thread body that [main] starts for a protocol. *)
Definition thread_body (env : environment) (t : scan_type) (st : state)
  : option state :=
  match t with
  | TYPE_USB => run_usb env (Some (cli_link_detail_level st)) st
  | TYPE_SNMP => run_snmp env (loop_fuel st) st
  | TYPE_XML => run_xml env (loop_fuel st) st
  | TYPE_NUT => run_nut_old env (loop_fuel st) st
  | TYPE_NUT_SIMULATION => run_nut_simulation env st
  | TYPE_AVAHI => run_avahi env st
  | TYPE_IPMI => run_ipmi env (loop_fuel st) st
  | TYPE_EATON_SERIAL => run_eaton_serial env (serial_ports st) st
  end.


(** Only -s and -e touch the registry and the pending endpoints. *)
Definition is_endpoint_opt (o : cli_opt) : bool :=
  match o with
  | Opt_s _ | Opt_e _ => true
  | _ => false
  end.


(** The events of the start of the scans. *)
Definition dispatch_event (e : event) : Prop :=
  match e with
  | Debug _ _ | PthreadCreate _ _ => True
  | _ => False
  end.

(** What the blocks of the protocols [ts], run one after the other, do to
    the state. *)
Record dispatch_posts (env : environment) (ts : list scan_type)
  (st st' : state) (evs : list event) : Prop := DispatchPosts {
  dps_trace : trace st' = trace st ++ evs;
  dps_events : Forall dispatch_event evs;
  dps_config : same_config st st';
  dps_outside : forall t, t ∉ ts -> same_slot t st st';
  dps_inside : forall t, t ∈ ts -> slot_result env t st st' evs;
  dps_created : forall t b, In (PthreadCreate t b) evs -> t ∈ ts
}.

(** ** The whole run *)

(** The events before the scans are started: lines of the log and of the
    error stream, and the semaphore. *)
Definition setup_event (e : event) : Prop :=
  match e with
  | Debug _ _ | Stderr _ | SemDestroy | SemInit _ => True
  | _ => False
  end.

(** What the steps of [main] before the scans leave as they are: the slots,
    the logs of calls, the threads and the capabilities; and the events they
    log. *)
Record setup_effect (st st' : state) : Prop := SetupEffect {
  se_dev : dev st' = dev st;
  se_calls : calls st' = calls st;
  se_thread : thread st' = thread st;
  se_avail : nutscan_avail st' = nutscan_avail st;
  se_trace : exists evs, trace st' = trace st ++ evs /\ Forall setup_event evs
}.

Definition is_display (e : event) : bool :=
  match e with
  | Display _ _ _ => true
  | _ => false
  end.

Definition is_thread_event (e : event) : bool :=
  match e with
  | PthreadCreate _ _ | PthreadJoin _ => true
  | _ => false
  end.

(** The events of the report of one protocol, then of all of them. *)
Definition report_events_of (f : display_fn)
  (dev : scan_type -> nutscan_device_ptr) (t : scan_type) : list event :=
  [ Debug 1 ("SCANS DONE: display results: " +:+ report_name t);
    Display f t (dev t);
    Debug 1 ("SCANS DONE: free resources: " +:+ report_name t);
    FreeDevice t ].

Definition report_events (f : display_fn)
  (dev : scan_type -> nutscan_device_ptr) : list event :=
  Debug 1 "SCANS DONE: display results"
  :: concat (map (report_events_of f dev) all_types).

(** The events after the report. *)
Definition teardown_events : list event :=
  [ SemDestroy;
    Debug 1 "SCANS DONE: free common scanner resources";
    Debug 1 "SCANS DONE: EXIT_SUCCESS" ].

(** The thread of the protocol is joined. *)
Definition joined (t : scan_type) (st : state) : bool :=
  allow st t && (negb (avail_checked t) || nutscan_avail st t) && thread st t.

Definition join_events_of (st : state) (t : scan_type) : list event :=
  if joined t st then [Debug 1 (join_msg t); PthreadJoin t] else [].

Definition join_events (st : state) : list event :=
  concat (map (join_events_of st) all_types).

(** The events of the joins: lines of the log and [pthread_join]. *)
Definition join_event (e : event) : Prop :=
  match e with
  | Debug _ _ | PthreadJoin _ => True
  | _ => False
  end.

(** The events of the report: lines of the log, the formatter and the
    release of the list. *)
Definition report_event (e : event) : Prop :=
  match e with
  | Debug _ _ | Display _ _ _ | FreeDevice _ => True
  | _ => False
  end.

(** The option that requests the scan of a protocol and tests its
    capability first. *)
Definition checked_option (t : scan_type) : option cli_opt :=
  match t with
  | TYPE_USB => Some Opt_U
  | TYPE_SNMP => Some Opt_S
  | TYPE_XML => Some Opt_M
  | TYPE_AVAHI => Some Opt_A
  | TYPE_IPMI => Some Opt_I
  | _ => None
  end.

(** The warning that follows the usage text. *)
Definition usage_warning : string :=
  "WARNING: Some error has occurred while processing 'nut-scanner' command-line arguments, see more details above the usage help text.".

(** ** Which scans the options request *)

(** The option [o] requests the scan of the protocol [t]. *)
Definition requests (o : cli_opt) (t : scan_type) : bool :=
  match o, t with
  | Opt_U, TYPE_USB
  | Opt_S, TYPE_SNMP
  | Opt_M, TYPE_XML
  | Opt_O, TYPE_NUT
  | Opt_n, TYPE_NUT_SIMULATION
  | Opt_A, TYPE_AVAHI
  | Opt_I, TYPE_IPMI
  | Opt_E _, TYPE_EATON_SERIAL => true
  | _, _ => false
  end.

(** The option requests a scan type: one of -U -S -M -O -n -A -I -E. *)
Definition is_scan_type_opt (o : cli_opt) : bool :=
  existsb (requests o) all_types.

Definition is_Opt_C (o : cli_opt) : bool :=
  match o with
  | Opt_C => true
  | _ => false
  end.

Definition is_Opt_E (o : cli_opt) : bool :=
  match o with
  | Opt_E _ => true
  | _ => false
  end.

Definition is_Opt_U (o : cli_opt) : bool :=
  match o with
  | Opt_U => true
  | _ => false
  end.

(** No scan type was requested: the test of the first block on [allow_all]. *)
Definition none_allowed (st : state) : bool :=
  negb (allow st TYPE_USB) && negb (allow st TYPE_SNMP)
  && negb (allow st TYPE_XML) && negb (allow st TYPE_NUT)
  && negb (allow st TYPE_NUT_SIMULATION) && negb (allow st TYPE_AVAHI)
  && negb (allow st TYPE_IPMI) && negb (allow st TYPE_EATON_SERIAL).

(** ** The messages about the number of threads *)

Definition thread_limit_warning : string :=
  "WARNING: Requested max scanning thread count %s (%ld) exceeds the current file descriptor count limit (minus reservation), constraining to %zu".

Definition thread_range_warning : string :=
  "WARNING: Requested max scanning thread count %s (%ld) is out of range, using default %zu".

Definition semaphore_warning : string :=
  "WARNING: Limiting max_threads to range acceptable for sem_init()".

(** ** Sample runs *)

(** A network in which every address answers SNMP, XML/HTTP answers the
    broadcast probe, and a simulated device is configured. *)
Definition sample_scan (c : probe_call) : nutscan_device_ptr :=
  match c with
  | nutscan_scan_snmp (Some s) _ => at_head [Device "snmp-ups" s]
  | nutscan_scan_xml_http_range None None =>
      at_head [Device "netxml-ups" "http://192.0.2.80"]
  | nutscan_scan_nut_simulation => at_head [Device "dummy-ups" "sample.dev"]
  | _ => None
  end.

(** Every capability found, every thread started, 1024 descriptors. *)
Definition sample_env : environment :=
  Environment (Some (1024, 4096)) 1024 (fun _ => true) sample_scan (fun _ => 0).

(** The same, without the SNMP capability. *)
Definition no_snmp_env : environment :=
  Environment (Some (1024, 4096)) 1024
    (fun t => negb (bool_decide (t = TYPE_SNMP))) sample_scan (fun _ => 0).

(** The same as [sample_env], with a soft limit of [cur] descriptors. *)
Definition limited_env (cur : Z) : environment :=
  Environment (Some (cur, 4096)) 1024 (fun _ => true) sample_scan (fun _ => 0).

(** The same as [sample_env], where [getrlimit] fails. *)
Definition unlimited_env : environment :=
  Environment None 1024 (fun _ => true) sample_scan (fun _ => 0).

(** The state once the option loop has read [opts]. *)
Definition state_after_options (env : environment) (opts : list cli_opt)
  : state :=
  match parse_options opts (init_nofile_limit env (initial_state env)) with
  | Continue st => st
  | Return _ st => st
  end.

(** The state in which the scans are started after [opts]. *)
Definition state_before_dispatch (env : environment) (opts : list cli_opt)
  : state :=
  resolve_allow (flush_pending (init_semaphore (state_after_options env opts))).

(** What is seen of a run: the exit status, the trace, and for every
    protocol the calls of its probe and the devices of its slot. *)
Definition observe (r : option (Z * state))
  : option (Z * list event
            * list (scan_type * list probe_call * list device_info)) :=
  match r with
  | None => None
  | Some (code, st) =>
      Some (code, trace st,
            map (fun t => (t, calls st t, device_list (dev st t))) all_types)
  end.

(** The calls and the devices of one protocol at the end of a run. *)
Definition observe_slot (t : scan_type) (r : option (Z * state))
  : option (list probe_call * list device_info) :=
  match r with
  | None => None
  | Some (_, st) => Some (calls st t, device_list (dev st t))
  end.

(** The number of threads at the end of a run, and the numbers handed to
    [sem_init]. *)
Definition observe_threads (r : option (Z * state)) : option (Z * list Z) :=
  match r with
  | None => None
  | Some (_, st) =>
      Some (max_threads st,
            omap (fun e => match e with SemInit v => Some v | _ => None end)
              (trace st))
  end.

(** The lines written to the error stream in a run. *)
Definition observe_stderr (r : option (Z * state)) : option (list string) :=
  match r with
  | None => None
  | Some (_, st) =>
      Some (omap (fun e => match e with Stderr m => Some m | _ => None end)
              (trace st))
  end.

(** The registry after -s 10.0.0.1 -s 10.0.0.2 and the last flush. *)
Definition two_ranges_state : state :=
  state_before_dispatch sample_env [Opt_s "10.0.0.1"; Opt_s "10.0.0.2"; Opt_S].

Definition two_ranges : list (option string * option string) :=
  [ (Some "10.0.0.1", Some "10.0.0.1"); (Some "10.0.0.2", Some "10.0.0.2") ].

(** * Further views of the run *)

(** ** Calls of add_ip_range, one after the other *)

(** The range that a call of [add_ip_range] records: none when both
    addresses are NULL, and an address that is NULL taken from the other. *)
Definition recorded_range (c : option string * option string)
  : option (option string * option string) :=
  match c with
  | (None, None) => None
  | (s, e) => Some (from_option Some e s, from_option Some s e)
  end.

(** The state after the calls [cs] of [add_ip_range], in their order. *)
Definition add_ip_ranges (cs : list (option string * option string))
  (st : state) : state :=
  fold_left (fun st c => (add_ip_range c.1 c.2 st).2) cs st.

(** Both addresses of a range are there. *)
Definition both_present (r : option string * option string) : Prop :=
  is_Some r.1 /\ is_Some r.2.


(** ** How the option loop is left *)

(** The option at which the second option loop leaves [main], if any. *)
Fixpoint leaving_option (opts : list cli_opt) (st : state) : option cli_opt :=
  match opts with
  | [] => None
  | o :: opts' =>
      match process_option o st with
      | Continue st' => leaving_option opts' st'
      | Return _ _ => Some o
      end
  end.

Definition is_Opt_unknown (o : cli_opt) : bool :=
  match o with
  | Opt_unknown => true
  | _ => false
  end.

(** The state that the option loop passes on or leaves with. *)
Definition flow_state (f : flow) : state :=
  match f with
  | Continue st => st
  | Return _ st => st
  end.

(** The options that print and leave without any error: -h, -V and -a. *)
Definition is_informational (o : cli_opt) : bool :=
  match o with
  | Opt_h | Opt_V | Opt_a => true
  | _ => false
  end.

(** The events of the option loop: lines of the log and of the two output
    streams, and the usage text. *)
Definition option_event (e : event) : Prop :=
  match e with
  | Debug _ _ | Stderr _ | Stdout _ | Usage => True
  | _ => False
  end.

(** An extension of the trace by events of the option loop. *)
Definition option_events (st st' : state) : Prop :=
  exists evs, trace st' = trace st ++ evs /\ Forall option_event evs.

(** The name under which -a lists a bus. *)
Definition listing_name (t : scan_type) : string :=
  match t with
  | TYPE_USB => "USB"
  | TYPE_SNMP => "SNMP"
  | TYPE_XML => "XML"
  | TYPE_NUT => "OLDNUT"
  | TYPE_AVAHI => "AVAHI"
  | TYPE_IPMI => "IPMI"
  | TYPE_EATON_SERIAL => "EATON_SERIAL"
  | TYPE_NUT_SIMULATION => EmptyString
  end.

(** The buses that -a lists when their capability was found, in the order
    of the listing. *)
Definition listed_if_avail : list scan_type :=
  [TYPE_USB; TYPE_SNMP; TYPE_XML; TYPE_AVAHI; TYPE_IPMI].

(** ** What the options select *)

(** The formatter that the options -Q, -N and -P select: the one of the
    last of them, and the one with the sanity check when there is none. *)
Definition selected_display (opts : list cli_opt) : display_fn :=
  fold_left
    (fun f o =>
       match o with
       | Opt_Q => nutscan_display_ups_conf_with_sanity_check
       | Opt_N => nutscan_display_ups_conf
       | Opt_P => nutscan_display_parsable
       | _ => f
       end)
    opts nutscan_display_ups_conf_with_sanity_check.

(** The list of serial ports of the last -E option. *)
Definition last_serial_ports (opts : list cli_opt) : option string :=
  fold_left
    (fun p o => match o with Opt_E optarg => Some optarg | _ => p end)
    opts None.

Definition is_Opt_q (o : cli_opt) : bool :=
  match o with
  | Opt_q => true
  | _ => false
  end.

(** The options that the USB probe is given after [n] options -U: the
    lowest level of detail for none or one, one level more for each further
    one, up to the fourth. *)
Definition usb_detail (n : nat) : nutscan_usb_t :=
  match n with
  | 0%nat | 1%nat => UsbOpts 0 0 0 0
  | 2%nat => UsbOpts 1 1 0 0
  | 3%nat => UsbOpts 1 1 1 0
  | _ => UsbOpts 1 1 1 1
  end.

(** The value of -T is one that [strtol] returns: a [long]. *)
Definition long_option (o : cli_opt) : Prop :=
  match o with
  | Opt_T val _ => - 2 ^ 63 <= val < 2 ^ 63
  | _ => True
  end.

(** The numbers handed to [sem_init] along a trace. *)
Definition sem_init_values (tr : list event) : list Z :=
  omap (fun e => match e with SemInit v => Some v | _ => None end) tr.

Definition is_join (e : event) : bool :=
  match e with
  | PthreadJoin _ => true
  | _ => false
  end.

Definition is_create (e : event) : bool :=
  match e with
  | PthreadCreate _ _ => true
  | _ => false
  end.

(** * Options that the scan orchestration hands on *)

(** ** The option -t *)

(** Conversion to [useconds_t], the type of [timeout]: an unsigned type of
    32 bits (as in glibc, the BSDs and macOS). *)
Definition to_useconds_t (z : Z) : Z := z mod 2 ^ 32.

Definition timeout_warning : string :=
  "Illegal timeout value, using default %ds".

(** case 't': the new value of [timeout] and what is printed, for the value
    that [atol(optarg)] returns and for the constant DEFAULT_NETWORK_TIMEOUT
    of nut-scan.h.
      timeout = (useconds_t)atol(optarg) * 1000 * 1000;
      if (timeout <= 0) { fprintf(stderr, ...);
                           timeout = DEFAULT_NETWORK_TIMEOUT * 1000 * 1000; }
    The cast comes first, so both products are taken in [useconds_t]. *)
Definition set_timeout (DEFAULT_NETWORK_TIMEOUT atol_optarg : Z)
  : Z * list event :=
  let timeout :=
    to_useconds_t (to_useconds_t (to_useconds_t atol_optarg * 1000) * 1000) in
  if decide (timeout <= 0)
  then (to_useconds_t (DEFAULT_NETWORK_TIMEOUT * 1000 * 1000),
        [Stderr timeout_warning])
  else (timeout, []).

(** ** The option -m *)

(** The loop that counts the bits of a netmask, for a byte or a word [i]
    that is not negative:
      while (i) { masklen += i & 1; i >>= 1; }
    [fuel] bounds the number of turns; the result is [None] when the loop
    does not end within [fuel] turns. *)
Fixpoint count_bits (fuel : nat) (i masklen : Z) : option Z :=
  if decide (i = 0) then Some masklen
  else
    match fuel with
    | O => None
    | S fuel' => count_bits fuel' (Z.shiftr i 1) (masklen + Z.land i 1)
    end.

(** Conversion to [uint8_t]. *)
Definition to_uint8 (z : Z) : Z := z mod 2 ^ 8.

(** AF_INET: i = sm.sin_addr.s_addr; masklen = 0; and the loop, on an
    [in_addr_t] of 32 bits. *)
Definition masklen_inet (s_addr : Z) : option Z :=
  count_bits 32 (to_uint s_addr) 0.

(** AF_INET6: masklen = 0; for (j = 0; j < 16; j++) { i = s6_addr[j]; and
    the loop }, on the bytes of [s6_addr], [i] being a [uint8_t]. *)
Definition masklen_inet6 (s6_addr : list Z) : option Z :=
  foldl (fun masklen byte => masklen ≫= count_bits 8 (to_uint8 byte))
    (Some 0) s6_addr.

(** What [main] reads of the address of an interface: its family, the text
    of the address ([inet_ntoa], or [getnameinfo] with NI_NUMERICHOST), and
    the netmask as the family has it, a word [s_addr] or the bytes
    [s6_addr]. *)
Inductive sockaddr :=
| sockaddr_in (numeric_host : string) (netmask_s_addr : Z)
| sockaddr_in6 (numeric_host : string) (netmask_s6_addr : list Z)
| sockaddr_other.

(** What [main] reads of a [struct ifaddrs]: the address, NULL or not, and
    the four flags that it tests. *)
Record ifaddrs := IfAddrs {
  ifa_addr : option sockaddr;
  IFF_LOOPBACK : bool;
  IFF_UP : bool;
  IFF_RUNNING : bool;
  IFF_BROADCAST : bool
}.

(** What the option -m takes from outside: the conversion of a CIDR to the
    two addresses of a range by the scanning library (either may be NULL),
    and the interfaces that [getifaddrs] lists ([None] when it fails). *)
Record net_environment := NetEnvironment {
  nutscan_cidr_to_ip : string -> option string * option string;
  getifaddrs : option (list ifaddrs)
}.

(** "%i" for a mask length. *)
Definition decimal (z : Z) : string :=
  DecimalString.NilZero.string_of_int (Z.to_int z).

(** nutscan_cidr_to_ip(cidr, &start_ip, &end_ip); add_ip_range(start_ip,
    end_ip); start_ip = NULL; end_ip = NULL; with the two debug lines. *)
Definition add_cidr (net : net_environment) (cidr : string) (st : state)
  : state :=
  let st := upsdebugx 5 "Processing CIDR net/mask: %s" st in
  let '(s, e) := nutscan_cidr_to_ip net cidr in
  let st :=
    upsdebugx 5 "Extracted IP address range from CIDR net/mask: %s => %s" st in
  flush_range (set_pending s e st).

(** The test on the flags and on the family that was asked for. *)
Definition interface_wanted (auto_nets : Z) (is_inet6 : bool) (ifa : ifaddrs)
  : bool :=
  negb (IFF_LOOPBACK ifa) && IFF_UP ifa && IFF_RUNNING ifa && IFF_BROADCAST ifa
  && (bool_decide (auto_nets = 46)
      || (bool_decide (auto_nets = 4) && negb is_inet6)
      || (bool_decide (auto_nets = 6) && is_inet6)).

(** One turn of the loop over the interfaces. *)
Definition scan_interface (net : net_environment) (auto_nets : Z)
  (ifa : ifaddrs) (st : state) : option state :=
  match ifa_addr ifa with
  | None => Some st
  | Some sockaddr_other => Some st
  | Some (sockaddr_in6 addr netmask) =>
      masklen ← masklen_inet6 netmask;
      let st := upsdebugx 5 "Discovering getifaddrs(): %s" st in
      if interface_wanted auto_nets true ifa
      then Some (add_cidr net (addr +:+ "/" +:+ decimal masklen) st)
      else Some st
  | Some (sockaddr_in addr netmask) =>
      masklen ← masklen_inet netmask;
      let st := upsdebugx 5 "Discovering getifaddrs(): %s" st in
      if interface_wanted auto_nets false ifa
      then Some (add_cidr net (addr +:+ "/" +:+ decimal masklen) st)
      else Some st
  end.

(** for (ifa = ifap; ifa; ifa = ifa->ifa_next) *)
Fixpoint scan_interfaces (net : net_environment) (auto_nets : Z)
  (ifap : list ifaddrs) (st : state) : option state :=
  match ifap with
  | [] => Some st
  | ifa :: ifap' =>
      st ← scan_interface net auto_nets ifa st;
      scan_interfaces net auto_nets ifap' st
  end.

(** Where [case 'm'] goes: on to the next option, with the local
    [auto_nets], or out of the program through [fatalx]. *)
Inductive m_flow :=
| M_continue (auto_nets : Z) (st : state)
| M_fatal (st : state).

Definition duplicate_auto_warning : string :=
  "Duplicate request for connected subnet scan ignored".

(** case 'm' of the option loop, for the local [auto_nets]. *)
Definition process_m (net : net_environment) (optarg : string)
  (auto_nets : Z) (st : state) : option m_flow :=
  let st := flush_pending st in
  if bool_decide (optarg = "auto") || bool_decide (optarg = "auto4")
     || bool_decide (optarg = "auto6")
  then
    if decide (auto_nets <> 0)
    then Some (M_continue auto_nets (emit (Stderr duplicate_auto_warning) st))
    else
      let auto_nets :=
        if bool_decide (optarg = "auto") then 46
        else if bool_decide (optarg = "auto4") then 4
        else if bool_decide (optarg = "auto6") then 6
        else auto_nets in
      match getifaddrs net with
      | None =>
          Some (M_fatal
                  (emit (Stderr "Failed to getifaddrs() for connected subnet scan: %s") st))
      | Some ifap =>
          st ← scan_interfaces net auto_nets ifap st;
          Some (M_continue auto_nets st)
      end
  else Some (M_continue auto_nets (add_cidr net optarg st)).

(** The number of bits set among the [w] lowest bits of [i]. *)
Definition bits_set (w : nat) (i : Z) : Z :=
  Z.of_nat (length (List.filter (Z.testbit i) (map Z.of_nat (seq 0 w)))).

(** The bytes of the netmask of a prefix of [n] bits, in the order of the
    address: bytes of ones, one byte that is partly set, bytes of zeros. *)
Definition prefix_mask (bytes : nat) (n : Z) : list Z :=
  map (fun j =>
         let k := n - 8 * Z.of_nat j in
         if decide (8 <= k) then 255
         else if decide (k <= 0) then 0
         else 256 - 2 ^ (8 - k))
    (seq 0 bytes).

(** The word of four bytes in memory, the first byte lowest (little
    endian), or highest (big endian). *)
Definition word_le (bs : list Z) : Z :=
  foldr (fun b w => b + 256 * w) 0 bs.

Definition word_be (bs : list Z) : Z := word_le (rev bs).

(** The CIDR that [main] builds for an interface: the text of its address,
    and the number of bits set in its netmask. *)
Definition interface_cidr (sa : sockaddr) : option string :=
  match sa with
  | sockaddr_in addr netmask =>
      Some (addr +:+ "/" +:+ decimal (bits_set 32 (to_uint netmask)))
  | sockaddr_in6 addr netmask =>
      Some (addr +:+ "/"
            +:+ decimal (foldr Z.add 0 (map (fun b => bits_set 8 (to_uint8 b))
                                           netmask)))
  | sockaddr_other => None
  end.

(** The interfaces that -m auto, auto4 or auto6 takes a range from: those
    with an address of a family that was asked for, that are up, running
    and able to broadcast, and are not the loopback; with their CIDR. *)
Definition wanted_cidr (auto_nets : Z) (ifa : ifaddrs) : option string :=
  match ifa_addr ifa with
  | Some (sockaddr_in addr netmask) =>
      if interface_wanted auto_nets false ifa
      then interface_cidr (sockaddr_in addr netmask) else None
  | Some (sockaddr_in6 addr netmask) =>
      if interface_wanted auto_nets true ifa
      then interface_cidr (sockaddr_in6 addr netmask) else None
  | _ => None
  end.

(** The state with which [case 'm'] ends. *)
Definition m_flow_state (f : m_flow) : state :=
  match f with
  | M_continue _ st => st
  | M_fatal st => st
  end.

(** The value that a first -m auto, auto4 or auto6 gives to [auto_nets]. *)
Definition auto_nets_of (optarg : string) : Z :=
  if bool_decide (optarg = "auto") then 46
  else if bool_decide (optarg = "auto4") then 4
  else 6.

(** The range that -m auto, auto4 or auto6 records for an interface. *)
Definition interface_range (net : net_environment) (auto_nets : Z)
  (ifa : ifaddrs) : option (option string * option string) :=
  wanted_cidr auto_nets ifa ≫= fun cidr =>
  recorded_range (nutscan_cidr_to_ip net cidr).

(** The range that a pending -s or -e is recorded as. *)
Definition pending_range (st : state)
  : list (option string * option string) :=
  option_list (recorded_range (pend_start_ip st, pend_end_ip st)).

(** ** The IPMI options -b, -B, -d and -L *)

(** The constants of nut-scan.h that [main] stores, as names. *)
Inductive ipmi_authentication_type :=
| IPMI_AUTHENTICATION_TYPE_NONE
| IPMI_AUTHENTICATION_TYPE_STRAIGHT_PASSWORD_KEY
| IPMI_AUTHENTICATION_TYPE_MD2
| IPMI_AUTHENTICATION_TYPE_MD5.

Inductive ipmi_version_id :=
| IPMI_1_5
| IPMI_2_0.

Inductive ipmi_privilege_level :=
| IPMI_PRIVILEGE_LEVEL_ADMIN.

(** The fields of [ipmi_sec] that [main] writes. *)
Record nutscan_ipmi := NutscanIpmi {
  username : option string;
  password : option string;
  authentication_type : ipmi_authentication_type;
  cipher_suite_id : Z;
  ipmi_version : ipmi_version_id;
  privilege_level : ipmi_privilege_level
}.

(** memset(&ipmi_sec, 0, sizeof(ipmi_sec)); and the default values. *)
Definition default_ipmi_sec : nutscan_ipmi :=
  NutscanIpmi None None IPMI_AUTHENTICATION_TYPE_MD5 3 IPMI_1_5
    IPMI_PRIVILEGE_LEVEL_ADMIN.

(** An IPMI option with its argument; for -L, with what [atoi] makes of
    it. *)
Inductive ipmi_opt :=
| Ipmi_b (optarg : string)
| Ipmi_B (optarg : string)
| Ipmi_d (optarg : string)
| Ipmi_L (atoi_optarg : Z).

(** Where an IPMI option goes: on to the next option, with [ipmi_sec] and
    what was printed, or to the label [display_help]. *)
Inductive ipmi_flow :=
| Ipmi_continue (sec : nutscan_ipmi) (out : list event)
| Ipmi_display_help.

Definition unknown_authentication_warning : string :=
  "Unknown authentication type (%s). Defaulting to MD5".

(** case 'b', 'B', 'd' and 'L' of the option loop. *)
Definition process_ipmi_option (nutscan_avail_ipmi : bool) (o : ipmi_opt)
  (sec : nutscan_ipmi) : ipmi_flow :=
  if negb nutscan_avail_ipmi then Ipmi_display_help
  else
    match o with
    | Ipmi_b optarg =>
        Ipmi_continue
          (NutscanIpmi (Some optarg) (password sec) (authentication_type sec)
             (cipher_suite_id sec) (ipmi_version sec) (privilege_level sec))
          []
    | Ipmi_B optarg =>
        Ipmi_continue
          (NutscanIpmi (username sec) (Some optarg) (authentication_type sec)
             (cipher_suite_id sec) (ipmi_version sec) (privilege_level sec))
          []
    | Ipmi_d optarg =>
        let set a :=
          Ipmi_continue
            (NutscanIpmi (username sec) (password sec) a
               (cipher_suite_id sec) (ipmi_version sec) (privilege_level sec))
            [] in
        if bool_decide (optarg = "NONE")
        then set IPMI_AUTHENTICATION_TYPE_NONE
        else if bool_decide (optarg = "STRAIGHT_PASSWORD_KEY")
        then set IPMI_AUTHENTICATION_TYPE_STRAIGHT_PASSWORD_KEY
        else if bool_decide (optarg = "MD2")
        then set IPMI_AUTHENTICATION_TYPE_MD2
        else if bool_decide (optarg = "MD5")
        then set IPMI_AUTHENTICATION_TYPE_MD5
        else Ipmi_continue sec [Stderr unknown_authentication_warning]
    | Ipmi_L atoi_optarg =>
        Ipmi_continue
          (NutscanIpmi (username sec) (password sec) (authentication_type sec)
             atoi_optarg IPMI_2_0 (privilege_level sec))
          []
    end.

(** The option loop over IPMI options. *)
Fixpoint process_ipmi_options (nutscan_avail_ipmi : bool)
  (opts : list ipmi_opt) (sec : nutscan_ipmi) (out : list event)
  : ipmi_flow :=
  match opts with
  | [] => Ipmi_continue sec out
  | o :: opts' =>
      match process_ipmi_option nutscan_avail_ipmi o sec with
      | Ipmi_display_help => Ipmi_display_help
      | Ipmi_continue sec' out' =>
          process_ipmi_options nutscan_avail_ipmi opts' sec' (out ++ out')
      end
  end.

(** The authentication type that a name stands for. *)
Definition authentication_type_of_name (name : string)
  : option ipmi_authentication_type :=
  if bool_decide (name = "NONE") then Some IPMI_AUTHENTICATION_TYPE_NONE
  else if bool_decide (name = "STRAIGHT_PASSWORD_KEY")
  then Some IPMI_AUTHENTICATION_TYPE_STRAIGHT_PASSWORD_KEY
  else if bool_decide (name = "MD2") then Some IPMI_AUTHENTICATION_TYPE_MD2
  else if bool_decide (name = "MD5") then Some IPMI_AUTHENTICATION_TYPE_MD5
  else None.

(** What an option asks for, for each of the settings. *)
Definition asked_username (o : ipmi_opt) : option string :=
  match o with Ipmi_b a => Some a | _ => None end.

Definition asked_password (o : ipmi_opt) : option string :=
  match o with Ipmi_B a => Some a | _ => None end.

Definition asked_authentication (o : ipmi_opt)
  : option ipmi_authentication_type :=
  match o with Ipmi_d a => authentication_type_of_name a | _ => None end.

Definition asked_cipher_suite (o : ipmi_opt) : option Z :=
  match o with Ipmi_L v => Some v | _ => None end.

(** The warning that an option is answered with. *)
Definition authentication_warning (o : ipmi_opt) : option event :=
  match o with
  | Ipmi_d a =>
      match authentication_type_of_name a with
      | Some _ => None
      | None => Some (Stderr unknown_authentication_warning)
      end
  | _ => None
  end.

(** * The registry in memory *)

(** The registry once more, with the addresses as the pointers that they
    are: [strdup] and [xcalloc] allocate blocks, [add_ip_range] stores
    pointers to them, and [free_ip_ranges] releases them.  A pointer is the
    index of a block in the memory; a block that was freed is [None].  An
    operation whose behaviour is not defined (a [free] of what is not a live
    block, an access through a pointer to no node) gives [None]. *)
Module Ptr.

Inductive block :=
| Chars (s : string)
| RangeNode (start_ip end_ip next : option nat).

Abbreviation memory := (list (option block)).

(** An allocation: the pointer to the new block, and the memory. *)
Definition malloc (b : block) (m : memory) : nat * memory :=
  (length m, m ++ [Some b]).

(** free(p), for [p] not NULL. *)
Definition free (p : nat) (m : memory) : option memory :=
  match m !! p with
  | Some (Some _) => Some (<[p := None]> m)
  | _ => None
  end.

(** if (p) free(p); *)
Definition free_if (p : option nat) (m : memory) : option memory :=
  match p with
  | None => Some m
  | Some a => free a m
  end.

(** l->next = p; *)
Definition store_next (l : nat) (p : option nat) (m : memory) : option memory :=
  match m !! l with
  | Some (Some (RangeNode s e _)) => Some (<[l := Some (RangeNode s e p)]> m)
  | _ => None
  end.

(** The memory, the three file-scope variables of the registry, and the
    locals [start_ip] and [end_ip] of [main]. *)
Record state := State {
  mem : memory;
  ip_ranges : option nat;
  ip_ranges_last : option nat;
  ip_ranges_count : Z;
  pend_start_ip : option nat;
  pend_end_ip : option nat
}.

Definition initial_state : state := State [] None None 0 None None.

Definition add_ip_range (start_ip end_ip : option nat) (st : state)
  : option (Z * state) :=
  match start_ip, end_ip with
  | None, None => Some (ip_ranges_count st, st)
  | _, _ =>
      let start_ip := match start_ip with
                      | None => end_ip
                      | Some _ => start_ip
                      end in
      let end_ip := match end_ip with
                    | None => start_ip
                    | Some _ => end_ip
                    end in
      (* p = xcalloc(1, sizeof(ip_range_t)), then its three fields *)
      let '(p, m) := malloc (RangeNode start_ip end_ip None) (mem st) in
      let head := match ip_ranges st with
                  | None => Some p
                  | Some q => Some q
                  end in
      m ← match ip_ranges_last st with
          | Some l => store_next l (Some p) m
          | None => Some m
          end;
      let count := to_size_t (ip_ranges_count st + 1) in
      Some (count,
            State m head (Some p) count (pend_start_ip st) (pend_end_ip st))
  end.

(** add_ip_range(start_ip, end_ip); start_ip = NULL; end_ip = NULL; *)
Definition flush_range (st : state) : option state :=
  '(_, st) ← add_ip_range (pend_start_ip st) (pend_end_ip st) st;
  Some (State (mem st) (ip_ranges st) (ip_ranges_last st) (ip_ranges_count st)
          None None).

(** start_ip = strdup(optarg); or end_ip = strdup(optarg); *)
Definition strdup_start (optarg : string) (st : state) : state :=
  let '(p, m) := malloc (Chars optarg) (mem st) in
  State m (ip_ranges st) (ip_ranges_last st) (ip_ranges_count st)
    (Some p) (pend_end_ip st).

Definition strdup_end (optarg : string) (st : state) : state :=
  let '(p, m) := malloc (Chars optarg) (mem st) in
  State m (ip_ranges st) (ip_ranges_last st) (ip_ranges_count st)
    (pend_start_ip st) (Some p).

(** case 's' and case 'e' of the option loop. *)
Definition process_endpoint (x : endpoint_opt) (st : state) : option state :=
  match x with
  | Start optarg =>
      st ← match pend_start_ip st with
           | Some _ => flush_range st
           | None => Some st
           end;
      let st := strdup_start optarg st in
      match pend_end_ip st with
      | Some _ => flush_range st
      | None => Some st
      end
  | End optarg =>
      st ← match pend_end_ip st with
           | Some _ => flush_range st
           | None => Some st
           end;
      let st := strdup_end optarg st in
      match pend_start_ip st with
      | Some _ => flush_range st
      | None => Some st
      end
  end.

(** if (start_ip != NULL || end_ip != NULL) { ... }, after the loop. *)
Definition flush_pending (st : state) : option state :=
  match pend_start_ip st, pend_end_ip st with
  | None, None => Some st
  | _, _ => flush_range st
  end.

(** The option loop over -s and -e options, and the last flush. *)
Fixpoint record_endpoints (xs : list endpoint_opt) (st : state)
  : option state :=
  match xs with
  | [] => flush_pending st
  | x :: xs' => st ← process_endpoint x st; record_endpoints xs' st
  end.

(** Only free the strings once, if they pointed to same:
      if (p->start_ip == p->end_ip && p->start_ip) { free(p->start_ip); }
      else { if (p->start_ip) free(p->start_ip);
             if (p->end_ip) free(p->end_ip); } *)
Definition free_strings (start_ip end_ip : option nat) (m : memory)
  : option memory :=
  if decide (start_ip = end_ip /\ is_Some start_ip)
  then free_if start_ip m
  else m ← free_if start_ip m; free_if end_ip m.

(** The loop of [free_ip_ranges]:
      while (p) { ip_ranges = p->next; the strings; free(p);
                  p = ip_ranges; }
    [fuel] bounds the number of turns. *)
Fixpoint free_loop (fuel : nat) (p : option nat) (st : state) : option state :=
  match p with
  | None => Some st
  | Some a =>
      match fuel with
      | O => None
      | S fuel' =>
          match mem st !! a with
          | Some (Some (RangeNode start_ip end_ip next)) =>
              m ← free_strings start_ip end_ip (mem st);
              m ← free a m;
              free_loop fuel' next
                (State m next (ip_ranges_last st) (ip_ranges_count st)
                   (pend_start_ip st) (pend_end_ip st))
          | _ => None
          end
      end
  end.

Definition free_ip_ranges (st : state) : option state :=
  st ← free_loop (length (mem st)) (ip_ranges st) st;
  Some (State (mem st) (ip_ranges st) None 0
          (pend_start_ip st) (pend_end_ip st)).

(** The string that a pointer points to; NULL has none. *)
Definition deref (m : memory) (p : option nat) : option (option string) :=
  match p with
  | None => Some None
  | Some a =>
      match m !! a with
      | Some (Some (Chars s)) => Some (Some s)
      | _ => None
      end
  end.

(** The ranges met from [p] along the [next] pointers, by value. *)
Fixpoint walk (fuel : nat) (m : memory) (p : option nat)
  : option (list (option string * option string)) :=
  match p with
  | None => Some []
  | Some a =>
      match fuel with
      | O => None
      | S fuel' =>
          match m !! a with
          | Some (Some (RangeNode start_ip end_ip next)) =>
              s ← deref m start_ip;
              e ← deref m end_ip;
              rest ← walk fuel' m next;
              Some ((s, e) :: rest)
          | _ => None
          end
      end
  end.

Definition registry_ranges (st : state)
  : option (list (option string * option string)) :=
  walk (length (mem st)) (mem st) (ip_ranges st).

(** A node of the registry as the memory has it: the pointers to the node
    and to its two strings, and the two strings. *)
Record node_view := NodeView {
  nv_node : nat;
  nv_start : nat;
  nv_end : nat;
  nv_start_text : string;
  nv_end_text : string
}.

(** The blocks that a node owns: its strings, the string once when both
    pointers are the same, and itself. *)
Definition owned (v : node_view) : list nat :=
  nv_start v
  :: (if decide (nv_start v = nv_end v) then [] else [nv_end v])
  ++ [nv_node v].

Definition node_at (L : list node_view) (i : nat) : option nat :=
  nv_node <$> L !! i.

Definition pending_ptrs (st : state) : list nat :=
  option_list (pend_start_ip st) ++ option_list (pend_end_ip st).

Definition view_bounds (v : node_view) : option string * option string :=
  (Some (nv_start_text v), Some (nv_end_text v)).

(** The representation invariant: the nodes [L] are linked in their order
    from [ip_ranges] to [ip_ranges_last], the strings are where the nodes
    point, no block is owned twice, and every live block is owned by a node
    or is a pending string. *)
Record memory_inv (st : state) (L : list node_view) : Prop := MemoryInv {
  inv_nodes : forall i v,
    L !! i = Some v ->
    mem st !! nv_node v
    = Some (Some (RangeNode (Some (nv_start v)) (Some (nv_end v))
                    (node_at L (S i))));
  inv_start : forall v,
    v ∈ L -> mem st !! nv_start v = Some (Some (Chars (nv_start_text v)));
  inv_end : forall v,
    v ∈ L -> mem st !! nv_end v = Some (Some (Chars (nv_end_text v)));
  inv_head : ip_ranges st = node_at L 0;
  inv_last : ip_ranges_last st = nv_node <$> last L;
  inv_nodup : NoDup (concat (map owned L) ++ pending_ptrs st);
  inv_pending : forall p,
    p ∈ pending_ptrs st -> exists s, mem st !! p = Some (Some (Chars s));
  inv_cover : forall a b,
    mem st !! a = Some (Some b) ->
    a ∈ concat (map owned L) ++ pending_ptrs st
}.

(** The node for the strings at [s] and [e] is allocated and linked in:
    what [add_ip_range] does once both of its addresses are set. *)
Definition link_new (s e : nat) (st : state) : option (Z * state) :=
  let '(p, m) := malloc (RangeNode (Some s) (Some e) None) (mem st) in
  let head := match ip_ranges st with
              | None => Some p
              | Some q => Some q
              end in
  m ← match ip_ranges_last st with
      | Some l => store_next l (Some p) m
      | None => Some m
      end;
  let count := to_size_t (ip_ranges_count st + 1) in
  Some (count,
        State m head (Some p) count (pend_start_ip st) (pend_end_ip st)).

(** The state with no endpoint pending. *)
Definition clear_pending (st : state) : state :=
  State (mem st) (ip_ranges st) (ip_ranges_last st) (ip_ranges_count st)
    None None.

(** The strings of a node: one when both pointers are the same. *)
Definition strings_of (s e : nat) : list nat :=
  s :: (if decide (s = e) then [] else [e]).

(** The nodes [L] are linked in their order and their strings are live. *)
Definition linked (m : memory) (L : list node_view) : Prop :=
  (forall i v,
      L !! i = Some v ->
      m !! nv_node v
      = Some (Some (RangeNode (Some (nv_start v)) (Some (nv_end v))
                      (node_at L (S i)))))
  /\ (forall v, v ∈ L ->
        m !! nv_start v = Some (Some (Chars (nv_start_text v)))
        /\ m !! nv_end v = Some (Some (Chars (nv_end_text v)))).

(** The memory after the blocks [ps] are freed. *)
Definition freed (ps : list nat) (m : memory) : memory :=
  foldl (fun m p => <[p := None]> m) m ps.

End Ptr.

(** * Sample inputs *)

(** Four calls of [add_ip_range]: one address, none, two, one. *)
Definition sample_calls : list (option string * option string) :=
  [ (Some "10.0.0.1", None); (None, None);
    (Some "10.0.0.5", Some "10.0.0.9"); (None, Some "10.0.0.20") ].

(** The same as [sample_env], where the thread of the USB scan cannot be
    created. *)
Definition usb_fails_env : environment :=
  Environment (Some (1024, 4096)) 1024 (fun _ => true) sample_scan
    (fun t => if bool_decide (t = TYPE_USB) then 11 else 0).

(** A host with a loopback interface, an Ethernet interface with an IPv4
    and an IPv6 address, a packet socket, and an interface that is down. *)
Definition sample_interfaces : list ifaddrs :=
  [ IfAddrs (Some (sockaddr_in "127.0.0.1" 255)) true true true false;
    IfAddrs (Some sockaddr_other) false true true true;
    IfAddrs (Some (sockaddr_in "192.168.1.10" 16777215)) false true true true;
    IfAddrs (Some (sockaddr_in6 "fe80::1"
                     [255; 255; 255; 255; 255; 255; 255; 255;
                      0; 0; 0; 0; 0; 0; 0; 0]))
      false true true true;
    IfAddrs (Some (sockaddr_in "10.1.0.7" 65535)) false false false true;
    IfAddrs None false true true true ].

Definition sample_net : net_environment :=
  NetEnvironment
    (fun cidr =>
       if bool_decide (cidr = "192.168.1.10/24")
       then (Some "192.168.1.1", Some "192.168.1.254")
       else if bool_decide (cidr = "192.0.2.7/32")
       then (Some "192.0.2.7", Some "192.0.2.7")
       else (None, None))
    (Some sample_interfaces).

(** The state of [main] when -s 10.0.0.1 has just been read. *)
Definition pending_start_state : state :=
  set_pending (Some "10.0.0.1") None (initial_state sample_env).

(** Command lines of sample runs. *)


(** -U -V -S *)
Definition version_cmdline : list cli_opt :=
  [Opt_U; Opt_V; Opt_S].

(** -Q -C -P -U -N -q *)
Definition formats_cmdline : list cli_opt :=
  [Opt_Q; Opt_C; Opt_P; Opt_U; Opt_N; Opt_q].

(** -E /dev/ttyS0 -U -E /dev/ttyS1,/dev/ttyS2 *)
Definition serial_cmdline : list cli_opt :=
  [Opt_E "/dev/ttyS0"; Opt_U; Opt_E "/dev/ttyS1,/dev/ttyS2"].

(** -U -s 10.0.0.1 -S *)
Definition usb_snmp_cmdline : list cli_opt :=
  [Opt_U; Opt_s "10.0.0.1"; Opt_S].

(** -s 10.0.0.1 -S -U -E /dev/ttyS0 *)
Definition mixed_cmdline : list cli_opt :=
  [Opt_s "10.0.0.1"; Opt_S; Opt_U; Opt_E "/dev/ttyS0"].

(** -U -U -U *)
Definition usb_cmdline : list cli_opt :=
  [Opt_U; Opt_U; Opt_U].


(** -T 5000 -C *)
Definition many_threads_cmdline : list cli_opt :=
  [Opt_T 5000 EmptyString; Opt_C].

(** * Proofs *)

(** The limits of the platform, as numbers. *)
Ltac unfold_limits :=
  unfold to_size_t, to_uint, SIZE_MAX, UINT_MAX, RESERVE_FD_COUNT in *;
  change (2 ^ 64) with 18446744073709551616 in *;
  change (2 ^ 63) with 9223372036854775808 in *;
  change (2 ^ 32) with 4294967296 in *.

Ltac limits := unfold_limits; repeat split; try done; lia.

(** ** The registry *)

Lemma node_ptr_lt n i : (i < n)%nat -> node_ptr n i = Some i.
Proof. intros H. unfold node_ptr. case_decide; [done | lia]. Qed.

Lemma node_ptr_ge n i : (n <= i)%nat -> node_ptr n i = None.
Proof. intros H. unfold node_ptr. case_decide; [lia | done]. Qed.

(** Along a heap whose nodes are linked in order, the walk from node [i]
    meets the nodes from [i] on. *)
Lemma walk_linked (h : list ip_range_t) :
  (forall i node, h !! i = Some node -> next node = node_ptr (length h) (S i)) ->
  forall fuel i,
    (length h <= i + fuel)%nat ->
    walk fuel h (node_ptr (length h) i) = Some (map range_of (drop i h)).
Proof.
  intros Hnext fuel. induction fuel as [|fuel IH]; intros i Hi.
  - rewrite node_ptr_ge by lia. rewrite drop_ge by lia. reflexivity.
  - destruct (decide (i < length h)%nat) as [Hlt|Hge].
    + rewrite node_ptr_lt by done. simpl.
      destruct (lookup_lt_is_Some_2 h i Hlt) as [node Hnode].
      rewrite Hnode, (Hnext _ _ Hnode), IH by lia.
      rewrite (drop_S _ _ _ Hnode). reflexivity.
    + rewrite node_ptr_ge by lia. rewrite drop_ge by lia. reflexivity.
Qed.

Lemma registry_ranges_wf r :
  reg_wf r -> registry_ranges r = Some (map range_of (heap r)).
Proof.
  intros [Hnext Hhead _ _]. unfold registry_ranges. rewrite Hhead.
  rewrite (walk_linked _ Hnext) by lia. reflexivity.
Qed.

Lemma empty_registry_wf : reg_wf empty_registry.
Proof. split; done. Qed.

Lemma map_range_of_alter p l (h : list ip_range_t) :
  map range_of (alter (set_next p) l h) = map range_of h.
Proof.
  apply list_eq. intros i.
  rewrite !list_lookup_fmap, list_lookup_alter.
  case_decide; [subst|done].
  destruct (h !! _); reflexivity.
Qed.

Lemma link_new_heap s e r :
  map range_of (heap (link_new s e r)) = map range_of (heap r) ++ [(s, e)]
  /\ length (heap (link_new s e r)) = S (length (heap r)).
Proof.
  unfold link_new; simpl. destruct (ip_ranges_last r) as [l|].
  - rewrite map_range_of_alter, length_alter, map_app, length_app.
    simpl. split; [done | lia].
  - rewrite map_app, length_app. simpl. split; [done | lia].
Qed.

Lemma link_new_wf s e r : reg_wf r -> reg_wf (link_new s e r).
Proof.
  intros Hwf.
  destruct (link_new_heap s e r) as [_ Hlength].
  destruct Hwf as [Hnext Hhead Hlast Hcount].
  split.
  - rewrite Hlength. intros i node.
    unfold link_new; simpl. rewrite Hlast.
    destruct (heap r) as [|x h'] eqn:Hh.
    + simpl. destruct i; [|done]. intros [= <-]. reflexivity.
    + rewrite <- Hh in *.
      assert (0 < length (heap r))%nat by (rewrite Hh; simpl; lia).
      rewrite list_lookup_alter. case_decide as Hi.
      * subst i. rewrite lookup_app_l by lia.
        destruct (heap r !! _) as [nd|] eqn:Hnd; [|done].
        intros [= <-]. simpl. rewrite node_ptr_lt by lia. f_equal. lia.
      * destruct (decide (i < length (heap r))%nat).
        -- rewrite lookup_app_l by lia. intros Hnd.
           rewrite (Hnext _ _ Hnd), !node_ptr_lt by lia. reflexivity.
        -- rewrite lookup_app_r by lia. intros Hnd.
           apply list_lookup_singleton_Some in Hnd as [Hi' <-].
           simpl. rewrite node_ptr_ge by lia. reflexivity.
  - rewrite Hlength. unfold link_new; simpl. rewrite Hhead.
    unfold node_ptr. repeat case_decide; try done; try lia. f_equal. lia.
  - pose proof Hlength as Hlength'. revert Hlength'. rewrite Hlength.
    destruct (heap (link_new s e r)); [done|]. intros _. reflexivity.
  - rewrite Hlength. unfold link_new; simpl. rewrite Hcount.
    unfold to_size_t. rewrite Z.add_mod_idemp_l by lia. f_equal. lia.
Qed.

Lemma link_new_ranges s e r rs :
  reg_wf r -> registry_ranges r = Some rs ->
  registry_ranges (link_new s e r) = Some (rs ++ [(s, e)]).
Proof.
  intros Hwf Hrs. rewrite (registry_ranges_wf _ Hwf) in Hrs.
  injection Hrs as <-.
  rewrite (registry_ranges_wf _ (link_new_wf s e r Hwf)).
  f_equal. apply link_new_heap.
Qed.

(** The endpoints that [add_ip_range] stores: an absent one is taken from
    the other. *)
Lemma add_ip_range_reg s e st :
  is_Some s \/ is_Some e ->
  reg (add_ip_range s e st).2
  = link_new (from_option Some e s) (from_option Some s e) (reg st)
  /\ (add_ip_range s e st).1
    = ip_ranges_count (link_new (from_option Some e s) (from_option Some s e) (reg st)).
Proof.
  intros [[x ->]|[x ->]]; [destruct e | destruct s]; split; reflexivity.
Qed.

Lemma add_ip_range_wf s e st :
  reg_wf (reg st) -> reg_wf (reg (add_ip_range s e st).2).
Proof.
  intros Hwf. destruct s as [x|] eqn:Hs; [|destruct e as [y|] eqn:He].
  - rewrite (proj1 (add_ip_range_reg (Some x) e st (or_introl (mk_is_Some _ _ eq_refl)))).
    by apply link_new_wf.
  - rewrite (proj1 (add_ip_range_reg None (Some y) st (or_intror (mk_is_Some _ _ eq_refl)))).
    by apply link_new_wf.
  - exact Hwf.
Qed.

(** C8.  For every address X and every well-formed registry, [add_ip_range]
    called with X as its only endpoint, the start or the end, links in one
    range whose start and end are both X, after the ranges recorded before
    and in their order, and returns the count plus one, which is the new
    [ip_ranges_count]. *)
Theorem add_ip_range_single_endpoint
  (X : string) (start_ip end_ip : option string) (st : state)
  (rs : list (option string * option string)) :
  reg_wf (reg st) ->
  registry_ranges (reg st) = Some rs ->
  ip_ranges_count (reg st) < SIZE_MAX ->
  (start_ip = Some X /\ end_ip = None) \/ (start_ip = None /\ end_ip = Some X) ->
  registry_ranges (reg (add_ip_range start_ip end_ip st).2)
  = Some (rs ++ [(Some X, Some X)])
  /\ (add_ip_range start_ip end_ip st).1 = ip_ranges_count (reg st) + 1
  /\ ip_ranges_count (reg (add_ip_range start_ip end_ip st).2)
     = ip_ranges_count (reg st) + 1
  /\ reg_wf (reg (add_ip_range start_ip end_ip st).2).
Proof.
  intros Hwf Hrs Hcount Hends.
  assert (Hsome : is_Some start_ip \/ is_Some end_ip)
    by (destruct Hends as [[-> ->]|[-> ->]]; eauto).
  destruct (add_ip_range_reg start_ip end_ip st Hsome) as [Hreg Hret].
  assert (Hfst : from_option Some end_ip start_ip = Some X)
    by (destruct Hends as [[-> ->]|[-> ->]]; reflexivity).
  assert (Hsnd : from_option Some start_ip end_ip = Some X)
    by (destruct Hends as [[-> ->]|[-> ->]]; reflexivity).
  rewrite Hfst, Hsnd in Hreg, Hret.
  assert (Hnew : ip_ranges_count (link_new (Some X) (Some X) (reg st))
                 = ip_ranges_count (reg st) + 1).
  { simpl. pose proof (wf_count _ Hwf) as Hc. revert Hcount.
    rewrite Hc. unfold_limits. intros Hcount.
    pose proof (Z.mod_pos_bound (Z.of_nat (length (heap (reg st))))
                  18446744073709551616 ltac:(lia)).
    rewrite (Z.mod_small (_ + 1)); lia. }
  rewrite Hreg, Hret. split; [|split; [|split]].
  - by apply link_new_ranges.
  - exact Hnew.
  - exact Hnew.
  - by apply link_new_wf.
Qed.

(** C9.  [add_ip_range] called without any endpoint returns the current
    count and leaves the registry as it is: its heap, its three variables
    and so its ranges; all it does is log that the call was skipped. *)
Theorem add_ip_range_no_endpoint (st : state) :
  add_ip_range None None st
  = (ip_ranges_count (reg st),
     upsdebugx 5 "%s: skip, no addresses were provided" st)
  /\ reg (add_ip_range None None st).2 = reg st
  /\ registry_ranges (reg (add_ip_range None None st).2)
     = registry_ranges (reg st)
  /\ ip_ranges_count (reg (add_ip_range None None st).2)
     = ip_ranges_count (reg st).
Proof. repeat split. Qed.

(** ** The option loop and the registry *)

Lemma flush_range_reg st :
  is_Some (pend_start_ip st) \/ is_Some (pend_end_ip st) ->
  reg (flush_range st)
  = link_new (from_option Some (pend_end_ip st) (pend_start_ip st))
      (from_option Some (pend_start_ip st) (pend_end_ip st)) (reg st).
Proof.
  intros H. unfold flush_range.
  pose proof (proj1 (add_ip_range_reg _ _ st H)) as Hreg.
  destruct (add_ip_range _ _ st) as [n st']. exact Hreg.
Qed.

Lemma flush_range_wf st : reg_wf (reg st) -> reg_wf (reg (flush_range st)).
Proof.
  intros H. unfold flush_range.
  pose proof (add_ip_range_wf (pend_start_ip st) (pend_end_ip st) st H) as Hwf.
  destruct (add_ip_range _ _ st) as [n st']. exact Hwf.
Qed.

Lemma flush_range_pending st :
  pend_start_ip (flush_range st) = None /\ pend_end_ip (flush_range st) = None.
Proof.
  unfold flush_range. destruct (add_ip_range _ _ st) as [n st']. done.
Qed.

Lemma flush_pending_wf st : reg_wf (reg st) -> reg_wf (reg (flush_pending st)).
Proof.
  intros H. unfold flush_pending.
  destruct (pend_start_ip st), (pend_end_ip st); auto using flush_range_wf.
Qed.

Lemma process_option_reg o st st' :
  is_endpoint_opt o = false ->
  process_option o st = Continue st' ->
  reg st' = reg st
  /\ pend_start_ip st' = pend_start_ip st
  /\ pend_end_ip st' = pend_end_ip st.
Proof.
  intros Ho. destruct o; try discriminate Ho; simpl;
    unfold allow_if_avail, display_help;
    repeat case_decide; repeat case_match;
    try discriminate; intros [= <-]; try done.
  unfold constrain_to_nofile. simpl. case_decide; done.
Qed.

Lemma process_option_wf o st st' :
  reg_wf (reg st) -> process_option o st = Continue st' -> reg_wf (reg st').
Proof.
  intros Hwf Hstep. destruct (is_endpoint_opt o) eqn:Ho.
  - destruct o; try discriminate Ho;
      injection Hstep as <-; cbv zeta;
      repeat case_match;
      repeat first [ exact Hwf | apply flush_range_wf
                   | change (reg (set_pending ?a ?b ?s)) with (reg s) ].
  - destruct (process_option_reg o st st' Ho Hstep) as (-> & _). exact Hwf.
Qed.

Lemma parse_options_wf opts st st' :
  reg_wf (reg st) -> parse_options opts st = Continue st' -> reg_wf (reg st').
Proof.
  revert st. induction opts as [|o opts IH]; intros st Hwf; simpl.
  - intros [= <-]. exact Hwf.
  - destruct (process_option o st) as [st1|] eqn:Hstep; [|discriminate].
    apply IH. eapply process_option_wf; eauto.
Qed.

#[local] Arguments flush_range : simpl never.
#[local] Arguments add_ip_range : simpl never.
#[local] Arguments link_new : simpl never.

Lemma flush_range_ranges st rs :
  reg_wf (reg st) ->
  registry_ranges (reg st) = Some rs ->
  is_Some (pend_start_ip st) \/ is_Some (pend_end_ip st) ->
  registry_ranges (reg (flush_range st))
  = Some (rs ++ [(from_option Some (pend_end_ip st) (pend_start_ip st),
                  from_option Some (pend_start_ip st) (pend_end_ip st))]).
Proof.
  intros Hwf Hrs Hsome. rewrite (flush_range_reg st Hsome).
  by apply link_new_ranges.
Qed.

(** The option loop on -s and -e options follows the pairing of the spec:
    from a state whose two locals hold the pending endpoint, it ends without
    leaving, and the last flush leaves in the registry the ranges it held
    followed by the implied ranges. *)
Lemma endpoint_options_refine xs :
  forall st pending rs,
    reg_wf (reg st) ->
    registry_ranges (reg st) = Some rs ->
    pend_start_ip st = (pending_slots pending).1 ->
    pend_end_ip st = (pending_slots pending).2 ->
    exists st',
      parse_options (map cli_of xs) st = Continue st'
      /\ registry_ranges (reg (flush_pending st'))
         = Some (rs ++ map implied_bounds (implied_ranges pending xs)).
Proof.
  induction xs as [|x xs IH]; intros st pending rs Hwf Hrs Hps Hpe.
  - exists st. split; [reflexivity|]. unfold flush_pending.
    destruct pending as [[a|a]|]; simpl in *; rewrite ?Hps, ?Hpe; simpl.
    + rewrite (flush_range_ranges st rs Hwf Hrs) by (rewrite Hps; eauto).
      rewrite Hps, Hpe. reflexivity.
    + rewrite (flush_range_ranges st rs Hwf Hrs) by (rewrite Hpe; eauto).
      rewrite Hps, Hpe. reflexivity.
    + by rewrite app_nil_r.
  - destruct pending as [[a|a]|], x as [b|b]; simpl in Hps, Hpe;
      simpl parse_options; unfold process_option; cbv zeta;
      repeat (rewrite ?Hps, ?Hpe, ?(proj1 (flush_range_pending _)),
                ?(proj2 (flush_range_pending _));
              simpl pend_end_ip; simpl pend_start_ip).
    + (* a start is pending, a start arrives *)
      edestruct (IH (set_pending (Some b) None (flush_range st))
                   (Some (Start b)) (rs ++ [(Some a, Some a)]))
        as (st' & Hrun & Hres); try reflexivity.
      * apply flush_range_wf, Hwf.
      * change (reg (set_pending ?u ?v ?s)) with (reg s).
        rewrite (flush_range_ranges st rs Hwf Hrs) by (rewrite Hps; eauto).
        rewrite Hps, Hpe. reflexivity.
      * exists st'. split; [exact Hrun|].
        rewrite Hres. simpl. by rewrite <- app_assoc.
    + (* a start is pending, an end arrives *)
      set (st1 := set_pending (Some a) (Some b) st).
      edestruct (IH (flush_range st1) None (rs ++ [(Some a, Some b)]))
        as (st' & Hrun & Hres).
      * apply flush_range_wf, Hwf.
      * rewrite (flush_range_ranges st1 rs Hwf Hrs) by (simpl; eauto).
        reflexivity.
      * apply flush_range_pending.
      * apply flush_range_pending.
      * exists st'. split; [exact Hrun|].
        rewrite Hres. simpl. by rewrite <- app_assoc.
    + (* an end is pending, a start arrives *)
      set (st1 := set_pending (Some b) (Some a) st).
      edestruct (IH (flush_range st1) None (rs ++ [(Some b, Some a)]))
        as (st' & Hrun & Hres).
      * apply flush_range_wf, Hwf.
      * rewrite (flush_range_ranges st1 rs Hwf Hrs) by (simpl; eauto).
        reflexivity.
      * apply flush_range_pending.
      * apply flush_range_pending.
      * exists st'. split; [exact Hrun|].
        rewrite Hres. simpl. by rewrite <- app_assoc.
    + (* an end is pending, an end arrives *)
      edestruct (IH (set_pending None (Some b) (flush_range st))
                   (Some (End b)) (rs ++ [(Some a, Some a)]))
        as (st' & Hrun & Hres); try reflexivity.
      * apply flush_range_wf, Hwf.
      * change (reg (set_pending ?u ?v ?s)) with (reg s).
        rewrite (flush_range_ranges st rs Hwf Hrs) by (rewrite Hpe; eauto).
        rewrite Hps, Hpe. reflexivity.
      * exists st'. split; [exact Hrun|].
        rewrite Hres. simpl. by rewrite <- app_assoc.
    + (* nothing is pending, a start arrives *)
      edestruct (IH (set_pending (Some b) None st) (Some (Start b)) rs)
        as (st' & Hrun & Hres); try reflexivity; try eassumption.
      exists st'. split; [exact Hrun | exact Hres].
    + (* nothing is pending, an end arrives *)
      edestruct (IH (set_pending None (Some b) st) (Some (End b)) rs)
        as (st' & Hrun & Hres); try reflexivity; try eassumption.
      exists st'. split; [exact Hrun | exact Hres].
Qed.

(** Every occurrence goes into exactly one implied range. *)
Lemma implied_ranges_uses xs :
  forall pending,
    Permutation (concat (map implied_uses (implied_ranges pending xs)))
      (pending_address pending ++ map endpoint_address xs).
Proof.
  induction xs as [|x xs IH]; intros pending.
  - destruct pending as [x|]; simpl; [reflexivity|constructor].
  - destruct pending as [[a|a]|], x as [b|b]; simpl;
      try (rewrite (IH _); simpl; reflexivity).
    + rewrite (IH _). simpl. apply perm_swap.
Qed.

(** ** The state in which main starts *)

Lemma init_nofile_limit_fields env :
  let st := init_nofile_limit env (initial_state env) in
  reg st = empty_registry
  /\ pend_start_ip st = None /\ pend_end_ip st = None
  /\ cli_link_detail_level st = -1
  /\ allow_all st = false
  /\ allow st = (fun _ => false)
  /\ nutscan_avail st = detected_avail env
  /\ dev st = (fun _ => None)
  /\ calls st = (fun _ => [])
  /\ thread st = (fun _ => false).
Proof.
  unfold init_nofile_limit. destruct (getrlimit env) as [[cur mx]|]; simpl.
  - case_decide; unfold constrain_to_nofile; simpl; [case_decide|]; done.
  - done.
Qed.

Lemma init_semaphore_fields st :
  reg (init_semaphore st) = reg st
  /\ pend_start_ip (init_semaphore st) = pend_start_ip st
  /\ pend_end_ip (init_semaphore st) = pend_end_ip st
  /\ cli_link_detail_level (init_semaphore st) = cli_link_detail_level st
  /\ allow_all (init_semaphore st) = allow_all st
  /\ allow (init_semaphore st) = allow st
  /\ nutscan_avail (init_semaphore st) = nutscan_avail st
  /\ dev (init_semaphore st) = dev st
  /\ calls (init_semaphore st) = calls st
  /\ thread (init_semaphore st) = thread st.
Proof. unfold init_semaphore. case_decide; done. Qed.

Lemma flush_range_fields st :
  cli_link_detail_level (flush_range st) = cli_link_detail_level st
  /\ allow_all (flush_range st) = allow_all st
  /\ allow (flush_range st) = allow st
  /\ nutscan_avail (flush_range st) = nutscan_avail st
  /\ dev (flush_range st) = dev st
  /\ calls (flush_range st) = calls st
  /\ thread (flush_range st) = thread st.
Proof.
  unfold flush_range, add_ip_range.
  destruct (pend_start_ip st), (pend_end_ip st); done.
Qed.

Lemma flush_pending_fields st :
  cli_link_detail_level (flush_pending st) = cli_link_detail_level st
  /\ allow_all (flush_pending st) = allow_all st
  /\ allow (flush_pending st) = allow st
  /\ nutscan_avail (flush_pending st) = nutscan_avail st
  /\ dev (flush_pending st) = dev st
  /\ calls (flush_pending st) = calls st
  /\ thread (flush_pending st) = thread st.
Proof.
  unfold flush_pending.
  destruct (pend_start_ip st), (pend_end_ip st);
    solve [apply flush_range_fields | done].
Qed.

Lemma reg_flush_pending_init_semaphore st :
  reg (flush_pending (init_semaphore st)) = reg (flush_pending st).
Proof.
  destruct (init_semaphore_fields st) as (Hreg & Hps & Hpe & _).
  unfold flush_pending. rewrite Hps, Hpe.
  destruct (pend_start_ip st) as [a|] eqn:Ea;
    [|destruct (pend_end_ip st) as [b|] eqn:Eb]; [| |exact Hreg].
  - rewrite !flush_range_reg by (rewrite ?Hps, ?Ea; eauto).
    by rewrite ?Hps, ?Hpe, ?Hreg, ?Ea.
  - rewrite !flush_range_reg by (rewrite ?Hpe, ?Eb; eauto).
    by rewrite ?Hps, ?Hpe, ?Hreg, ?Ea, ?Eb.
Qed.

Lemma resolve_allow_fields st :
  reg (resolve_allow st) = reg st
  /\ nutscan_avail (resolve_allow st) = nutscan_avail st
  /\ dev (resolve_allow st) = dev st
  /\ calls (resolve_allow st) = calls st
  /\ thread (resolve_allow st) = thread st
  /\ trace (resolve_allow st) = trace st.
Proof.
  unfold resolve_allow.
  destruct (_ && negb (allow st TYPE_EATON_SERIAL)); simpl;
    [|destruct (allow_all st)]; simpl; try case_decide; done.
Qed.

Lemma length_registry_ranges r rs :
  reg_wf r -> registry_ranges r = Some rs ->
  ip_ranges_count r = to_size_t (Z.of_nat (length rs)).
Proof.
  intros Hwf Hrs. rewrite (registry_ranges_wf _ Hwf) in Hrs.
  injection Hrs as <-. rewrite length_map. apply Hwf.
Qed.

(** C2.  For every sequence of -s and -e options, the option loop ends
    without leaving, and when the scans are about to start the registry holds
    exactly the ranges that the sequence implies, in their order: one range
    for each start and end that were paired, one single-address range for
    each endpoint that was overwritten or left over.  Every occurrence goes
    into exactly one of these ranges, and [ip_ranges_count] is their
    number.  For -s A, -s B, -e C the ranges are {A,A} then {B,C}. *)
Theorem endpoint_options_flushed
  (env : environment) (xs : list endpoint_opt) (A B C : string) :
  (exists st,
      before_dispatch env (map cli_of xs) = Some st
      /\ registry_ranges (reg st)
         = Some (map implied_bounds (implied_ranges None xs))
      /\ ip_ranges_count (reg st)
         = to_size_t (Z.of_nat (length (implied_ranges None xs)))
      /\ Permutation (concat (map implied_uses (implied_ranges None xs)))
           (map endpoint_address xs))
  /\ (before_dispatch env [Opt_s A; Opt_s B; Opt_e C])
       ≫= (fun st => registry_ranges (reg st))
     = Some [(Some A, Some A); (Some B, Some C)].
Proof.
  assert (Hgen : forall ys,
    exists st,
      before_dispatch env (map cli_of ys) = Some st
      /\ reg_wf (reg st)
      /\ registry_ranges (reg st)
         = Some (map implied_bounds (implied_ranges None ys))).
  { intros ys.
    destruct (init_nofile_limit_fields env) as (Hreg & Hps & Hpe & _).
    destruct (endpoint_options_refine ys
                (init_nofile_limit env (initial_state env)) None [])
      as (st' & Hrun & Hres).
    - rewrite Hreg. apply empty_registry_wf.
    - rewrite Hreg. reflexivity.
    - exact Hps.
    - exact Hpe.
    - exists (resolve_allow (flush_pending (init_semaphore st'))).
      unfold before_dispatch. rewrite Hrun.
      rewrite (proj1 (resolve_allow_fields _)),
        reg_flush_pending_init_semaphore.
      split; [reflexivity|]. split; [|exact Hres].
      apply flush_pending_wf. eapply parse_options_wf; [|exact Hrun].
      rewrite Hreg. apply empty_registry_wf. }
  split.
  - destruct (Hgen xs) as (st & Hrun & Hwf & Hres).
    exists st. split; [exact Hrun|]. split; [exact Hres|]. split.
    + rewrite (length_registry_ranges _ _ Hwf Hres), length_map. reflexivity.
    + apply (implied_ranges_uses xs None).
  - destruct (Hgen [Start A; Start B; End C]) as (st & Hrun & _ & Hres).
    simpl in Hrun. rewrite Hrun. exact Hres.
Qed.

(** ** Device lists *)

Lemma device_list_at_head l : device_list (at_head l) = l.
Proof. destruct l; reflexivity. Qed.

Lemma device_list_at_tail l : device_list (at_tail l) = l.
Proof.
  unfold at_tail. destruct (rev l) as [|d r] eqn:Hrev.
  - apply (f_equal (@rev _)) in Hrev. rewrite rev_involutive in Hrev.
    by subst.
  - simpl. apply (f_equal (@rev _)) in Hrev. rewrite rev_involutive in Hrev.
    subst l. reflexivity.
Qed.

Lemma device_list_nil p : device_list p = [] -> p = None.
Proof.
  destruct p as [[pre d post]|]; [|done]. simpl.
  intros H. by apply app_nil in H as [_ ?].
Qed.

(** A merge and rewind puts the devices of the first operand first. *)
Lemma device_list_merge first second :
  device_list
    (nutscan_rewind_device (nutscan_add_device_to_device first second))
  = device_list first ++ device_list second.
Proof.
  unfold nutscan_rewind_device, nutscan_add_device_to_device.
  by rewrite device_list_at_head, device_list_at_tail.
Qed.

Lemma device_list_accumulate_one acc dev_ret :
  device_list (accumulate_one acc dev_ret)
  = device_list dev_ret ++ device_list acc.
Proof.
  destruct acc as [n|]; unfold accumulate_one.
  - apply device_list_merge.
  - simpl. by rewrite app_nil_r.
Qed.

(** The devices of a later result come before those accumulated so far. *)
Lemma device_list_accumulate results :
  forall acc,
    device_list (accumulate acc results)
    = concat (rev (map device_list results)) ++ device_list acc.
Proof.
  induction results as [|r results IH]; intros acc; simpl; [done|].
  unfold accumulate in *. rewrite IH, device_list_accumulate_one.
  rewrite concat_app. simpl. by rewrite app_nil_r, <- app_assoc.
Qed.

Lemma accumulate_one_some acc dev_ret :
  is_Some acc ->
  accumulate_one acc dev_ret = at_head (device_list dev_ret ++ device_list acc)
  /\ is_Some (accumulate_one acc dev_ret).
Proof.
  intros [n ->]. unfold accumulate_one, nutscan_rewind_device,
    nutscan_add_device_to_device.
  rewrite device_list_at_tail. split; [done|].
  destruct (device_list dev_ret ++ device_list (Some n)) eqn:Happ;
    [|simpl; eauto].
  apply app_nil in Happ as [_ Happ]. simpl in Happ.
  by apply app_nil in Happ as [_ ?].
Qed.

Lemma accumulate_rewound results :
  forall acc,
    is_Some acc -> results <> [] ->
    accumulate acc results = at_head (device_list (accumulate acc results)).
Proof.
  induction results as [|r results IH]; intros acc Hacc Hne; [done|].
  destruct (accumulate_one_some acc r Hacc) as [Hone Hsome].
  change (accumulate acc (r :: results))
    with (accumulate (accumulate_one acc r) results).
  destruct results as [|r' results].
  - unfold accumulate; simpl. rewrite Hone. by rewrite device_list_at_head.
  - by apply IH.
Qed.

Lemma accumulate_none results :
  Forall (fun r => r = None) results -> accumulate None results = None.
Proof.
  induction 1 as [|r results -> _ IH]; [done|]. exact IH.
Qed.

(** Once a result before the last one is not NULL, a merge takes place and
    the slot ends on the head of the list. *)
Lemma accumulate_from_null_rewound results i n :
  results !! i = Some (Some n) -> (S i < length results)%nat ->
  accumulate None results
  = at_head (device_list (accumulate None results)).
Proof.
  revert i. induction results as [|r results IH]; intros i Hi Hlen; [done|].
  destruct r as [m|].
  - change (accumulate None (Some m :: results))
      with (accumulate (Some m) results).
    apply accumulate_rewound; [eauto|].
    destruct results; [simpl in Hlen; lia | done].
  - destruct i as [|i]; [done|]. simpl in *.
    apply (IH i); [done | lia].
Qed.

(** ** Thread bodies *)

Lemma thread_effect_refl t st : thread_effect t st st.
Proof. by split. Qed.

Lemma thread_effect_trans t st1 st2 st3 :
  thread_effect t st1 st2 -> thread_effect t st2 st3 -> thread_effect t st1 st3.
Proof.
  intros [] []. split; try congruence.
  - intros t' Ht'. rewrite te_dev1, te_dev0; auto.
  - intros t' Ht'. rewrite te_calls1, te_calls0; auto.
Qed.

(** A call of the probe followed by a store into the slot. *)
Lemma probe_and_store_effect env t c d st :
  thread_effect t st (store_dev t d (call_probe env t c st).2)
  /\ calls (store_dev t d (call_probe env t c st).2) t = calls st t ++ [c]
  /\ dev (store_dev t d (call_probe env t c st).2) t = d.
Proof.
  split; [split; try done|split]; simpl.
  - intros t' Ht'. by rewrite fn_lookup_insert_ne.
  - intros t' Ht'. by rewrite fn_lookup_insert_ne.
  - by rewrite fn_lookup_insert.
  - by rewrite fn_lookup_insert.
Qed.

Lemma store_dev_effect t d st :
  thread_effect t st (store_dev t d st)
  /\ calls (store_dev t d st) t = calls st t
  /\ dev (store_dev t d st) t = d.
Proof.
  split; [split; try done|split]; simpl; try done.
  - intros t' Ht'. by rewrite fn_lookup_insert_ne.
  - by rewrite fn_lookup_insert.
Qed.

(** The loop over a registry whose nodes are linked in order, from node
    [i]: it ends, it calls the probe once for each range from [i] on, in
    order, and it accumulates their results in the slot. *)
Lemma scan_ranges_linked env t scan fuel :
  forall i st,
    (forall j node, heap (reg st) !! j = Some node ->
                    next node = node_ptr (length (heap (reg st))) (S j)) ->
    (length (heap (reg st)) <= i + fuel)%nat ->
    exists st',
      scan_ranges env t scan fuel (node_ptr (length (heap (reg st))) i) st
      = Some st'
      /\ thread_effect t st st'
      /\ calls st' t
         = calls st t
           ++ map (range_call scan) (map range_of (drop i (heap (reg st))))
      /\ dev st' t
         = accumulate (dev st t)
             (map (fun r => nutscan_scan env (range_call scan r))
                (map range_of (drop i (heap (reg st))))).
Proof.
  induction fuel as [|fuel IH]; intros i st Hnext Hi.
  - rewrite node_ptr_ge by lia. rewrite drop_ge by lia.
    exists st. simpl. rewrite app_nil_r. auto using thread_effect_refl.
  - destruct (decide (i < length (heap (reg st)))%nat) as [Hlt|Hge].
    + rewrite node_ptr_lt by done.
      destruct (lookup_lt_is_Some_2 _ i Hlt) as [node Hnode].
      rewrite (drop_S _ _ _ Hnode).
      set (c := scan (start_ip node) (end_ip node)).
      set (st2 := store_dev t (accumulate_one (dev st t) (nutscan_scan env c))
                    (call_probe env t c st).2).
      assert (Hstep : scan_ranges env t scan (S fuel) (Some i) st
                      = scan_ranges env t scan fuel (next node) st2).
      { simpl. rewrite Hnode. fold c. unfold st2, accumulate_one.
        simpl. destruct (dev st t); reflexivity. }
      destruct (probe_and_store_effect env t c
                  (accumulate_one (dev st t) (nutscan_scan env c)) st)
        as (Heff & Hcalls & Hdev). fold st2 in Heff, Hcalls, Hdev.
      assert (Hreg : reg st2 = reg st) by apply Heff.
      destruct (IH (S i) st2) as (st' & Hrun & Heff' & Hcalls' & Hdev').
      { rewrite Hreg. exact Hnext. }
      { rewrite Hreg. lia. }
      rewrite Hreg in Hrun, Hcalls', Hdev'.
      exists st'. rewrite Hstep, (Hnext _ _ Hnode), Hrun.
      split; [done|]. split; [by eapply thread_effect_trans|]. split.
      * rewrite Hcalls', Hcalls. simpl. by rewrite <- app_assoc.
      * rewrite Hdev', Hdev. reflexivity.
    + rewrite node_ptr_ge by lia. rewrite drop_ge by lia.
      exists st. simpl. rewrite app_nil_r. auto using thread_effect_refl.
Qed.

Lemma run_ranged_spec env t run scan fuel st :
  In (t, run, scan) range_scoped ->
  reg_wf (reg st) ->
  (length (heap (reg st)) <= fuel)%nat ->
  exists st',
    run env fuel st = Some st'
    /\ thread_effect t st st'
    /\ (heap (reg st) <> [] \/ has_default_target t = false ->
        calls st' t
        = calls st t ++ map (range_call scan) (map range_of (heap (reg st)))
        /\ dev st' t
           = accumulate None
               (map (fun r => nutscan_scan env (range_call scan r))
                  (map range_of (heap (reg st)))))
    /\ (heap (reg st) = [] -> has_default_target t = true ->
        calls st' t = calls st t ++ [scan None None]
        /\ dev st' t = nutscan_scan env (scan None None)).
Proof.
  intros Hin Hwf Hfuel.
  pose proof (wf_next _ Hwf) as Hnext. pose proof (wf_head _ Hwf) as Hhead.
  (* the loop, entered with the slot set to NULL *)
  assert (Hloop : forall scan',
    exists st',
      scan_ranges env t scan' fuel (ip_ranges (reg st)) (store_dev t None st)
      = Some st'
      /\ thread_effect t st st'
      /\ calls st' t
         = calls st t ++ map (range_call scan') (map range_of (heap (reg st)))
      /\ dev st' t
         = accumulate None
             (map (fun r => nutscan_scan env (range_call scan' r))
                (map range_of (heap (reg st))))).
  { intros scan'.
    destruct (store_dev_effect t None st) as (Heff & Hcalls & Hdev).
    destruct (scan_ranges_linked env t scan' fuel 0 (store_dev t None st))
      as (st' & Hrun & Heff' & Hcalls' & Hdev'); [exact Hnext | simpl; lia|].
    simpl reg in Hrun, Hcalls', Hdev'. rewrite drop_0 in Hcalls', Hdev'.
    exists st'. rewrite Hhead, Hrun, Hcalls', Hdev', Hcalls, Hdev.
    split; [done|]. split; [by eapply thread_effect_trans|done]. }
  simpl in Hin.
  destruct Hin as [[= <- <- <-]|[[= <- <- <-]|[[= <- <- <-]|[[= <- <- <-]|[]]]]].
  - destruct (Hloop nutscan_scan_snmp) as (st' & Hrun & Heff & Hres).
    exists st'. split; [exact Hrun|]. split; [exact Heff|]. split; [done|].
    discriminate.
  - unfold run_xml. destruct (ip_ranges (reg st)) as [a|] eqn:Hp.
    + destruct (Hloop nutscan_scan_xml_http_range) as (st' & Hrun & Heff & Hres).
      exists st'.
      split; [exact Hrun|]. split; [exact Heff|]. split; [done|].
      intros Hnil. rewrite Hnil in Hhead. discriminate.
    + eexists. split; [reflexivity|].
      destruct (probe_and_store_effect env TYPE_XML
                  (nutscan_scan_xml_http_range None None)
                  (nutscan_scan env (nutscan_scan_xml_http_range None None)) st)
        as (Heff & Hcalls & Hdev).
      split; [exact Heff|]. split; [|done].
      intros [Hne|?]; [|done]. exfalso. apply Hne.
      unfold node_ptr in Hhead. case_decide; [done|].
      destruct (heap (reg st)); [done | simpl in *; lia].
  - destruct (Hloop nutscan_scan_nut) as (st' & Hrun & Heff & Hres).
    exists st'. split; [exact Hrun|]. split; [exact Heff|]. split; [done|].
    discriminate.
  - unfold run_ipmi. destruct (ip_ranges (reg st)) as [a|] eqn:Hp.
    + destruct (Hloop nutscan_scan_ipmi) as (st' & Hrun & Heff & Hres).
      exists st'.
      split; [exact Hrun|]. split; [exact Heff|]. split; [done|].
      intros Hnil. rewrite Hnil in Hhead. discriminate.
    + eexists. split; [reflexivity|].
      destruct (probe_and_store_effect env TYPE_IPMI
                  (nutscan_scan_ipmi None None)
                  (nutscan_scan env (nutscan_scan_ipmi None None)) st)
        as (Heff & Hcalls & Hdev).
      split; [exact Heff|]. split; [|done].
      intros [Hne|?]; [|done]. exfalso. apply Hne.
      unfold node_ptr in Hhead. case_decide; [done|].
      destruct (heap (reg st)); [done | simpl in *; lia].
Qed.

(** The first result that is not NULL becomes the accumulator. *)
Lemma accumulate_first_non_null pre n post :
  Forall (fun r => r = None) pre ->
  accumulate None (pre ++ Some n :: post) = accumulate (Some n) post.
Proof. induction 1 as [|r pre -> _ IH]; [done | exact IH]. Qed.

(** C1 (as amended).  Over a registry that is not empty, the thread body of
    every range-scoped protocol (SNMP, XML/HTTP, old NUT, IPMI) ends; it calls
    its probe once for each range, in the order of the registry; the first
    result that is not NULL becomes the accumulator; every later result is
    merged as the first operand, so that in the list that is reported the
    devices of a later range come before those of an earlier range, range by
    range and each range's devices in their own order; after a merge the slot
    points to the head of the list; when every call returns NULL the slot is
    NULL.  Nothing but the slot and the log of the protocol is changed. *)
Theorem range_results_accumulated
  (env : environment) (t : scan_type)
  (run : environment -> nat -> state -> option state)
  (scan : option string -> option string -> probe_call)
  (fuel : nat) (st : state) (rs : list (option string * option string)) :
  In (t, run, scan) range_scoped ->
  reg_wf (reg st) ->
  registry_ranges (reg st) = Some rs ->
  rs <> [] ->
  (length (heap (reg st)) <= fuel)%nat ->
  let results := map (fun r => nutscan_scan env (range_call scan r)) rs in
  exists st',
    run env fuel st = Some st'
    /\ calls st' t = calls st t ++ map (range_call scan) rs
    /\ dev st' t = accumulate None results
    /\ (forall pre n post,
           results = pre ++ Some n :: post ->
           Forall (fun r => r = None) pre ->
           dev st' t = accumulate (Some n) post)
    /\ device_list (dev st' t) = concat (rev (map device_list results))
    /\ (forall i n,
           results !! i = Some (Some n) -> (S i < length results)%nat ->
           dev st' t = at_head (device_list (dev st' t)))
    /\ (Forall (fun r => r = None) results -> dev st' t = None)
    /\ thread_effect t st st'.
Proof.
  intros Hin Hwf Hrs Hne Hfuel results.
  rewrite (registry_ranges_wf _ Hwf) in Hrs. injection Hrs as Hrs.
  destruct (run_ranged_spec env t run scan fuel st Hin Hwf Hfuel)
    as (st' & Hrun & Heff & Hloop & _).
  destruct Hloop as [Hcalls Hdev].
  { left. intros Hnil. rewrite Hnil in Hrs. by subst rs. }
  rewrite Hrs in Hcalls, Hdev. fold results in Hdev.
  exists st'. split; [exact Hrun|]. split; [exact Hcalls|].
  split; [exact Hdev|]. rewrite Hdev. split; [|split; [|split; [|split]]].
  - intros pre n post -> Hpre. by apply accumulate_first_non_null.
  - rewrite device_list_accumulate. simpl. by rewrite app_nil_r.
  - intros i n. apply accumulate_from_null_rewound.
  - apply accumulate_none.
  - exact Heff.
Qed.

(** ** The start of the scans *)

Lemma usb_scanopts_run_usb env level st :
  run_usb env (Some level) st
  = Some (store_dev TYPE_USB
            (nutscan_scan env (nutscan_scan_usb (usb_scanopts level)))
            (call_probe env TYPE_USB
               (nutscan_scan_usb (usb_scanopts level)) st).2).
Proof. unfold run_usb, usb_scanopts. repeat case_decide; reflexivity. Qed.

Lemma thread_body_spec env t st :
  reg_wf (reg st) ->
  exists st',
    thread_body env t st = Some st'
    /\ thread_effect t st st'
    /\ calls st' t = calls st t ++ expected_calls t st
    /\ dev st' t = expected_dev env t st.
Proof.
  intros Hwf.
  assert (Hsingle : forall c,
    thread_effect t st
      (store_dev t (nutscan_scan env c) (call_probe env t c st).2)
    /\ calls (store_dev t (nutscan_scan env c) (call_probe env t c st).2) t
       = calls st t ++ [c]
    /\ dev (store_dev t (nutscan_scan env c) (call_probe env t c st).2) t
       = accumulate None (map (nutscan_scan env) [c])).
  { intros c. apply probe_and_store_effect. }
  assert (Hranged : forall run scan,
    In (t, run, scan) range_scoped ->
    exists st',
      run env (loop_fuel st) st = Some st'
      /\ thread_effect t st st'
      /\ calls st' t
         = calls st t
           ++ match map range_of (heap (reg st)) with
              | [] => if has_default_target t then [scan None None] else []
              | _ :: _ => map (range_call scan) (map range_of (heap (reg st)))
              end
      /\ dev st' t
         = accumulate None
             (map (nutscan_scan env)
                match map range_of (heap (reg st)) with
                | [] => if has_default_target t then [scan None None] else []
                | _ :: _ => map (range_call scan) (map range_of (heap (reg st)))
                end)).
  { intros run scan Hin.
    destruct (run_ranged_spec env t run scan (loop_fuel st) st Hin Hwf)
      as (st' & Hrun & Heff & Hloop & Hdefault); [unfold loop_fuel; lia|].
    exists st'. split; [exact Hrun|]. split; [exact Heff|].
    destruct (heap (reg st)) as [|x h] eqn:Hh.
    - destruct (has_default_target t) eqn:Hd.
      + destruct (Hdefault eq_refl eq_refl) as [-> ->]. split; reflexivity.
      + destruct (Hloop (or_intror eq_refl)) as [-> ->]. split; reflexivity.
    - assert (Hne : x :: h <> []) by done.
      destruct (Hloop (or_introl Hne)) as [-> ->].
      split; [reflexivity|]. f_equal.
      exact (eq_sym (map_map (range_call scan) (nutscan_scan env) _)). }
  assert (Hfinish : forall run scan,
    In (t, run, scan) range_scoped ->
    expected_calls t st
    = match map range_of (heap (reg st)) with
      | [] => if has_default_target t then [scan None None] else []
      | _ :: _ => map (range_call scan) (map range_of (heap (reg st)))
      end ->
    exists st',
      run env (loop_fuel st) st = Some st'
      /\ thread_effect t st st'
      /\ calls st' t = calls st t ++ expected_calls t st
      /\ dev st' t = expected_dev env t st).
  { intros run scan Hin Hexp.
    destruct (Hranged run scan Hin) as (st' & Hrun & Heff & Hc & Hd).
    exists st'. unfold expected_dev. rewrite Hexp. done. }
  destruct t; simpl thread_body.
  - rewrite usb_scanopts_run_usb. eexists. split; [reflexivity|apply Hsingle].
  - apply (Hfinish run_snmp nutscan_scan_snmp); [simpl; auto|].
    unfold expected_calls. by destruct (map range_of _).
  - apply (Hfinish run_xml nutscan_scan_xml_http_range); [simpl; auto|].
    unfold expected_calls. by destruct (map range_of _).
  - apply (Hfinish run_nut_old nutscan_scan_nut); [simpl; auto|].
    unfold expected_calls. by destruct (map range_of _).
  - eexists. split; [reflexivity|apply Hsingle].
  - eexists. split; [reflexivity|apply Hsingle].
  - apply (Hfinish run_ipmi nutscan_scan_ipmi); [simpl; auto 10|].
    unfold expected_calls. by destruct (map range_of _).
  - eexists. split; [reflexivity|apply Hsingle].
Qed.

Lemma same_config_refl st : same_config st st.
Proof. by split. Qed.

Lemma same_slot_refl t st : same_slot t st st.
Proof. by repeat split. Qed.

(** [pthread_create] for the body of [t]: the thread is started when the
    result is 0, it then runs to its end. *)
Lemma pthread_create_spec env t body st :
  reg_wf (reg st) ->
  body (emit (PthreadCreate t true) st)
  = thread_body env t (emit (PthreadCreate t true) st) ->
  let ok := bool_decide (pthread_create_rc env t = 0) in
  exists st',
    pthread_create env t body st = Some (pthread_create_rc env t, st')
    /\ trace st' = trace st ++ [PthreadCreate t ok]
    /\ same_config st st'
    /\ (forall t', t' <> t -> same_slot t' st st')
    /\ dev st' t = (if ok then expected_dev env t st else dev st t)
    /\ calls st' t
       = (if ok then calls st t ++ expected_calls t st else calls st t)
    /\ thread st' t = ok || thread st t
    /\ nutscan_avail st' = nutscan_avail st.
Proof.
  intros Hwf Hbody ok. unfold pthread_create, ok.
  destruct (decide (pthread_create_rc env t = 0)) as [Hrc|Hrc].
  - rewrite (bool_decide_eq_true_2 _ Hrc), Hbody.
    destruct (thread_body_spec env t (emit (PthreadCreate t true) st) Hwf)
      as (st' & -> & Heff & Hcalls & Hdev).
    destruct Heff. eexists. split; [reflexivity|]. simpl.
    split; [by rewrite te_trace0|]. split; [by split|].
    split; [|by rewrite fn_lookup_insert].
    intros t' Ht'. repeat split; simpl; auto.
    + rewrite fn_lookup_insert_ne by done. by rewrite te_thread0.
    + by rewrite te_avail0.
  - rewrite (bool_decide_eq_false_2 _ Hrc).
    eexists. split; [reflexivity|]. simpl.
    repeat split; auto using same_slot_refl.
Qed.

Lemma start_thread_spec env t body st :
  reg_wf (reg st) ->
  body (emit (PthreadCreate t true) st)
  = thread_body env t (emit (PthreadCreate t true) st) ->
  let ok := bool_decide (pthread_create_rc env t = 0) in
  exists st',
    start_thread env t body st = Some st'
    /\ trace st'
       = trace st
         ++ PthreadCreate t ok
            :: (if ok then []
                else [Debug 1 "pthread_create returned an error; disabling this scan mode"])
    /\ same_config st st'
    /\ (forall t', t' <> t -> same_slot t' st st')
    /\ dev st' t = (if ok then expected_dev env t st else dev st t)
    /\ calls st' t
       = (if ok then calls st t ++ expected_calls t st else calls st t)
    /\ thread st' t = ok || thread st t
    /\ nutscan_avail st' t = nutscan_avail st t && ok.
Proof.
  intros Hwf Hbody ok.
  destruct (pthread_create_spec env t body st Hwf Hbody)
    as (st' & Hrun & Htrace & Hconfig & Hothers & Hdev & Hcalls & Hthread & Havail).
  fold ok in Htrace, Hdev, Hcalls, Hthread.
  unfold start_thread. rewrite Hrun. simpl. unfold ok in *.
  destruct (decide (pthread_create_rc env t = 0)) as [Hrc|Hrc].
  - rewrite (bool_decide_eq_true_2 _ Hrc) in *.
    rewrite decide_False by (by intros []).
    eexists. split; [reflexivity|]. rewrite Havail, andb_true_r. done.
  - rewrite (bool_decide_eq_false_2 _ Hrc) in *.
    rewrite decide_True by done.
    eexists. split; [reflexivity|]. simpl.
    split; [by rewrite Htrace, <- app_assoc|].
    split; [by destruct Hconfig|].
    split; [|by rewrite fn_lookup_insert, andb_false_r].
    intros t' Ht'. destruct (Hothers t' Ht') as (? & ? & ? & ?).
    repeat split; simpl; auto. by rewrite fn_lookup_insert_ne.
Qed.

#[local] Arguments expected_dev : simpl never.
#[local] Arguments expected_calls : simpl never.
#[local] Arguments skipped_msg : simpl never.

(** The fields of [dispatch_post] once the block has been run through. *)
Ltac dispatch_slot :=
  split; unfold started, dispatched;
  repeat match goal with
         | H : allow _ _ = _ |- _ => rewrite H
         | H : nutscan_avail _ _ = _ |- _ => rewrite H
         | H : bool_decide _ = _ |- _ => rewrite H
         end;
  simpl in *; rewrite ?andb_true_r, ?andb_false_r, ?fn_lookup_insert in *;
  try congruence; try done;
  try (intros;
       match goal with
       | Hc : bool_decide ?P = false, Hp : ?P |- _ =>
           apply bool_decide_eq_false in Hc; destruct (Hc Hp)
       end);
  try (intros b; naive_solver);
  try (intros; simpl; auto; fail).

Ltac dispatch_leaf Htrace Hconfig Hothers :=
  split;
  [ rewrite ?Htrace; simpl; rewrite <- ?app_assoc; reflexivity
  | repeat constructor
  | destruct Hconfig; split; simpl in *; congruence
  | let t' := fresh "t'" in
    let Ht' := fresh "Ht'" in
    intros t' Ht'; destruct (Hothers t' Ht') as (?&?&?&?);
    repeat split; simpl in *; congruence
  | dispatch_slot ].

Ltac dispatch_skip :=
  eexists _, _; split; [reflexivity|];
  split;
  [ simpl; reflexivity
  | repeat constructor
  | by split
  | intros; repeat split; simpl; rewrite ?fn_lookup_insert_ne by done; auto
  | dispatch_slot ].

Ltac dispatch_thread :=
  match goal with
  | Hwf : reg_wf (reg ?st) |- context [dispatch_post ?env ?t] =>
      let st' := fresh "st'" in
      let Htrace := fresh "Htrace" in
      let Hconfig := fresh "Hconfig" in
      let Hothers := fresh "Hothers" in
      let Hok := fresh "Hok" in
      edestruct (start_thread_spec env t)
        as (st' & -> & Htrace & Hconfig & Hothers & ? & ? & ? & ?);
      [ exact Hwf | reflexivity | ];
      destruct (bool_decide (pthread_create_rc env t = 0)) eqn:Hok;
      (eexists st', _; split; [reflexivity|]);
      dispatch_leaf Htrace Hconfig Hothers
  end.

#[local] Set Warnings "-clear-no-such-hyp".

(** The block of every protocol ends, and does what [dispatch_post] says. *)
Lemma dispatch_of_spec env t st :
  reg_wf (reg st) ->
  exists st' evs,
    dispatch_of t env st = Some st' /\ dispatch_post env t st st' evs.
Proof.
  intros Hwf.
  destruct t; unfold dispatch_of, dispatch_usb, dispatch_snmp, dispatch_xml,
    dispatch_nut, dispatch_nut_simulation, dispatch_avahi, dispatch_ipmi,
    dispatch_eaton_serial;
    rewrite ?decide_bool_decide;
    match goal with
    | |- context [allow st ?t] => destruct (allow st t) eqn:Hallow
    end;
    try match goal with
        | |- context [nutscan_avail st ?t] =>
            destruct (nutscan_avail st t) eqn:Havail
        end;
    simpl andb; cbv iota;
    try match goal with
        | |- context [bool_decide (ip_ranges_count (reg st) = 0)] =>
            destruct (bool_decide (ip_ranges_count (reg st) = 0)) eqn:Hcount
        end;
    try (dispatch_skip; fail);
    try (dispatch_thread; fail).
  (* the Eaton serial scan *)
  edestruct (pthread_create_spec env TYPE_EATON_SERIAL)
    as (st' & -> & Htrace & Hconfig & Hothers & Hdev & Hcalls & Hthread & Havail');
    [ exact Hwf | reflexivity | ].
  simpl.
  destruct (bool_decide (pthread_create_rc env TYPE_EATON_SERIAL = 0)) eqn:Hok;
    (eexists st', _; split; [reflexivity|]);
    dispatch_leaf Htrace Hconfig Hothers.
Qed.

Lemma same_config_trans st1 st2 st3 :
  same_config st1 st2 -> same_config st2 st3 -> same_config st1 st3.
Proof. intros [] []. split; congruence. Qed.

Lemma same_slot_trans t st1 st2 st3 :
  same_slot t st1 st2 -> same_slot t st2 st3 -> same_slot t st1 st3.
Proof. intros (?&?&?&?) (?&?&?&?). repeat split; congruence. Qed.

(** What a block reads of the state. *)
Lemma dispatch_reads env t st st1 :
  same_config st st1 -> same_slot t st st1 ->
  dispatched t st1 = dispatched t st
  /\ started env t st1 = started env t st
  /\ expected_calls t st1 = expected_calls t st
  /\ expected_dev env t st1 = expected_dev env t st.
Proof.
  intros [Hsp Hlv Hreg Hmt Haa Hal Hq Hdf] (Hdev & Hcalls & Hthread & Havail).
  assert (Hd : dispatched t st1 = dispatched t st)
    by (unfold dispatched; by rewrite Hal, Havail, Hreg).
  assert (Hc : expected_calls t st1 = expected_calls t st)
    by (unfold expected_calls; by rewrite Hlv, Hreg, Hsp).
  unfold started, expected_dev. rewrite Hd, Hc. done.
Qed.

Lemma event_about_dispatch t e : event_about t e -> dispatch_event e.
Proof. by destruct e. Qed.

Lemma dispatch_posts_nil env st : dispatch_posts env [] st st [].
Proof.
  split.
  - by rewrite app_nil_r.
  - constructor.
  - apply same_config_refl.
  - intros. apply same_slot_refl.
  - intros t Ht. by apply elem_of_nil in Ht.
  - intros t b [].
Qed.

Lemma dispatch_posts_snoc env ts t st st1 st2 evs1 evs2 :
  dispatch_posts env ts st st1 evs1 ->
  dispatch_post env t st1 st2 evs2 ->
  t ∉ ts ->
  dispatch_posts env (ts ++ [t]) st st2 (evs1 ++ evs2).
Proof.
  intros [Htr1 Hev1 Hcfg1 Hout1 Hin1 Hcr1] [Htr2 Hev2 Hcfg2 Hoth2 Hslot2] Hnotin.
  assert (Hno2 : forall t' b, t' <> t -> ~ In (PthreadCreate t' b) evs2).
  { intros t' b Ht' Hin. rewrite Forall_forall in Hev2.
    apply list_elem_of_In, Hev2 in Hin. simpl in Hin. congruence. }
  split.
  - by rewrite Htr2, Htr1, app_assoc.
  - apply Forall_app. split; [exact Hev1|].
    eapply Forall_impl; [exact Hev2|]. apply event_about_dispatch.
  - by eapply same_config_trans.
  - intros t' Ht'. apply not_elem_of_app in Ht' as [Ht' Hne].
    apply not_elem_of_cons in Hne as [Hne _].
    eapply same_slot_trans; [by apply Hout1 | by apply Hoth2].
  - intros t' Ht'. apply elem_of_app in Ht' as [Ht'|Ht'].
    + (* a protocol whose block was run before *)
      assert (Hne : t' <> t) by (intros ->; done).
      destruct (Hoth2 t' Hne) as (Hd & Hc & Hth & Hav).
      destruct (Hin1 t' Ht') as [].
      split; rewrite ?Hd, ?Hc, ?Hth, ?Hav; try done.
      * intros b. rewrite in_app_iff, sr_created0.
        split; [intros [?|Hin]; [done|by apply Hno2 in Hin]|auto].
      * intros. apply in_or_app. auto.
      * intros. apply in_or_app. auto.
    + (* the protocol whose block is run now *)
      apply list_elem_of_singleton in Ht' as ->.
      destruct (dispatch_reads env t st st1 Hcfg1 (Hout1 t Hnotin))
        as (Hdisp & Hstart & Hcalls & Hdev).
      destruct (Hout1 t Hnotin) as (Hd & Hc & Hth & Hav).
      destruct Hcfg1. destruct Hslot2 as [].
      rewrite Hstart, ?Hdev, ?Hcalls, ?Hdisp, ?Hd, ?Hc, ?Hth, ?Hav,
        ?sc_allow0, ?sc_reg0, ?sc_quiet0 in *.
      split; try done.
      * intros b. rewrite in_app_iff, sr_created0.
        split; [intros [Hin|?]; [by apply Hcr1 in Hin|done]|auto].
      * intros. apply in_or_app. auto.
      * intros. apply in_or_app. auto.
  - intros t' b Hin. apply in_app_or in Hin as [Hin|Hin].
    + apply elem_of_app. left. by eapply Hcr1.
    + destruct (decide (t' = t)) as [->|Hne]; [|by apply Hno2 in Hin].
      apply elem_of_app. right. by apply list_elem_of_singleton.
Qed.

Ltac not_in_types :=
  let Hin := fresh "Hin" in
  simpl; intros Hin;
  repeat (apply elem_of_cons in Hin as [Hin|Hin]; [discriminate|]);
  by apply elem_of_nil in Hin.

Lemma dispatch_step env ts t st st1 evs1 :
  reg_wf (reg st) ->
  dispatch_posts env ts st st1 evs1 ->
  t ∉ ts ->
  exists st2 evs,
    dispatch_of t env st1 = Some st2
    /\ dispatch_posts env (ts ++ [t]) st st2 evs.
Proof.
  intros Hwf Hposts Hnotin.
  destruct (dispatch_of_spec env t st1) as (st2 & evs2 & Hrun & Hpost).
  { rewrite (sc_reg _ _ (dps_config _ _ _ _ _ Hposts)). exact Hwf. }
  exists st2, (evs1 ++ evs2). split; [exact Hrun|].
  by eapply dispatch_posts_snoc.
Qed.

(** The start of the scans ends, whatever the options and the environment. *)
Lemma dispatch_all_spec env st :
  reg_wf (reg st) ->
  exists st' evs,
    dispatch_all env st = Some st'
    /\ dispatch_posts env all_types st st' evs.
Proof.
  intros Hwf. unfold dispatch_all.
  pose proof (dispatch_posts_nil env st) as H0.
  destruct (dispatch_step env _ TYPE_USB _ _ _ Hwf H0)
    as (st1 & evs1 & Hrun1 & H1); [by apply not_elem_of_nil|].
  destruct (dispatch_step env _ TYPE_SNMP _ _ _ Hwf H1)
    as (st2 & evs2 & Hrun2 & H2); [not_in_types|].
  destruct (dispatch_step env _ TYPE_XML _ _ _ Hwf H2)
    as (st3 & evs3 & Hrun3 & H3); [not_in_types|].
  destruct (dispatch_step env _ TYPE_NUT _ _ _ Hwf H3)
    as (st4 & evs4 & Hrun4 & H4); [not_in_types|].
  destruct (dispatch_step env _ TYPE_NUT_SIMULATION _ _ _ Hwf H4)
    as (st5 & evs5 & Hrun5 & H5); [not_in_types|].
  destruct (dispatch_step env _ TYPE_AVAHI _ _ _ Hwf H5)
    as (st6 & evs6 & Hrun6 & H6); [not_in_types|].
  destruct (dispatch_step env _ TYPE_IPMI _ _ _ Hwf H6)
    as (st7 & evs7 & Hrun7 & H7); [not_in_types|].
  destruct (dispatch_step env _ TYPE_EATON_SERIAL _ _ _ Hwf H7)
    as (st8 & evs8 & Hrun8 & H8); [not_in_types|].
  simpl in Hrun1, Hrun2, Hrun3, Hrun4, Hrun5, Hrun6, Hrun7, Hrun8.
  rewrite Hrun1; simpl. rewrite Hrun2; simpl. rewrite Hrun3; simpl.
  rewrite Hrun4; simpl. rewrite Hrun5; simpl. rewrite Hrun6; simpl.
  rewrite Hrun7; simpl. exists st8, evs8. split; [exact Hrun8 | exact H8].
Qed.

(** ** Before the scans *)

Lemma setup_effect_refl st : setup_effect st st.
Proof. split; try done. exists nil. by rewrite app_nil_r. Qed.

Lemma setup_effect_trans st1 st2 st3 :
  setup_effect st1 st2 -> setup_effect st2 st3 -> setup_effect st1 st3.
Proof.
  intros [? ? ? ? (evs1 & Ht1 & Hf1)] [? ? ? ? (evs2 & Ht2 & Hf2)].
  split; try congruence.
  exists (evs1 ++ evs2). rewrite Ht2, Ht1, app_assoc.
  split; [done | by apply Forall_app].
Qed.

Lemma setup_effect_emit e st : setup_event e -> setup_effect st (emit e st).
Proof. intros He. split; try done. exists [e]. by repeat constructor. Qed.

Lemma flush_range_effect st : setup_effect st (flush_range st).
Proof.
  unfold flush_range, add_ip_range.
  destruct (pend_start_ip st), (pend_end_ip st); simpl;
    (split; try done); eexists; (split; [simpl; rewrite <- ?app_assoc; done|]);
    by repeat constructor.
Qed.

Lemma flush_pending_effect st : setup_effect st (flush_pending st).
Proof.
  unfold flush_pending.
  destruct (pend_start_ip st), (pend_end_ip st);
    auto using flush_range_effect, setup_effect_refl.
Qed.

Lemma init_semaphore_effect st : setup_effect st (init_semaphore st).
Proof.
  unfold init_semaphore. case_decide; (split; try done); eexists;
    (split; [simpl; rewrite <- ?app_assoc; done|]); by repeat constructor.
Qed.

Lemma resolve_allow_effect st : setup_effect st (resolve_allow st).
Proof.
  destruct (resolve_allow_fields st) as (_ & ? & ? & ? & ? & Htrace).
  split; try done. exists nil. by rewrite app_nil_r.
Qed.

Lemma setup_effect_set_pending a b st : setup_effect st (set_pending a b st).
Proof. split; try done. exists nil. by rewrite app_nil_r. Qed.

Ltac setup_step :=
  match goal with
  | |- setup_effect ?s ?s => apply setup_effect_refl
  | |- setup_effect _ (match ?c with Some _ => flush_range _ | None => _ end) =>
      destruct c; [eapply setup_effect_trans; [|apply flush_range_effect]|]
  | |- setup_effect _ (set_pending _ _ _) =>
      eapply setup_effect_trans; [|apply setup_effect_set_pending]
  end.

Ltac setup_solve :=
  first
    [ apply setup_effect_refl
    | split;
      [ done | done | done | done
      | eexists; split;
        [ simpl; rewrite <- ?app_assoc;
          first [reflexivity | symmetry; apply app_nil_r]
        | by repeat constructor ] ] ].

Lemma process_option_effect o st st' :
  process_option o st = Continue st' -> setup_effect st st'.
Proof.
  destruct o; simpl; unfold allow_if_avail, display_help;
    try discriminate;
    (* -s and -e *)
    try (intros [= <-]; cbv zeta; repeat setup_step; fail);
    (* the other options *)
    repeat case_decide; repeat case_match; try discriminate;
    intros [= <-]; unfold constrain_to_nofile; try case_decide;
    setup_solve.
Qed.

Lemma parse_options_effect opts st st' :
  parse_options opts st = Continue st' -> setup_effect st st'.
Proof.
  revert st. induction opts as [|o opts IH]; intros st; simpl.
  - intros [= <-]. apply setup_effect_refl.
  - destruct (process_option o st) as [st1|] eqn:Hstep; [|discriminate].
    intros Hrun. eapply setup_effect_trans; [|by apply IH].
    by eapply process_option_effect.
Qed.

(** ** The joins and the report *)

Lemma set_trace_same st : set_trace (trace st) st = st.
Proof. by destruct st. Qed.

Lemma join_thread_trace t cond l st :
  join_thread t cond (set_trace l st)
  = set_trace
      (l ++ (if cond && thread st t
             then [Debug 1 (join_msg t); PthreadJoin t] else []))
      st.
Proof.
  unfold join_thread. destruct st; simpl. destruct (cond && _).
  - unfold emit, upsdebugx, emit; simpl. by rewrite <- app_assoc.
  - by rewrite app_nil_r.
Qed.

Lemma join_checked_trace t l st :
  avail_checked t = true ->
  join_checked t (set_trace l st) = set_trace (l ++ join_events_of st t) st.
Proof.
  intros Ht. unfold join_checked. rewrite join_thread_trace.
  unfold join_events_of, joined, requested_and_avail. rewrite Ht.
  by destruct st.
Qed.

Lemma join_eaton_serial_trace l st :
  join_eaton_serial (set_trace l st)
  = set_trace (l ++ join_events_of st TYPE_EATON_SERIAL) st.
Proof.
  unfold join_eaton_serial. rewrite join_thread_trace.
  unfold join_events_of, joined. destruct st; simpl.
  by rewrite andb_true_r.
Qed.

(** The joins only log. *)
Lemma join_all_trace st :
  join_all st = set_trace (trace st ++ join_events st) st.
Proof.
  unfold join_all. rewrite <- (set_trace_same st) at 1.
  rewrite !join_checked_trace by done. rewrite join_eaton_serial_trace.
  unfold join_events, all_types. simpl concat.
  rewrite <- !app_assoc, ?app_nil_r. reflexivity.
Qed.

Lemma display_and_free_trace t l st :
  display_and_free t (set_trace l st)
  = set_trace (l ++ report_events_of (display_func st) (dev st) t) st.
Proof.
  destruct st. unfold display_and_free, upsdebugx, emit, set_trace.
  cbn [trace dev display_func serial_ports cli_link_detail_level reg thread
       max_threads nutscan_avail nofile_rlim_cur nofile_rlim_max pend_start_ip
       pend_end_ip allow_all allow quiet calls].
  f_equal. unfold report_events_of. rewrite <- !app_assoc. reflexivity.
Qed.

(** The report only logs, and shows every slot once, in a fixed order. *)
Lemma report_trace st :
  report st
  = set_trace (trace st ++ report_events (display_func st) (dev st)) st.
Proof.
  unfold report. 
  change (upsdebugx 1 "SCANS DONE: display results" st)
    with (set_trace (trace st ++ [Debug 1 "SCANS DONE: display results"]) st).
  rewrite !display_and_free_trace.
  unfold report_events, all_types. simpl concat.
  rewrite <- !app_assoc, ?app_nil_r. reflexivity.
Qed.

(** ** The whole run *)

Lemma init_nofile_limit_trace env :
  Forall setup_event (trace (init_nofile_limit env (initial_state env))).
Proof.
  unfold init_nofile_limit. destruct (getrlimit env) as [[cur mx]|]; simpl.
  - case_decide; unfold constrain_to_nofile; simpl; [case_decide|];
      constructor.
  - by repeat constructor.
Qed.

(** The state in which the scans are started. *)
Lemma before_dispatch_spec env opts st0 :
  before_dispatch env opts = Some st0 ->
  reg_wf (reg st0)
  /\ dev st0 = (fun _ => None)
  /\ calls st0 = (fun _ => [])
  /\ thread st0 = (fun _ => false)
  /\ nutscan_avail st0 = detected_avail env
  /\ Forall setup_event (trace st0).
Proof.
  unfold before_dispatch.
  destruct (parse_options opts _) as [st|] eqn:Hparse; [|discriminate].
  intros [= <-].
  destruct (init_nofile_limit_fields env)
    as (Hreg & _ & _ & _ & _ & _ & Havail & Hdev & Hcalls & Hthread).
  pose proof (init_nofile_limit_trace env) as Htrace.
  assert (Hwf : reg_wf (reg st)).
  { eapply parse_options_wf; [|exact Hparse].
    rewrite Hreg. apply empty_registry_wf. }
  assert (Heff : setup_effect (init_nofile_limit env (initial_state env))
                   (resolve_allow (flush_pending (init_semaphore st)))).
  { eapply setup_effect_trans; [by eapply parse_options_effect|].
    eapply setup_effect_trans; [apply init_semaphore_effect|].
    eapply setup_effect_trans; [apply flush_pending_effect|].
    apply resolve_allow_effect. }
  destruct Heff as [Hd Hc Ht Ha (evs & Htr & Hevs)].
  split.
  { rewrite (proj1 (resolve_allow_fields _)). apply flush_pending_wf.
    by rewrite (proj1 (init_semaphore_fields _)). }
  rewrite Hd, Hc, Ht, Ha, Htr. repeat split; try done.
  by apply Forall_app.
Qed.

(** When the option loop ends without leaving, [main] starts the scans,
    joins the threads, reports and returns EXIT_SUCCESS; its trace is the
    trace so far, then the events of the start of the scans, of the joins
    and of the report. *)
Lemma main_run env opts st0 :
  before_dispatch env opts = Some st0 ->
  exists st1 evs,
    dispatch_all env st0 = Some st1
    /\ dispatch_posts env all_types st0 st1 evs
    /\ main env opts
       = Some (EXIT_SUCCESS,
               set_trace
                 (trace st0 ++ evs ++ join_events st1
                  ++ report_events (display_func st0) (dev st1)
                  ++ teardown_events)
                 st1).
Proof.
  intros Hbefore.
  destruct (before_dispatch_spec env opts st0 Hbefore) as (Hwf & _).
  destruct (dispatch_all_spec env st0 Hwf) as (st1 & evs & Hrun & Hposts).
  exists st1, evs. split; [exact Hrun|]. split; [exact Hposts|].
  unfold before_dispatch in Hbefore. unfold main, scan_and_report.
  destruct (parse_options opts _) as [st|]; [|discriminate].
  injection Hbefore as ->. rewrite Hrun. simpl.
  rewrite join_all_trace, report_trace. unfold upsdebugx, emit. simpl.
  rewrite (dps_trace _ _ _ _ _ Hposts),
    (sc_display_func _ _ (dps_config _ _ _ _ _ Hposts)).
  rewrite <- !app_assoc. reflexivity.
Qed.

Lemma join_events_spec st :
  Forall join_event (join_events st)
  /\ forall t, In (PthreadJoin t) (join_events st) -> joined t st = true.
Proof.
  unfold join_events. split.
  - apply Forall_concat, Forall_fmap, Forall_forall. intros t _. simpl.
    unfold join_events_of. destruct (joined t st); by repeat constructor.
  - intros t Hin. apply in_concat in Hin as (l & Hl & Hin).
    apply in_map_iff in Hl as (t' & <- & _).
    unfold join_events_of in Hin. destruct (joined t' st) eqn:Hj; [|done].
    destruct Hin as [|[[= ->]|[]]]; done.
Qed.

Lemma report_events_spec f d :
  Forall report_event (report_events f d)
  /\ List.filter is_display (report_events f d ++ teardown_events)
     = map (fun t => Display f t (d t)) all_types.
Proof. split; [by repeat constructor | reflexivity]. Qed.

Lemma setup_event_classes e :
  setup_event e -> is_display e = false /\ is_thread_event e = false.
Proof. by destruct e. Qed.

Lemma dispatch_event_display e : dispatch_event e -> is_display e = false.
Proof. by destruct e. Qed.

Lemma join_event_display e : join_event e -> is_display e = false.
Proof. by destruct e. Qed.

Lemma report_event_thread e : report_event e -> is_thread_event e = false.
Proof. by destruct e. Qed.

Lemma in_all_types t : t ∈ all_types.
Proof.
  destruct t; unfold all_types;
    repeat first [apply list_elem_of_here | apply list_elem_of_further].
Qed.

(** The slots when [main] returns. *)
Lemma final_slots env st0 st1 evs t :
  dev st0 = (fun _ => None) ->
  calls st0 = (fun _ => []) ->
  dispatch_posts env all_types st0 st1 evs ->
  dev st1 t = (if started env t st0 then expected_dev env t st0 else None)
  /\ calls st1 t = (if started env t st0 then expected_calls t st0 else []).
Proof.
  intros Hdev Hcalls Hposts.
  pose proof (in_all_types t) as Hin.
  destruct (dps_inside _ _ _ _ _ Hposts t Hin) as [-> -> _ _ _ _ _].
  rewrite Hdev, Hcalls. done.
Qed.

#[local] Arguments report_events : simpl never.
#[local] Arguments join_events : simpl never.

(** The fields of the last state of [main]. *)
Ltac final_state :=
  repeat match goal with
         | |- context [trace (set_trace ?l ?s)] =>
             change (trace (set_trace l s)) with l
         | |- context [dev (set_trace ?l ?s)] =>
             change (dev (set_trace l s)) with (dev s)
         | |- context [calls (set_trace ?l ?s)] =>
             change (calls (set_trace l s)) with (calls s)
         | |- context [nutscan_avail (set_trace ?l ?s)] =>
             change (nutscan_avail (set_trace l s)) with (nutscan_avail s)
         end.

(** C7.  When the option loop ends without leaving, [main] returns
    EXIT_SUCCESS and its trace falls into two parts: all that precedes the
    report, with every [pthread_create] and every [pthread_join] and no call
    of the formatter, and the report, in which the selected formatter is
    called exactly once for each of the eight protocols, in the order USB,
    SNMP, XML/HTTP, old NUT, simulation, avahi, IPMI, serial, on the slot of
    the protocol: the result of its thread when one was started, NULL
    otherwise. *)
Theorem report_once_per_protocol
  (env : environment) (opts : list cli_opt) (st0 : state) :
  before_dispatch env opts = Some st0 ->
  exists stf pre post,
    main env opts = Some (EXIT_SUCCESS, stf)
    /\ trace stf = pre ++ post
    /\ Forall (fun e => is_display e = false) pre
    /\ Forall (fun e => is_thread_event e = false) post
    /\ List.filter is_display post
       = map (fun t => Display (display_func st0) t (dev stf t)) all_types
    /\ forall t,
         dev stf t
         = if started env t st0 then expected_dev env t st0 else None.
Proof.
  intros Hbefore.
  destruct (before_dispatch_spec env opts st0 Hbefore)
    as (Hwf & Hdev & Hcalls & _ & _ & Hsetup).
  destruct (main_run env opts st0 Hbefore) as (st1 & evs & _ & Hposts & Hmain).
  eexists _, (trace st0 ++ evs ++ join_events st1),
    (report_events (display_func st0) (dev st1)
     ++ teardown_events).
  split; [exact Hmain|]. final_state.
  split; [by rewrite <- !app_assoc|]. split; [|split; [|split]].
  - rewrite !Forall_app. split; [|split].
    + eapply Forall_impl; [exact Hsetup|]. intros e He.
      by apply setup_event_classes.
    + eapply Forall_impl; [exact (dps_events _ _ _ _ _ Hposts)|].
      apply dispatch_event_display.
    + eapply Forall_impl; [exact (proj1 (join_events_spec st1))|].
      apply join_event_display.
  - apply Forall_app_2; [|by repeat constructor].
    eapply Forall_impl; [exact (proj1 (report_events_spec _ _))|].
    apply report_event_thread.
  - apply report_events_spec.
  - intros t. by apply (final_slots env st0 st1 evs t).
Qed.

Lemma filter_none {A} (f : A -> bool) l :
  Forall (fun x => f x = false) l -> List.filter f l = [].
Proof. induction 1 as [|x l Hx _ IH]; simpl; [done|]. by rewrite Hx. Qed.

Lemma registry_ranges_nil r :
  reg_wf r -> registry_ranges r = Some [] ->
  heap r = [] /\ ip_ranges_count r = 0.
Proof.
  intros Hwf Hrs. pose proof (length_registry_ranges _ _ Hwf Hrs) as Hcount.
  rewrite (registry_ranges_wf _ Hwf) in Hrs. injection Hrs as Hrs.
  split; [by destruct (heap r)|exact Hcount].
Qed.

(** Where an event of the trace of a whole run comes from. *)
Lemma in_final_trace e tr evs joins reports :
  In e (tr ++ evs ++ joins ++ reports ++ teardown_events) ->
  Forall setup_event tr -> Forall join_event joins ->
  Forall report_event reports ->
  (forall l m, e <> Debug l m) ->
  e <> SemDestroy ->
  (setup_event e /\ In e tr) \/ In e evs
  \/ (join_event e /\ In e joins) \/ (report_event e /\ In e reports).
Proof.
  intros Hin Htr Hjoins Hreports Hdebug Hsem.
  rewrite !in_app_iff in Hin. rewrite Forall_forall in Htr, Hjoins, Hreports.
  destruct Hin as [Hin|[Hin|[Hin|[Hin|Hin]]]].
  - left. split; [|done]. by apply Htr, list_elem_of_In.
  - by right; left.
  - right; right; left. split; [|done]. by apply Hjoins, list_elem_of_In.
  - right; right; right. split; [|done]. by apply Hreports, list_elem_of_In.
  - destruct Hin as [Hin|[Hin|[Hin|[]]]].
    + by destruct Hsem.
    + by destruct (Hdebug _ _ (eq_sym Hin)).
    + by destruct (Hdebug _ _ (eq_sym Hin)).
Qed.

(** A protocol that [main] does not come to start is neither created nor
    joined, and its slot and its log stay empty. *)
Lemma not_dispatched_spec env opts st0 st1 evs t :
  before_dispatch env opts = Some st0 ->
  dispatch_posts env all_types st0 st1 evs ->
  dispatched t st0 = false ->
  let tr := trace st0 ++ evs ++ join_events st1
            ++ report_events (display_func st0) (dev st1)
            ++ teardown_events in
  calls st1 t = [] /\ dev st1 t = None
  /\ (forall b, ~ In (PthreadCreate t b) tr)
  /\ ~ In (PthreadJoin t) tr.
Proof.
  intros Hbefore Hposts Hdisp tr.
  destruct (before_dispatch_spec env opts st0 Hbefore)
    as (Hwf & Hdev & Hcalls & Hthread & _ & Hsetup).
  pose proof (in_all_types t) as Hin.
  pose proof (dps_inside _ _ _ _ _ Hposts t Hin) as Hslot.
  assert (Hstarted : started env t st0 = false)
    by (unfold started; by rewrite Hdisp).
  destruct (final_slots env st0 st1 evs t Hdev Hcalls Hposts) as [Hd Hc].
  rewrite Hstarted in Hd, Hc.
  destruct (join_events_spec st1) as [Hjoins Hjoined].
  destruct (report_events_spec (display_func st0) (dev st1)) as [Hreports _].
  split; [exact Hc|]. split; [exact Hd|]. split.
  - intros b Hb.
    apply in_final_trace in Hb as [[Hb _]|[Hb|[[Hb _]|[Hb _]]]];
      try done.
    apply (sr_created _ _ _ _ _ Hslot) in Hb as [Hb _]. congruence.
  - intros Hj.
    apply in_final_trace in Hj as [[Hj _]|[Hj|[[_ Hj]|[Hj _]]]];
      try done.
    + pose proof (dps_events _ _ _ _ _ Hposts) as Hevs.
      rewrite Forall_forall in Hevs.
      by apply list_elem_of_In, Hevs in Hj.
    + apply Hjoined in Hj. unfold joined in Hj.
      rewrite (sr_thread _ _ _ _ _ Hslot), Hstarted, Hthread in Hj.
      simpl in Hj. by rewrite andb_false_r in Hj.
Qed.

(** The calls and the slot of a protocol whose thread is started. *)
Lemma started_spec env opts st0 st1 evs t :
  before_dispatch env opts = Some st0 ->
  dispatch_posts env all_types st0 st1 evs ->
  started env t st0 = true ->
  calls st1 t = expected_calls t st0
  /\ dev st1 t = expected_dev env t st0
  /\ In (PthreadCreate t true) evs.
Proof.
  intros Hbefore Hposts Hstarted.
  destruct (before_dispatch_spec env opts st0 Hbefore)
    as (_ & Hdev & Hcalls & _).
  destruct (final_slots env st0 st1 evs t Hdev Hcalls Hposts) as [Hd Hc].
  rewrite Hstarted in Hd, Hc. split; [exact Hc|]. split; [exact Hd|].
  apply (sr_created _ _ _ _ _ (dps_inside _ _ _ _ _ Hposts t (in_all_types t))).
  unfold started in *. apply andb_true_iff in Hstarted as [-> ->]. done.
Qed.

(** C3.  When the registry holds no range as the scans are started, [main]
    goes on to the report and returns EXIT_SUCCESS, and:
    - the XML/HTTP scan, when requested, available and started, calls its
      probe exactly once, without a range (the broadcast probe), and so does
      the IPMI scan (the probe of the local device);
    - the SNMP scan and the old NUT scan, when requested and available, are
      skipped: the line that says so is logged, the capability flag is
      cleared, no thread is created or joined, no probe is called and the
      slot stays NULL. *)
Theorem empty_registry_dispatch
  (env : environment) (opts : list cli_opt) (st0 : state) :
  before_dispatch env opts = Some st0 ->
  registry_ranges (reg st0) = Some [] ->
  exists stf,
    main env opts = Some (EXIT_SUCCESS, stf)
    /\ (allow st0 TYPE_XML = true -> nutscan_avail st0 TYPE_XML = true ->
        pthread_create_rc env TYPE_XML = 0 ->
        calls stf TYPE_XML = [nutscan_scan_xml_http_range None None]
        /\ dev stf TYPE_XML
           = nutscan_scan env (nutscan_scan_xml_http_range None None))
    /\ (allow st0 TYPE_IPMI = true -> nutscan_avail st0 TYPE_IPMI = true ->
        pthread_create_rc env TYPE_IPMI = 0 ->
        calls stf TYPE_IPMI = [nutscan_scan_ipmi None None]
        /\ dev stf TYPE_IPMI = nutscan_scan env (nutscan_scan_ipmi None None))
    /\ (forall t,
          needs_ranges t = true ->
          allow st0 t = true -> nutscan_avail st0 t = true ->
          In (Debug (quiet st0) (no_range_msg t)) (trace stf)
          /\ nutscan_avail stf t = false
          /\ calls stf t = [] /\ dev stf t = None
          /\ (forall b, ~ In (PthreadCreate t b) (trace stf))
          /\ ~ In (PthreadJoin t) (trace stf))
    /\ List.filter is_display (trace stf)
       = map (fun t => Display (display_func st0) t (dev stf t)) all_types.
Proof.
  intros Hbefore Hempty.
  destruct (before_dispatch_spec env opts st0 Hbefore)
    as (Hwf & Hdev & Hcalls & Hthread & _ & Hsetup).
  destruct (registry_ranges_nil _ Hwf Hempty) as [Hheap Hcount].
  destruct (main_run env opts st0 Hbefore) as (st1 & evs & _ & Hposts & Hmain).
  eexists. split; [exact Hmain|]. final_state.
  split; [|split; [|split]].
  - intros Hallow Havail Hrc.
    destruct (started_spec env opts st0 st1 evs TYPE_XML Hbefore Hposts)
      as (-> & -> & _).
    { unfold started, dispatched. rewrite Hallow, Havail. simpl.
      by apply bool_decide_eq_true_2. }
    unfold expected_dev, expected_calls. by rewrite Hheap.
  - intros Hallow Havail Hrc.
    destruct (started_spec env opts st0 st1 evs TYPE_IPMI Hbefore Hposts)
      as (-> & -> & _).
    { unfold started, dispatched. rewrite Hallow, Havail. simpl.
      by apply bool_decide_eq_true_2. }
    unfold expected_dev, expected_calls. by rewrite Hheap.
  - intros t Hneeds Hallow Havail.
    assert (Hdisp : dispatched t st0 = false).
    { unfold dispatched. rewrite Hneeds, Hcount. simpl.
      by rewrite andb_false_r. }
    pose proof (dps_inside _ _ _ _ _ Hposts t (in_all_types t)) as Hslot.
    destruct (not_dispatched_spec env opts st0 st1 evs t Hbefore Hposts Hdisp)
      as (Hc & Hd & Hcreate & Hjoin).
    split; [|split; [|done]].
    + rewrite !in_app_iff. right; left.
      apply (sr_no_range _ _ _ _ _ Hslot); [|done|done].
      by rewrite Hallow, Havail.
    + rewrite (sr_avail _ _ _ _ _ Hslot). unfold started.
      rewrite Hdisp, Hallow, Havail. by destruct t.
  - rewrite !app_assoc, <- (app_assoc _ (report_events _ _)).
    rewrite List.filter_app, (proj2 (report_events_spec _ _)).
    rewrite filter_none; [done|].
    rewrite !Forall_app. split; [split|].
    + eapply Forall_impl; [exact Hsetup|]. intros e He.
      by apply setup_event_classes.
    + eapply Forall_impl; [exact (dps_events _ _ _ _ _ Hposts)|].
      apply dispatch_event_display.
    + eapply Forall_impl; [exact (proj1 (join_events_spec st1))|].
      apply join_event_display.
Qed.

Lemma parse_options_app pre rest st :
  parse_options (pre ++ rest) st
  = match parse_options pre st with
    | Continue st' => parse_options rest st'
    | Return code st' => Return code st'
    end.
Proof.
  revert st. induction pre as [|o pre IH]; intros st; simpl; [done|].
  destruct (process_option o st); [apply IH | done].
Qed.

Lemma expected_calls_nonempty t st :
  reg_wf (reg st) -> dispatched t st = true -> expected_calls t st <> [].
Proof.
  intros Hwf Hdisp.
  assert (Hranges : needs_ranges t = true -> heap (reg st) <> []).
  { intros Hneeds Hnil. unfold dispatched in Hdisp.
    rewrite Hneeds, (wf_count _ Hwf), Hnil in Hdisp. simpl in Hdisp.
    by rewrite andb_false_r in Hdisp. }
  unfold expected_calls.
  destruct t; try done; try specialize (Hranges eq_refl);
    by destruct (heap (reg st)).
Qed.

(** C4 (as amended).  For a protocol with a capability flag whose
    capability was not found:
    - the option of the protocol itself (-U, -S, -M, -A, -I) ends the run
      where it is read: the usage text and a warning are printed, [main]
      returns, and no scan is started, of this protocol or of any other;
    - when the protocol is requested otherwise (complete scan, no scan type
      at all, or -O and -n, which test nothing), [main] logs that the scan is
      skipped, creates and joins no thread for it, calls no probe for it and
      reports its slot as NULL, and goes on: every other protocol that it
      comes to start and whose thread is started has its probe called and
      its result reported, and [main] returns EXIT_SUCCESS. *)
Theorem unavailable_protocol
  (env : environment) (opts : list cli_opt) (t : scan_type) :
  detected_avail env t = false ->
  avail_checked t = true ->
  (forall pre post o st,
      checked_option t = Some o ->
      opts = pre ++ o :: post ->
      parse_options pre (init_nofile_limit env (initial_state env))
      = Continue st ->
      main env opts
      = Some (EXIT_SUCCESS, emit (Stderr usage_warning) (emit Usage st))
      /\ calls st = (fun _ => [])
      /\ Forall setup_event (trace st))
  /\ (forall st0,
        before_dispatch env opts = Some st0 ->
        allow st0 t = true ->
        exists stf,
          main env opts = Some (EXIT_SUCCESS, stf)
          /\ In (Debug 1 (skipped_msg t)) (trace stf)
          /\ calls stf t = [] /\ dev stf t = None
          /\ (forall b, ~ In (PthreadCreate t b) (trace stf))
          /\ ~ In (PthreadJoin t) (trace stf)
          /\ In (Display (display_func st0) t None) (trace stf)
          /\ forall t',
               started env t' st0 = true ->
               calls stf t' = expected_calls t' st0
               /\ calls stf t' <> []
               /\ dev stf t' = expected_dev env t' st0
               /\ In (PthreadCreate t' true) (trace stf)
               /\ In (Display (display_func st0) t'
                        (expected_dev env t' st0)) (trace stf)).
Proof.
  intros Hunavail Hchecked. split.
  - intros pre post o st Ho -> Hpre.
    pose proof (parse_options_effect _ _ _ Hpre) as [_ Hcalls _ Havail Htrace].
    destruct (init_nofile_limit_fields env)
      as (_ & _ & _ & _ & _ & _ & Havail0 & _ & Hcalls0 & _).
    split; [|split].
    + unfold main. rewrite parse_options_app, Hpre. simpl.
      assert (Hflag : nutscan_avail st t = false) by congruence.
      destruct t; try discriminate Ho; injection Ho as <-; simpl;
        unfold allow_if_avail; rewrite Hflag; reflexivity.
    + congruence.
    + destruct Htrace as (evs & -> & Hevs). apply Forall_app. split; [|done].
      apply init_nofile_limit_trace.
  - intros st0 Hbefore Hallow.
    destruct (before_dispatch_spec env opts st0 Hbefore)
      as (Hwf & Hdev & Hcalls & Hthread & Havail & Hsetup).
    destruct (main_run env opts st0 Hbefore) as (st1 & evs & _ & Hposts & Hmain).
    assert (Hflag : nutscan_avail st0 t = false) by congruence.
    assert (Hdisp : dispatched t st0 = false).
    { unfold dispatched. by rewrite Hallow, Hflag, Hchecked. }
    pose proof (dps_inside _ _ _ _ _ Hposts t (in_all_types t)) as Hslot.
    destruct (not_dispatched_spec env opts st0 st1 evs t Hbefore Hposts Hdisp)
      as (Hc & Hd & Hcreate & Hjoin).
    assert (Hdisplay : forall t',
      In (Display (display_func st0) t' (dev st1 t'))
        (report_events (display_func st0) (dev st1))).
    { intros t'. unfold report_events. right. apply in_concat.
      exists (report_events_of (display_func st0) (dev st1) t').
      split; [|simpl; auto].
      apply in_map, list_elem_of_In, in_all_types. }
    eexists. split; [exact Hmain|]. final_state.
    split; [|split; [done|split; [done|split; [done|split; [done|split]]]]].
    + rewrite !in_app_iff. right; left.
      apply (sr_skipped _ _ _ _ _ Hslot).
      by rewrite Hallow, Hflag, Hchecked.
    + rewrite !in_app_iff. right; right; right; left.
      rewrite <- Hd. apply Hdisplay.
    + intros t' Hstarted.
      destruct (started_spec env opts st0 st1 evs t' Hbefore Hposts Hstarted)
        as (Hc' & Hd' & Hcreated).
      split; [exact Hc'|]. split; [|split; [exact Hd'|split]].
      * rewrite Hc'. apply expected_calls_nonempty; [exact Hwf|].
        unfold started in Hstarted. by apply andb_true_iff in Hstarted as [? _].
      * rewrite !in_app_iff. by right; left.
      * rewrite !in_app_iff. right; right; right; left.
        rewrite <- Hd'. apply Hdisplay.
Qed.

(** ** The scans that are requested *)

Lemma process_option_allow o st st' :
  process_option o st = Continue st' ->
  (forall t, allow st' t = allow st t || requests o t)
  /\ allow_all st' = allow_all st || is_Opt_C o.
Proof.
  destruct (is_endpoint_opt o) eqn:Hend.
  - (* -s and -e *)
    intros Hstep.
    assert (allow st' = allow st /\ allow_all st' = allow_all st) as [-> ->].
    { destruct o; try discriminate Hend; injection Hstep as <-; cbv zeta;
        repeat case_match;
        rewrite ?(proj1 (proj2 (proj2 (flush_range_fields _)))),
          ?(proj1 (proj2 (flush_range_fields _))); simpl;
        rewrite ?(proj1 (proj2 (proj2 (flush_range_fields _)))),
          ?(proj1 (proj2 (flush_range_fields _))); done. }
    destruct o; try discriminate Hend; simpl;
      (split; [intros t|]; by rewrite orb_false_r).
  - destruct o; try discriminate Hend; simpl;
      unfold allow_if_avail, display_help;
      repeat case_decide; repeat case_match; try discriminate;
      intros [= <-]; unfold constrain_to_nofile; try case_decide; simpl;
      (split; [intros t; destruct t; simpl|]);
      by rewrite ?orb_false_r, ?orb_true_r.
Qed.

Lemma parse_options_allow opts st st' :
  parse_options opts st = Continue st' ->
  (forall t, allow st' t = allow st t || existsb (fun o => requests o t) opts)
  /\ allow_all st' = allow_all st || existsb is_Opt_C opts.
Proof.
  revert st. induction opts as [|o opts IH]; intros st; simpl.
  - intros [= <-]. split; [intros t|]; by rewrite orb_false_r.
  - destruct (process_option o st) as [st1|] eqn:Hstep; [|discriminate].
    intros Hrun. destruct (IH _ Hrun) as [Hallow Hall].
    destruct (process_option_allow _ _ _ Hstep) as [Hallow1 Hall1].
    split; [intros t; rewrite Hallow, Hallow1|rewrite Hall, Hall1];
      by rewrite orb_assoc.
Qed.

Lemma resolve_allow_allow st t :
  allow (resolve_allow st) t
  = if allow_all st || none_allowed st
    then (if decide (t = TYPE_EATON_SERIAL) then allow st t else true)
    else allow st t.
Proof.
  unfold resolve_allow. fold (none_allowed st).
  destruct (none_allowed st) eqn:Hnone; simpl.
  - rewrite orb_true_r. destruct t; try case_decide; reflexivity.
  - rewrite orb_false_r. destruct (allow_all st); [|done].
    destruct t; try case_decide; reflexivity.
Qed.

Lemma none_allowed_spec st :
  none_allowed st = true <-> forall t, allow st t = false.
Proof.
  unfold none_allowed. rewrite !andb_true_iff, !negb_true_iff. split.
  - intros [[[[[[[? ?] ?] ?] ?] ?] ?] ?] t. by destruct t.
  - intros H. repeat split; apply H.
Qed.

Lemma init_semaphore_set_allow_all b st :
  init_semaphore (set_allow_all b st) = set_allow_all b (init_semaphore st).
Proof. unfold init_semaphore. simpl. case_decide; reflexivity. Qed.

Lemma flush_pending_set_allow_all b st :
  flush_pending (set_allow_all b st) = set_allow_all b (flush_pending st).
Proof.
  unfold flush_pending, flush_range, add_ip_range. simpl.
  destruct (pend_start_ip st), (pend_end_ip st); reflexivity.
Qed.

Lemma resolve_allow_set_allow_all st :
  none_allowed st = true ->
  resolve_allow (set_allow_all true st) = resolve_allow st.
Proof.
  intros Hnone. destruct st. unfold none_allowed in Hnone. simpl in Hnone.
  unfold resolve_allow. simpl. rewrite Hnone. reflexivity.
Qed.

Lemma existsb_requests_none opts :
  existsb is_scan_type_opt opts = false ->
  forall t, existsb (fun o => requests o t) opts = false.
Proof.
  intros Hnone t. induction opts as [|o opts IH]; [done|]. simpl in *.
  apply orb_false_iff in Hnone as [Ho Hopts]. rewrite (IH Hopts), orb_false_r.
  unfold is_scan_type_opt in Ho. destruct o, t; simpl in *; congruence.
Qed.

(** C10.  When the option loop ends without leaving:
    - if no scan type was requested (none of -U -S -M -O -n -A -I -E), every
      protocol but the Eaton serial scan is enabled, and the run is the one of
      the same options followed by -C: the same state as the scans are
      started, the same result of [main];
    - the Eaton serial scan is enabled exactly when an -E option was given;
      -C enables every other protocol, and not this one. *)
Theorem implicit_complete_scan
  (env : environment) (opts : list cli_opt) (st0 : state) :
  before_dispatch env opts = Some st0 ->
  (existsb is_scan_type_opt opts = false ->
   (forall t, allow st0 t = negb (bool_decide (t = TYPE_EATON_SERIAL)))
   /\ before_dispatch env (opts ++ [Opt_C]) = Some st0
   /\ main env (opts ++ [Opt_C]) = main env opts)
  /\ allow st0 TYPE_EATON_SERIAL = existsb is_Opt_E opts
  /\ (existsb is_Opt_C opts = true ->
      forall t, t <> TYPE_EATON_SERIAL -> allow st0 t = true).
Proof.
  unfold before_dispatch.
  destruct (parse_options opts _) as [st|] eqn:Hparse; [|discriminate].
  intros [= <-].
  destruct (parse_options_allow _ _ _ Hparse) as [Hallow Hall].
  destruct (init_nofile_limit_fields env)
    as (_ & _ & _ & _ & Hall0 & Hallow0 & _).
  rewrite Hallow0 in Hallow. rewrite Hall0 in Hall. simpl in Hallow, Hall.
  assert (Hflags : forall t,
    allow (flush_pending (init_semaphore st)) t = allow st t).
  { intros t.
    rewrite (proj1 (proj2 (proj2 (flush_pending_fields _)))).
    by rewrite (proj1 (proj2 (proj2 (proj2 (proj2 (proj2
                  (init_semaphore_fields _))))))). }
  assert (Hflag_all :
    allow_all (flush_pending (init_semaphore st)) = allow_all st).
  { rewrite (proj1 (proj2 (flush_pending_fields _))).
    by rewrite (proj1 (proj2 (proj2 (proj2 (proj2
                  (init_semaphore_fields _)))))). }
  split; [|split].
  - intros Hnone.
    pose proof (existsb_requests_none opts Hnone) as Hreq.
    assert (Hnone_st : none_allowed st = true).
    { apply none_allowed_spec. intros t. by rewrite Hallow, Hreq. }
    assert (Hnone' : none_allowed (flush_pending (init_semaphore st)) = true).
    { apply none_allowed_spec. intros t. rewrite Hflags.
      by apply none_allowed_spec. }
    split; [|split].
    + intros t. rewrite resolve_allow_allow, Hnone', orb_true_r, Hflags.
      case_decide as Ht.
      * rewrite (bool_decide_eq_true_2 _ Ht), Hallow, Hreq. done.
      * by rewrite (bool_decide_eq_false_2 _ Ht).
    + rewrite parse_options_app, Hparse. simpl.
      rewrite init_semaphore_set_allow_all, flush_pending_set_allow_all.
      by rewrite resolve_allow_set_allow_all.
    + unfold main, scan_and_report. rewrite parse_options_app, Hparse. simpl.
      rewrite init_semaphore_set_allow_all, flush_pending_set_allow_all.
      by rewrite resolve_allow_set_allow_all.
  - rewrite resolve_allow_allow, Hflags, Hallow.
    rewrite decide_True by done.
    assert (Hsame : existsb (fun o => requests o TYPE_EATON_SERIAL) opts
                    = existsb is_Opt_E opts).
    { clear. induction opts as [|o opts IH]; [done|]. simpl. rewrite IH.
      by destruct o. }
    rewrite Hsame. by destruct (_ || _).
  - intros HC t Ht.
    rewrite resolve_allow_allow, Hflag_all, Hall, HC. simpl.
    by rewrite decide_False.
Qed.

(** ** The USB link detail level *)

Lemma process_option_level o st st' :
  process_option o st = Continue st' ->
  cli_link_detail_level st'
  = if is_Opt_U o && bool_decide (cli_link_detail_level st < 3)
    then cli_link_detail_level st + 1
    else cli_link_detail_level st.
Proof.
  destruct (is_endpoint_opt o) eqn:Hend.
  - intros Hstep.
    assert (cli_link_detail_level st' = cli_link_detail_level st) as ->.
    { destruct o; try discriminate Hend; injection Hstep as <-; cbv zeta;
        repeat case_match;
        rewrite ?(proj1 (flush_range_fields _)); simpl;
        rewrite ?(proj1 (flush_range_fields _)); done. }
    by destruct o.
  - destruct o; try discriminate Hend; simpl;
      unfold allow_if_avail, display_help;
      rewrite ?decide_bool_decide;
      repeat case_match; try discriminate;
      intros [= <-]; unfold constrain_to_nofile;
      try destruct (decide (max_threads _ > _)); done.
Qed.

Lemma resolve_allow_level st :
  cli_link_detail_level (resolve_allow st)
  = if (allow_all st || none_allowed st)
       && bool_decide (cli_link_detail_level st < 0)
    then cli_link_detail_level st + 1
    else cli_link_detail_level st.
Proof.
  unfold resolve_allow. fold (none_allowed st).
  destruct (none_allowed st); simpl; rewrite ?orb_true_r, ?orb_false_r;
    [|destruct (allow_all st); [|done]]; simpl;
    rewrite decide_bool_decide; by case_match.
Qed.

Lemma parse_options_level opts :
  forall st st',
    parse_options opts st = Continue st' ->
    -1 <= cli_link_detail_level st <= 3 ->
    cli_link_detail_level st'
    = Z.min 3 (cli_link_detail_level st
               + Z.of_nat (length (List.filter is_Opt_U opts))).
Proof.
  induction opts as [|o opts IH]; intros st st' Hrun Hrange; simpl in *.
  - injection Hrun as <-. lia.
  - destruct (process_option o st) as [st1|] eqn:Hstep; [|discriminate].
    pose proof (process_option_level _ _ _ Hstep) as Hlevel.
    rewrite (IH _ _ Hrun); rewrite Hlevel;
      destruct (is_Opt_U o); simpl; try case_bool_decide; simpl length; lia.
Qed.

(** C6.  Along the options that the loop has read, the USB link detail
    level starts at -1 and stays between -1 and 3: it is the number of -U
    options read so far minus one, and 3 from the fourth -U on.  The next
    option never lowers it and raises it by one at most, a -U by exactly one
    below 3 and not at all at 3; so does the enabling of the USB scan by a
    complete scan, which raises it from -1 to 0 only. *)
Theorem usb_link_detail_level_saturates
  (env : environment) (opts : list cli_opt) (st : state)
  (o : cli_opt) (st' : state) :
  parse_options opts (init_nofile_limit env (initial_state env))
  = Continue st ->
  -1 <= cli_link_detail_level st <= 3
  /\ cli_link_detail_level st
     = Z.min 3 (Z.of_nat (length (List.filter is_Opt_U opts)) - 1)
  /\ (process_option o st = Continue st' ->
      cli_link_detail_level st <= cli_link_detail_level st'
                               <= cli_link_detail_level st + 1
      /\ cli_link_detail_level st' <= 3
      /\ (is_Opt_U o = true ->
          cli_link_detail_level st'
          = Z.min 3 (cli_link_detail_level st + 1)))
  /\ (let st0 := resolve_allow (flush_pending (init_semaphore st)) in
      cli_link_detail_level st <= cli_link_detail_level st0
                               <= cli_link_detail_level st + 1
      /\ cli_link_detail_level st0 <= 3
      /\ (0 <= cli_link_detail_level st ->
          cli_link_detail_level st0 = cli_link_detail_level st)).
Proof.
  intros Hparse.
  destruct (init_nofile_limit_fields env) as (_ & _ & _ & Hlevel0 & _).
  pose proof (parse_options_level _ _ _ Hparse) as Hlevel.
  rewrite Hlevel0 in Hlevel. specialize (Hlevel ltac:(lia)).
  assert (Hrange : -1 <= cli_link_detail_level st <= 3) by lia.
  split; [exact Hrange|]. split; [lia|]. split.
  - intros Hstep. rewrite (process_option_level _ _ _ Hstep).
    destruct (is_Opt_U o); simpl; try case_bool_decide;
      repeat split; try lia; discriminate.
  - simpl. rewrite resolve_allow_level.
    rewrite (proj1 (flush_pending_fields _)).
    rewrite (proj1 (proj2 (proj2 (proj2 (init_semaphore_fields _))))).
    destruct (_ || _); simpl; try case_bool_decide; lia.
Qed.

(** ** The number of threads *)

Lemma to_size_t_small z : 0 <= z < 2 ^ 64 -> to_size_t z = z.
Proof. intros H. unfold to_size_t. by apply Z.mod_small. Qed.

Lemma to_size_t_range z : 0 <= to_size_t z <= SIZE_MAX.
Proof.
  unfold to_size_t, SIZE_MAX.
  pose proof (Z.mod_pos_bound z (2 ^ 64) ltac:(lia)). lia.
Qed.

Lemma flush_range_nofile st :
  nofile_rlim_cur (flush_range st) = nofile_rlim_cur st.
Proof.
  unfold flush_range, add_ip_range.
  destruct (pend_start_ip st), (pend_end_ip st); reflexivity.
Qed.

Lemma process_option_nofile o st st' :
  process_option o st = Continue st' ->
  nofile_rlim_cur st' = nofile_rlim_cur st.
Proof.
  destruct (is_endpoint_opt o) eqn:Hend.
  - intros Hstep.
    destruct o; try discriminate Hend; injection Hstep as <-; cbv zeta;
      repeat case_match;
      rewrite ?flush_range_nofile; simpl; rewrite ?flush_range_nofile; done.
  - destruct o; try discriminate Hend; simpl;
      unfold allow_if_avail, display_help;
      rewrite ?decide_bool_decide;
      repeat case_match; try discriminate;
      intros [= <-]; unfold constrain_to_nofile;
      try destruct (decide (max_threads _ > _)); done.
Qed.

Lemma parse_options_nofile opts st st' :
  parse_options opts st = Continue st' ->
  nofile_rlim_cur st' = nofile_rlim_cur st.
Proof.
  revert st. induction opts as [|o opts IH]; intros st; simpl.
  - by intros [= <-].
  - destruct (process_option o st) as [st1|] eqn:Hstep; [|discriminate].
    intros Hrun. rewrite (IH _ Hrun). by eapply process_option_nofile.
Qed.

Lemma init_nofile_limit_cur env :
  0 <= nofile_rlim_cur (init_nofile_limit env (initial_state env)) <= SIZE_MAX.
Proof.
  unfold init_nofile_limit. destruct (getrlimit env) as [[cur mx]|]; simpl.
  - case_decide; unfold constrain_to_nofile; simpl; [case_decide|]; simpl;
      apply to_size_t_range.
  - unfold SIZE_MAX. lia.
Qed.

(** C5 (as amended).  For the option -T read in a state that the option
    loop reaches, with [cur] the soft limit on open file descriptors (0
    when it is not known):
    - a value that is a whole number, positive and in the range of [long],
      and greater than [cur - 3], is replaced by [cur - 3], with two debug
      lines and a warning on the error stream, when [cur] is greater than 4
      and is not the largest value of its type;
    - such a value is taken as it is when [cur] is at most 3, or is the
      largest value of its type, or when the value is at most [cur - 3];
    - a value that is followed by other text, or is not positive, or is not
      below SIZE_MAX, is refused with a warning and [max_threads] is left as
      it was;
    - the number handed to [sem_init] is never above UINT_MAX: a
      [max_threads] above UINT_MAX is replaced by UINT_MAX - 1 with a warning,
      any other is handed over as it is. *)
Theorem thread_ceiling
  (env : environment) (opts : list cli_opt) (st : state)
  (val : Z) (endptr : string) :
  parse_options opts (init_nofile_limit env (initial_state env))
  = Continue st ->
  let cur := nofile_rlim_cur st in
  (endptr = EmptyString -> 0 < val < 2 ^ 63 ->
   4 < cur < SIZE_MAX -> cur - RESERVE_FD_COUNT < val ->
   process_option (Opt_T val endptr) st
   = Continue
       (emit (Stderr thread_limit_warning)
          (set_max_threads (cur - RESERVE_FD_COUNT)
             (upsdebugx 1 "Detected hard limit for file descriptor count is %ju"
                (upsdebugx 1
                   "Detected soft limit for file descriptor count is %ju"
                   st)))))
  /\ (endptr = EmptyString -> 0 < val < 2 ^ 63 ->
      cur <= RESERVE_FD_COUNT \/ cur = SIZE_MAX
      \/ val <= cur - RESERVE_FD_COUNT ->
      process_option (Opt_T val endptr) st
      = Continue (set_max_threads val st))
  /\ (endptr <> EmptyString \/ val <= 0 \/ SIZE_MAX <= to_size_t val ->
      process_option (Opt_T val endptr) st
      = Continue (emit (Stderr thread_range_warning) st))
  /\ max_threads (init_semaphore st) <= UINT_MAX
  /\ last (trace (init_semaphore st))
     = Some (SemInit (to_uint (max_threads (init_semaphore st))))
  /\ (UINT_MAX < max_threads st ->
      max_threads (init_semaphore st) = UINT_MAX - 1
      /\ In (Stderr semaphore_warning) (trace (init_semaphore st)))
  /\ (max_threads st <= UINT_MAX ->
      max_threads (init_semaphore st) = max_threads st).
Proof.
  intros Hparse cur.
  assert (Hcur : 0 <= cur <= SIZE_MAX).
  { unfold cur. rewrite (parse_options_nofile _ _ _ Hparse).
    apply init_nofile_limit_cur. }
  split; [|split; [|split; [|split; [|split; [|split]]]]].
  - intros -> Hval Hlimit Habove. simpl.
    assert (Hv : to_size_t val = val)
      by (apply to_size_t_small; limits).
    assert (Hc : to_size_t (cur - RESERVE_FD_COUNT) = cur - RESERVE_FD_COUNT)
      by (apply to_size_t_small; limits).
    assert (Hc0 : to_size_t cur = cur)
      by (apply to_size_t_small; limits).
    fold cur. rewrite Hv, Hc.
    rewrite decide_True by limits.
    rewrite decide_True by limits.
    unfold constrain_to_nofile. simpl. fold cur. rewrite Hc0.
    rewrite decide_True by limits.
    rewrite Hc. reflexivity.
  - intros -> Hval Hcase. simpl.
    assert (Hv : to_size_t val = val)
      by (apply to_size_t_small; limits).
    fold cur. rewrite Hv.
    rewrite decide_True by limits.
    rewrite decide_False; [reflexivity|].
    intros (H1 & H2 & H3 & H4).
    assert (Hc : to_size_t (cur - RESERVE_FD_COUNT) = cur - RESERVE_FD_COUNT)
      by (apply to_size_t_small; limits).
    rewrite Hc in H4. unfold_limits. lia.
  - intros Hcase. simpl. rewrite decide_False; [reflexivity|].
    intros (H1 & H2 & H3). unfold_limits. destruct Hcase as [?|[?|?]]; [done|lia|lia].
  - unfold init_semaphore. simpl. case_decide; simpl; unfold_limits; lia.
  - unfold init_semaphore. simpl. case_decide; simpl; by rewrite last_snoc.
  - intros Habove. unfold init_semaphore. simpl.
    rewrite decide_True by limits. simpl.
    split; [reflexivity|]. rewrite !in_app_iff. simpl. auto.
  - intros Hbelow. unfold init_semaphore. simpl.
    rewrite decide_False by limits. reflexivity.
Qed.

(** * Sample runs *)

(** Two single-address ranges, -s 10.0.0.1 -s 10.0.0.2, and the SNMP scan:
    the probe is called for the first range and then for the second, and the
    device found in the second range is reported before the device found in
    the first, where C1 has the devices of an earlier range come first. *)
Lemma later_range_reported_first :
  observe_slot TYPE_SNMP
    (main sample_env [Opt_s "10.0.0.1"; Opt_s "10.0.0.2"; Opt_S])
  = Some ([ nutscan_scan_snmp (Some "10.0.0.1") (Some "10.0.0.1");
            nutscan_scan_snmp (Some "10.0.0.2") (Some "10.0.0.2") ],
          [ Device "snmp-ups" "10.0.0.2"; Device "snmp-ups" "10.0.0.1" ])
  /\ [ Device "snmp-ups" "10.0.0.2"; Device "snmp-ups" "10.0.0.1" ]
     <> [ Device "snmp-ups" "10.0.0.1"; Device "snmp-ups" "10.0.0.2" ].
Proof. split; [vm_compute; reflexivity | discriminate]. Qed.

(** Without the SNMP capability, -n -S prints the usage text and returns
    without any scan, where C4 has the run go on with the simulation scan
    that was requested; -n alone runs that scan. *)
Lemma explicit_request_stops_run :
  observe (main no_snmp_env [Opt_n; Opt_S])
  = Some (EXIT_SUCCESS, [Usage; Stderr usage_warning],
          map (fun t => (t, [], [])) all_types)
  /\ observe_slot TYPE_NUT_SIMULATION (main no_snmp_env [Opt_n])
     = Some ([nutscan_scan_nut_simulation],
             [Device "dummy-ups" "sample.dev"]).
Proof. split; vm_compute; reflexivity. Qed.

(** With a soft limit of 3 descriptors, -T 100 asks for more than the limit
    minus the reservation, which is 0, and is taken as it is, without a
    warning; and when the limit is not known, -T 4294967295 hands UINT_MAX to
    [sem_init]: C5 has the first reduced to the bound and the second at most
    UINT_MAX - 1. *)
Lemma explicit_ceiling_not_reduced :
  (observe_threads (main (limited_env 3) [Opt_T 100 EmptyString]) = Some (100, [100])
   /\ observe_stderr (main (limited_env 3) [Opt_T 100 EmptyString]) = Some []
   /\ 100 > 3 - RESERVE_FD_COUNT)
  /\ (observe_threads (main unlimited_env [Opt_T 4294967295 EmptyString])
      = Some (4294967295, [4294967295])
      /\ 4294967295 > UINT_MAX - 1).
Proof. repeat split; vm_compute; reflexivity. Qed.

(** With a soft limit of 4 descriptors the value is not reduced either:
    -T 2 ends with 4 threads, under a warning that says it was constrained. *)
Example soft_limit_of_four :
  observe_threads (main (limited_env 4) [Opt_T 2 EmptyString]) = Some (4, [4])
  /\ observe_stderr (main (limited_env 4) [Opt_T 2 EmptyString])
     = Some [thread_limit_warning].
Proof. split; vm_compute; reflexivity. Qed.

(** * Instances *)

Lemma two_ranges_state_wf : reg_wf (reg two_ranges_state).
Proof.
  apply (before_dispatch_spec sample_env
           [Opt_s "10.0.0.1"; Opt_s "10.0.0.2"; Opt_S] two_ranges_state).
  vm_compute. reflexivity.
Qed.

Lemma range_results_accumulated_witness :
  In (TYPE_SNMP, run_snmp, nutscan_scan_snmp) range_scoped
  /\ reg_wf (reg two_ranges_state)
  /\ registry_ranges (reg two_ranges_state) = Some two_ranges
  /\ two_ranges <> []
  /\ (length (heap (reg two_ranges_state)) <= 2)%nat
  /\ let results :=
       map (fun r => nutscan_scan sample_env (range_call nutscan_scan_snmp r))
         two_ranges in
     exists st',
       run_snmp sample_env 2 two_ranges_state = Some st'
       /\ calls st' TYPE_SNMP
          = calls two_ranges_state TYPE_SNMP
            ++ map (range_call nutscan_scan_snmp) two_ranges
       /\ dev st' TYPE_SNMP = accumulate None results
       /\ (forall pre n post,
              results = pre ++ Some n :: post ->
              Forall (fun r => r = None) pre ->
              dev st' TYPE_SNMP = accumulate (Some n) post)
       /\ device_list (dev st' TYPE_SNMP)
          = concat (rev (map device_list results))
       /\ (forall i n,
              results !! i = Some (Some n) -> (S i < length results)%nat ->
              dev st' TYPE_SNMP = at_head (device_list (dev st' TYPE_SNMP)))
       /\ (Forall (fun r => r = None) results -> dev st' TYPE_SNMP = None)
       /\ thread_effect TYPE_SNMP two_ranges_state st'.
Proof.
  split; [left; reflexivity|]. split; [exact two_ranges_state_wf|].
  split; [vm_compute; reflexivity|]. split; [discriminate|].
  split; [vm_compute; lia|].
  apply (range_results_accumulated sample_env TYPE_SNMP run_snmp
           nutscan_scan_snmp 2 two_ranges_state two_ranges).
  - left; reflexivity.
  - exact two_ranges_state_wf.
  - vm_compute; reflexivity.
  - discriminate.
  - vm_compute; lia.
Defined.

Lemma add_ip_range_single_endpoint_witness :
  reg_wf (reg (initial_state sample_env))
  /\ registry_ranges (reg (initial_state sample_env)) = Some []
  /\ ip_ranges_count (reg (initial_state sample_env)) < SIZE_MAX
  /\ ((Some "192.0.2.7" = Some "192.0.2.7" /\ @None string = None)
      \/ (Some "192.0.2.7" = @None string /\ @None string = Some "192.0.2.7"))
  /\ registry_ranges
       (reg (add_ip_range (Some "192.0.2.7") None (initial_state sample_env)).2)
     = Some ([] ++ [(Some "192.0.2.7", Some "192.0.2.7")])
  /\ (add_ip_range (Some "192.0.2.7") None (initial_state sample_env)).1
     = ip_ranges_count (reg (initial_state sample_env)) + 1
  /\ ip_ranges_count
       (reg (add_ip_range (Some "192.0.2.7") None (initial_state sample_env)).2)
     = ip_ranges_count (reg (initial_state sample_env)) + 1
  /\ reg_wf
       (reg (add_ip_range (Some "192.0.2.7") None (initial_state sample_env)).2).
Proof.
  split; [exact empty_registry_wf|]. split; [reflexivity|].
  split; [reflexivity|]. split; [left; split; reflexivity|].
  apply (add_ip_range_single_endpoint "192.0.2.7" (Some "192.0.2.7") None
           (initial_state sample_env) []).
  - exact empty_registry_wf.
  - reflexivity.
  - reflexivity.
  - left; split; reflexivity.
Defined.

Lemma empty_registry_dispatch_witness :
  before_dispatch sample_env [Opt_C]
  = Some (state_before_dispatch sample_env [Opt_C])
  /\ registry_ranges (reg (state_before_dispatch sample_env [Opt_C])) = Some []
  /\ exists stf,
       main sample_env [Opt_C] = Some (EXIT_SUCCESS, stf)
       /\ (allow (state_before_dispatch sample_env [Opt_C]) TYPE_XML = true ->
           nutscan_avail (state_before_dispatch sample_env [Opt_C]) TYPE_XML
           = true ->
           pthread_create_rc sample_env TYPE_XML = 0 ->
           calls stf TYPE_XML = [nutscan_scan_xml_http_range None None]
           /\ dev stf TYPE_XML
              = nutscan_scan sample_env (nutscan_scan_xml_http_range None None))
       /\ (allow (state_before_dispatch sample_env [Opt_C]) TYPE_IPMI = true ->
           nutscan_avail (state_before_dispatch sample_env [Opt_C]) TYPE_IPMI
           = true ->
           pthread_create_rc sample_env TYPE_IPMI = 0 ->
           calls stf TYPE_IPMI = [nutscan_scan_ipmi None None]
           /\ dev stf TYPE_IPMI
              = nutscan_scan sample_env (nutscan_scan_ipmi None None))
       /\ (forall t,
             needs_ranges t = true ->
             allow (state_before_dispatch sample_env [Opt_C]) t = true ->
             nutscan_avail (state_before_dispatch sample_env [Opt_C]) t = true ->
             In (Debug (quiet (state_before_dispatch sample_env [Opt_C]))
                   (no_range_msg t)) (trace stf)
             /\ nutscan_avail stf t = false
             /\ calls stf t = [] /\ dev stf t = None
             /\ (forall b, ~ In (PthreadCreate t b) (trace stf))
             /\ ~ In (PthreadJoin t) (trace stf))
       /\ List.filter is_display (trace stf)
          = map (fun t =>
                   Display
                     (display_func (state_before_dispatch sample_env [Opt_C]))
                     t (dev stf t)) all_types.
Proof.
  split; [vm_compute; reflexivity|]. split; [vm_compute; reflexivity|].
  apply (empty_registry_dispatch sample_env [Opt_C]
           (state_before_dispatch sample_env [Opt_C])).
  - vm_compute; reflexivity.
  - vm_compute; reflexivity.
Defined.

Lemma unavailable_protocol_witness :
  detected_avail no_snmp_env TYPE_SNMP = false
  /\ avail_checked TYPE_SNMP = true
  /\ (forall pre post o st,
        checked_option TYPE_SNMP = Some o ->
        [Opt_C] = pre ++ o :: post ->
        parse_options pre (init_nofile_limit no_snmp_env (initial_state no_snmp_env))
        = Continue st ->
        main no_snmp_env [Opt_C]
        = Some (EXIT_SUCCESS, emit (Stderr usage_warning) (emit Usage st))
        /\ calls st = (fun _ => [])
        /\ Forall setup_event (trace st))
  /\ (forall st0,
        before_dispatch no_snmp_env [Opt_C] = Some st0 ->
        allow st0 TYPE_SNMP = true ->
        exists stf,
          main no_snmp_env [Opt_C] = Some (EXIT_SUCCESS, stf)
          /\ In (Debug 1 (skipped_msg TYPE_SNMP)) (trace stf)
          /\ calls stf TYPE_SNMP = [] /\ dev stf TYPE_SNMP = None
          /\ (forall b, ~ In (PthreadCreate TYPE_SNMP b) (trace stf))
          /\ ~ In (PthreadJoin TYPE_SNMP) (trace stf)
          /\ In (Display (display_func st0) TYPE_SNMP None) (trace stf)
          /\ forall t',
               started no_snmp_env t' st0 = true ->
               calls stf t' = expected_calls t' st0
               /\ calls stf t' <> []
               /\ dev stf t' = expected_dev no_snmp_env t' st0
               /\ In (PthreadCreate t' true) (trace stf)
               /\ In (Display (display_func st0) t'
                        (expected_dev no_snmp_env t' st0)) (trace stf)).
Proof.
  split; [reflexivity|]. split; [reflexivity|].
  apply (unavailable_protocol no_snmp_env [Opt_C] TYPE_SNMP); reflexivity.
Defined.

Lemma thread_ceiling_witness :
  parse_options [] (init_nofile_limit sample_env (initial_state sample_env))
  = Continue (state_after_options sample_env [])
  /\ process_option (Opt_T 5000 EmptyString) (state_after_options sample_env [])
     = Continue
         (emit (Stderr thread_limit_warning)
            (set_max_threads 1021
               (upsdebugx 1 "Detected hard limit for file descriptor count is %ju"
                  (upsdebugx 1
                     "Detected soft limit for file descriptor count is %ju"
                     (state_after_options sample_env []))))).
Proof.
  split; [reflexivity|].
  apply (thread_ceiling sample_env [] (state_after_options sample_env [])
           5000 EmptyString eq_refl); [reflexivity | | | ]; vm_compute; lia || (split; reflexivity).
Defined.

Lemma usb_link_detail_level_saturates_witness :
  parse_options [Opt_U; Opt_U; Opt_U; Opt_U; Opt_U]
    (init_nofile_limit sample_env (initial_state sample_env))
  = Continue (state_after_options sample_env [Opt_U; Opt_U; Opt_U; Opt_U; Opt_U])
  /\ cli_link_detail_level
       (state_after_options sample_env [Opt_U; Opt_U; Opt_U; Opt_U; Opt_U])
     = Z.min 3
         (Z.of_nat
            (length (List.filter is_Opt_U [Opt_U; Opt_U; Opt_U; Opt_U; Opt_U]))
          - 1).
Proof.
  split; [vm_compute; reflexivity|].
  refine (proj1 (proj2
    (usb_link_detail_level_saturates sample_env
       [Opt_U; Opt_U; Opt_U; Opt_U; Opt_U]
       (state_after_options sample_env [Opt_U; Opt_U; Opt_U; Opt_U; Opt_U])
       Opt_U
       (state_after_options sample_env
          [Opt_U; Opt_U; Opt_U; Opt_U; Opt_U; Opt_U]) _))).
  vm_compute; reflexivity.
Defined.

Lemma report_once_per_protocol_witness :
  before_dispatch sample_env [Opt_s "10.0.0.1"; Opt_S; Opt_P]
  = Some (state_before_dispatch sample_env [Opt_s "10.0.0.1"; Opt_S; Opt_P])
  /\ exists stf pre post,
       main sample_env [Opt_s "10.0.0.1"; Opt_S; Opt_P]
       = Some (EXIT_SUCCESS, stf)
       /\ trace stf = pre ++ post
       /\ Forall (fun e => is_display e = false) pre
       /\ Forall (fun e => is_thread_event e = false) post
       /\ List.filter is_display post
          = map (fun t =>
                   Display
                     (display_func
                        (state_before_dispatch sample_env
                           [Opt_s "10.0.0.1"; Opt_S; Opt_P]))
                     t (dev stf t)) all_types
       /\ forall t,
            dev stf t
            = if started sample_env t
                   (state_before_dispatch sample_env
                      [Opt_s "10.0.0.1"; Opt_S; Opt_P])
              then expected_dev sample_env t
                     (state_before_dispatch sample_env
                        [Opt_s "10.0.0.1"; Opt_S; Opt_P])
              else None.
Proof.
  split; [vm_compute; reflexivity|].
  apply (report_once_per_protocol sample_env [Opt_s "10.0.0.1"; Opt_S; Opt_P]
           (state_before_dispatch sample_env [Opt_s "10.0.0.1"; Opt_S; Opt_P])).
  vm_compute; reflexivity.
Defined.

Lemma implicit_complete_scan_witness :
  before_dispatch sample_env [Opt_q]
  = Some (state_before_dispatch sample_env [Opt_q])
  /\ (existsb is_scan_type_opt [Opt_q] = false ->
      (forall t,
          allow (state_before_dispatch sample_env [Opt_q]) t
          = negb (bool_decide (t = TYPE_EATON_SERIAL)))
      /\ before_dispatch sample_env ([Opt_q] ++ [Opt_C])
         = Some (state_before_dispatch sample_env [Opt_q])
      /\ main sample_env ([Opt_q] ++ [Opt_C]) = main sample_env [Opt_q])
  /\ allow (state_before_dispatch sample_env [Opt_q]) TYPE_EATON_SERIAL
     = existsb is_Opt_E [Opt_q]
  /\ (existsb is_Opt_C [Opt_q] = true ->
      forall t,
        t <> TYPE_EATON_SERIAL ->
        allow (state_before_dispatch sample_env [Opt_q]) t = true).
Proof.
  split; [vm_compute; reflexivity|].
  apply (implicit_complete_scan sample_env [Opt_q]
           (state_before_dispatch sample_env [Opt_q])).
  vm_compute; reflexivity.
Defined.

(** * Further properties of the run *)

(** ** The registry under a sequence of calls *)

Lemma recorded_range_present c r : recorded_range c = Some r -> both_present r.
Proof.
  destruct c as [[s|] [e|]]; simpl; intros [= <-]; split; simpl; eauto.
Qed.

Lemma add_ip_range_recorded s e st rs :
  reg_wf (reg st) ->
  registry_ranges (reg st) = Some rs ->
  reg_wf (reg (add_ip_range s e st).2)
  /\ registry_ranges (reg (add_ip_range s e st).2)
     = Some (rs ++ option_list (recorded_range (s, e))).
Proof.
  intros Hwf Hrs. split; [by apply add_ip_range_wf|].
  destruct s as [x|], e as [y|]; simpl option_list.
  - rewrite (proj1 (add_ip_range_reg (Some x) (Some y) st
                      (or_introl (mk_is_Some _ _ eq_refl)))).
    by apply link_new_ranges.
  - rewrite (proj1 (add_ip_range_reg (Some x) None st
                      (or_introl (mk_is_Some _ _ eq_refl)))).
    by apply link_new_ranges.
  - rewrite (proj1 (add_ip_range_reg None (Some y) st
                      (or_intror (mk_is_Some _ _ eq_refl)))).
    by apply link_new_ranges.
  - rewrite app_nil_r. exact Hrs.
Qed.

(** X1.  Calls of [add_ip_range] compose: after any sequence of calls on a
    well-formed registry, the registry is well-formed and holds the ranges
    it held, followed by one range for each call that had an address, in the
    order of the calls; a call without any address leaves no trace in it, a
    call with one address records it as start and as end, and no range that
    is recorded has a NULL address; [ip_ranges_count] is the number of
    ranges (as a [size_t]). *)
Theorem add_ip_range_calls_compose
  (cs : list (option string * option string)) (st : state)
  (rs : list (option string * option string)) :
  reg_wf (reg st) ->
  registry_ranges (reg st) = Some rs ->
  reg_wf (reg (add_ip_ranges cs st))
  /\ registry_ranges (reg (add_ip_ranges cs st))
     = Some (rs ++ omap recorded_range cs)
  /\ ip_ranges_count (reg (add_ip_ranges cs st))
     = to_size_t (Z.of_nat (length rs + length (omap recorded_range cs)))
  /\ Forall both_present (omap recorded_range cs).
Proof.
  intros Hwf Hrs.
  assert (Hgen : reg_wf (reg (add_ip_ranges cs st))
                 /\ registry_ranges (reg (add_ip_ranges cs st))
                    = Some (rs ++ omap recorded_range cs)).
  { revert st rs Hwf Hrs. induction cs as [|[s e] cs IH]; intros st rs Hwf Hrs.
    - simpl. by rewrite app_nil_r.
    - destruct (add_ip_range_recorded s e st rs Hwf Hrs) as [Hwf1 Hrs1].
      destruct (IH _ _ Hwf1 Hrs1) as [Hwf2 Hrs2].
      split; [exact Hwf2|].
      change (add_ip_ranges ((s, e) :: cs) st)
        with (add_ip_ranges cs (add_ip_range s e st).2).
      rewrite Hrs2, <- app_assoc. do 2 f_equal.
      change (omap recorded_range ((s, e) :: cs))
        with (match recorded_range (s, e) with
              | Some y => y :: omap recorded_range cs
              | None => omap recorded_range cs
              end).
      by destruct (recorded_range (s, e)). }
  destruct Hgen as [Hwf' Hrs'].
  split; [exact Hwf'|]. split; [exact Hrs'|]. split.
  - rewrite (length_registry_ranges _ _ Hwf' Hrs'), length_app. reflexivity.
  - apply Forall_forall. intros r Hr.
    apply list_elem_of_omap in Hr as (c & _ & Hc).
    by eapply recorded_range_present.
Qed.

(** ** No NULL address in the ranges that are probed *)







(** ** How the option loop is left *)

Lemma trace_emit e st : trace (emit e st) = trace st ++ [e].
Proof. reflexivity. Qed.

Lemma flush_range_trace st :
  exists evs,
    trace (flush_range st) = trace st ++ evs /\ Forall option_event evs.
Proof.
  unfold flush_range, add_ip_range.
  destruct (pend_start_ip st), (pend_end_ip st); simpl;
    eexists; (split; [rewrite <- ?app_assoc; reflexivity|]);
    by repeat constructor.
Qed.

Lemma option_events_refl st : option_events st st.
Proof. exists nil. by rewrite app_nil_r. Qed.

Lemma option_events_trans st1 st2 st3 :
  option_events st1 st2 -> option_events st2 st3 -> option_events st1 st3.
Proof.
  intros (evs1 & Ht1 & Hf1) (evs2 & Ht2 & Hf2).
  exists (evs1 ++ evs2). rewrite Ht2, Ht1, app_assoc.
  split; [done | by apply Forall_app].
Qed.

Lemma option_events_emit e st : option_event e -> option_events st (emit e st).
Proof. intros He. exists [e]. by repeat constructor. Qed.

Lemma option_events_same st st' : trace st' = trace st -> option_events st st'.
Proof. intros H. exists nil. by rewrite app_nil_r. Qed.

Lemma option_events_flush_range st : option_events st (flush_range st).
Proof. apply flush_range_trace. Qed.

Ltac option_events_chain :=
  lazymatch goal with
  | |- option_events ?s ?s => apply option_events_refl
  | |- option_events _ (flush_range ?x) =>
      apply (option_events_trans _ x);
      [option_events_chain | apply option_events_flush_range]
  | |- option_events _ (set_pending _ _ ?x) =>
      apply (option_events_trans _ x);
      [option_events_chain | by apply option_events_same]
  end.

Ltac option_events_solve :=
  first
    [ apply option_events_refl
    | eexists; split;
      [ simpl; rewrite <- ?app_assoc;
        first [reflexivity | symmetry; apply app_nil_r]
      | by repeat constructor ] ].

(** The events of one turn of the option loop. *)
Lemma process_option_events o st :
  option_events st (flow_state (process_option o st)).
Proof.
  destruct o; simpl; unfold allow_if_avail, display_help;
    repeat case_decide; repeat case_match; simpl;
    unfold constrain_to_nofile; try case_decide;
    first [option_events_chain | option_events_solve].
Qed.

(** What a turn that leaves [main] leaves as it is. *)
Lemma process_option_return o st code st' :
  process_option o st = Return code st' ->
  dev st' = dev st /\ calls st' = calls st /\ thread st' = thread st
  /\ code = (if is_Opt_unknown o then ERR_BAD_OPTION else EXIT_SUCCESS)
  /\ (last (trace st') = Some (Stderr usage_warning)
      <-> is_informational o = false).
Proof.
  destruct o; simpl; unfold allow_if_avail, display_help;
    try discriminate; repeat case_match; try discriminate; simpl;
    intros [= <- <-]; (split; [done|]); (split; [done|]); (split; [done|]);
    (split; [done|]); rewrite ?trace_emit, last_snoc; done.
Qed.

Lemma leaving_option_continue opts st :
  leaving_option opts st = None
  <-> exists st', parse_options opts st = Continue st'.
Proof.
  revert st. induction opts as [|o opts IH]; intros st; simpl.
  - split; eauto.
  - destruct (process_option o st); [apply IH|].
    split; [done | by intros [? ?]].
Qed.

Lemma leaving_option_return opts st o :
  leaving_option opts st = Some o ->
  exists pre post st1 code st',
    opts = pre ++ o :: post
    /\ parse_options pre st = Continue st1
    /\ process_option o st1 = Return code st'
    /\ parse_options opts st = Return code st'.
Proof.
  revert st. induction opts as [|o' opts IH]; intros st; simpl; [done|].
  destruct (process_option o' st) as [st1|code st1] eqn:Hstep.
  - intros Hleave.
    destruct (IH _ Hleave) as (pre & post & st2 & code & st' & -> & Hpre & Ho & Hrun).
    exists (o' :: pre), post, st2, code, st'. simpl. rewrite Hstep. done.
  - intros [= <-]. exists [], opts, st, code, st1. done.
Qed.

Lemma parse_options_events opts st :
  option_events st (flow_state (parse_options opts st)).
Proof.
  revert st. induction opts as [|o opts IH]; intros st; simpl.
  - apply option_events_refl.
  - pose proof (process_option_events o st) as Hstep.
    destruct (process_option o st) as [st1|code st1]; simpl in *.
    + eapply option_events_trans; [exact Hstep | apply IH].
    + exact Hstep.
Qed.

Lemma init_nofile_limit_option_trace env :
  Forall option_event (trace (init_nofile_limit env (initial_state env))).
Proof.
  unfold init_nofile_limit. destruct (getrlimit env) as [[cur mx]|]; simpl.
  - case_decide; unfold constrain_to_nofile; simpl; [case_decide|];
      constructor.
  - by repeat constructor.
Qed.

(** X3.  [main] ends for every environment and every command line of the
    options of [cli_opt] (all but -m), by [return] or, for -V and -a, by
    [exit], with one of two exit statuses: ERR_BAD_OPTION when the option
    loop is left at an option that [getopt] does not know (or whose argument
    is missing), and EXIT_SUCCESS in every other case.  The warning that an error has
    occurred is the last thing written exactly when the loop is left at an
    option other than -h, -V and -a: so a scan option or a credential whose
    capability is missing ends the run under that warning, and yet with
    EXIT_SUCCESS. *)
Theorem exit_status_of_main (env : environment) (opts : list cli_opt) :
  let st0 := init_nofile_limit env (initial_state env) in
  exists code stf,
    main env opts = Some (code, stf)
    /\ (code = ERR_BAD_OPTION \/ code = EXIT_SUCCESS)
    /\ (code = ERR_BAD_OPTION <-> leaving_option opts st0 = Some Opt_unknown)
    /\ (last (trace stf) = Some (Stderr usage_warning)
        <-> exists o, leaving_option opts st0 = Some o
                      /\ is_informational o = false).
Proof.
  intros st0.
  destruct (leaving_option opts st0) as [o|] eqn:Hleave.
  - destruct (leaving_option_return _ _ _ Hleave)
      as (pre & post & st1 & code & st' & _ & _ & Ho & Hrun).
    destruct (process_option_return _ _ _ _ Ho) as (_ & _ & _ & Hcode & Hlast).
    exists code, st'. unfold main. fold st0. rewrite Hrun.
    split; [done|]. split; [|split].
    + rewrite Hcode. destruct (is_Opt_unknown o); auto.
    + rewrite Hcode. destruct o; simpl; split; try done; discriminate.
    + rewrite Hlast. split; [eauto|]. by intros (o' & [= <-] & ?).
  - apply leaving_option_continue in Hleave as [st Hparse].
    assert (Hbefore : before_dispatch env opts
                      = Some (resolve_allow (flush_pending (init_semaphore st)))).
    { unfold before_dispatch. fold st0. by rewrite Hparse. }
    destruct (main_run env opts _ Hbefore) as (st1 & evs & _ & _ & Hmain).
    eexists _, _. split; [exact Hmain|]. final_state.
    split; [by right|]. split; [split; discriminate|].
    rewrite !app_assoc, last_app. simpl.
    split; [discriminate | by intros (o & ? & _)].
Qed.

(** X4.  When the option loop leaves [main] (usage text, version, list of
    the buses, unknown option, missing capability), [main] ends there and
    then: the options that follow are not read, no probe has been called, no
    slot of [dev] written, no thread created or joined, the semaphore not
    touched and nothing reported; all that was done is to log and to
    print. *)
Theorem leaving_run_starts_no_scan
  (env : environment) (opts : list cli_opt) (code : Z) (st : state) :
  parse_options opts (init_nofile_limit env (initial_state env))
  = Return code st ->
  main env opts = Some (code, st)
  /\ (forall more, main env (opts ++ more) = Some (code, st))
  /\ (forall t, calls st t = [] /\ dev st t = None /\ thread st t = false)
  /\ Forall option_event (trace st).
Proof.
  intros Hparse.
  split; [unfold main; by rewrite Hparse|].
  split; [intros more; unfold main; by rewrite parse_options_app, Hparse|].
  destruct (leaving_option opts (init_nofile_limit env (initial_state env)))
    as [o|] eqn:Hleave.
  2: { apply leaving_option_continue in Hleave as [st' Hc]. congruence. }
  destruct (leaving_option_return _ _ _ Hleave)
    as (pre & post & st1 & code' & st' & _ & Hpre & Ho & Hrun).
  rewrite Hparse in Hrun. injection Hrun as <- <-.
  destruct (process_option_return _ _ _ _ Ho) as (Hdev & Hcalls & Hthread & _).
  pose proof (parse_options_effect _ _ _ Hpre) as [Hd Hc Ht _ _].
  destruct (init_nofile_limit_fields env)
    as (_ & _ & _ & _ & _ & _ & _ & Hd0 & Hc0 & Ht0).
  split.
  - intros t. by rewrite Hdev, Hcalls, Hthread, Hd, Hc, Ht, Hd0, Hc0, Ht0.
  - pose proof (parse_options_events opts
                  (init_nofile_limit env (initial_state env))) as Hev.
    rewrite Hparse in Hev. destruct Hev as (evs & Htr & Hevs).
    simpl in Htr. rewrite Htr.
    apply Forall_app. split; [|exact Hevs].
    apply init_nofile_limit_option_trace.
Qed.

(** ** The list of the buses *)

(** X5.  The option -a prints OLDNUT first and EATON_SERIAL last, whatever
    was found, and between them USB, SNMP, XML, AVAHI and IPMI, in this
    order, each exactly when its capability was found; the simulation scan
    is not listed.  One of these five names is listed exactly when the option
    that requests the scan of that bus (-U, -S, -M, -A, -I) is accepted by
    the option loop rather than answered by the usage text. *)
Theorem available_listing_matches_options (st : state) :
  exists st',
    process_option Opt_a st = Return EXIT_SUCCESS st'
    /\ trace st'
       = trace st
         ++ map Stdout
              (listing_name TYPE_NUT
               :: map listing_name
                    (List.filter (nutscan_avail st) listed_if_avail)
               ++ [listing_name TYPE_EATON_SERIAL])
    /\ forall t o,
         checked_option t = Some o ->
         In (listing_name t)
           (map listing_name (List.filter (nutscan_avail st) listed_if_avail))
         <-> exists st'', process_option o st = Continue st''.
Proof.
  destruct st as [d sp lvl r th mt av cur mx ps pe aa al q df cl tr].
  eexists. split; [reflexivity|]. split.
  - unfold listed_if_avail. simpl.
    repeat match goal with
           | |- context [if av ?t then _ else _] => destruct (av t); simpl
           end;
      rewrite <- ?app_assoc; reflexivity.
  - intros t o Ho. simpl nutscan_avail.
    assert (Hlisted :
      In (listing_name t) (map listing_name (List.filter av listed_if_avail))
      <-> av t = true).
    { unfold listed_if_avail. simpl.
      destruct (av TYPE_USB) eqn:?, (av TYPE_SNMP) eqn:?, (av TYPE_XML) eqn:?,
        (av TYPE_AVAHI) eqn:?, (av TYPE_IPMI) eqn:?;
        destruct t; try discriminate Ho; simpl;
        split; try congruence; intros H;
        repeat (destruct H as [H|H]; try discriminate H); auto 10. }
    rewrite Hlisted.
    destruct t; try discriminate Ho; injection Ho as <-; simpl;
      unfold allow_if_avail, display_help; simpl;
      match goal with
      | |- context [av ?t] => destruct (av t)
      end; simpl; split; eauto; try discriminate; by intros [? ?].
Qed.

(** ** What the options select *)

Lemma flush_range_selects st :
  display_func (flush_range st) = display_func st
  /\ quiet (flush_range st) = quiet st
  /\ serial_ports (flush_range st) = serial_ports st
  /\ max_threads (flush_range st) = max_threads st.
Proof.
  unfold flush_range, add_ip_range.
  destruct (pend_start_ip st), (pend_end_ip st); done.
Qed.

Lemma before_scans_selects st :
  let st0 := resolve_allow (flush_pending (init_semaphore st)) in
  display_func st0 = display_func st
  /\ quiet st0 = quiet st
  /\ serial_ports st0 = serial_ports st
  /\ max_threads st0 = max_threads (init_semaphore st).
Proof.
  assert (Hsem : display_func (init_semaphore st) = display_func st
                 /\ quiet (init_semaphore st) = quiet st
                 /\ serial_ports (init_semaphore st) = serial_ports st).
  { unfold init_semaphore. case_decide; done. }
  assert (Hflush : forall s,
    display_func (flush_pending s) = display_func s
    /\ quiet (flush_pending s) = quiet s
    /\ serial_ports (flush_pending s) = serial_ports s
    /\ max_threads (flush_pending s) = max_threads s).
  { intros s. unfold flush_pending.
    destruct (pend_start_ip s), (pend_end_ip s);
      solve [apply flush_range_selects | done]. }
  assert (Hresolve : forall s,
    display_func (resolve_allow s) = display_func s
    /\ quiet (resolve_allow s) = quiet s
    /\ serial_ports (resolve_allow s) = serial_ports s
    /\ max_threads (resolve_allow s) = max_threads s).
  { intros s. unfold resolve_allow.
    destruct (_ && negb (allow s TYPE_EATON_SERIAL)); simpl;
      [|destruct (allow_all s)]; simpl; try case_decide; done. }
  intros st0. unfold st0.
  destruct Hsem as (? & ? & ?).
  destruct (Hflush (init_semaphore st)) as (? & ? & ? & ?).
  destruct (Hresolve (flush_pending (init_semaphore st))) as (? & ? & ? & ?).
  repeat split; congruence.
Qed.

Lemma process_option_selects o st st' :
  process_option o st = Continue st' ->
  display_func st'
  = match o with
    | Opt_Q => nutscan_display_ups_conf_with_sanity_check
    | Opt_N => nutscan_display_ups_conf
    | Opt_P => nutscan_display_parsable
    | _ => display_func st
    end
  /\ quiet st' = (if is_Opt_q o then 1 else quiet st)
  /\ serial_ports st'
     = match o with Opt_E optarg => Some optarg | _ => serial_ports st end.
Proof.
  destruct (is_endpoint_opt o) eqn:Hend.
  - intros Hstep.
    assert (display_func st' = display_func st /\ quiet st' = quiet st
            /\ serial_ports st' = serial_ports st) as (-> & -> & ->).
    { destruct o; try discriminate Hend; injection Hstep as <-; cbv zeta;
        repeat case_match;
        repeat first
          [ done
          | match goal with
            | |- context [display_func (flush_range ?s)] =>
                rewrite (proj1 (flush_range_selects s))
            | |- context [quiet (flush_range ?s)] =>
                rewrite (proj1 (proj2 (flush_range_selects s)))
            | |- context [serial_ports (flush_range ?s)] =>
                rewrite (proj1 (proj2 (proj2 (flush_range_selects s))))
            end
          | progress simpl ]. }
    by destruct o.
  - destruct o; try discriminate Hend; simpl;
      unfold allow_if_avail, display_help;
      rewrite ?decide_bool_decide;
      repeat case_match; try discriminate;
      intros [= <-]; unfold constrain_to_nofile;
      try destruct (decide (max_threads _ > _)); done.
Qed.

Lemma parse_options_selects opts :
  forall st st',
    parse_options opts st = Continue st' ->
    display_func st'
    = fold_left
        (fun f o =>
           match o with
           | Opt_Q => nutscan_display_ups_conf_with_sanity_check
           | Opt_N => nutscan_display_ups_conf
           | Opt_P => nutscan_display_parsable
           | _ => f
           end)
        opts (display_func st)
    /\ quiet st' = (if existsb is_Opt_q opts then 1 else quiet st)
    /\ serial_ports st'
       = fold_left
           (fun p o => match o with Opt_E optarg => Some optarg | _ => p end)
           opts (serial_ports st).
Proof.
  induction opts as [|o opts IH]; intros st st' Hrun; simpl in *.
  - by injection Hrun as <-.
  - destruct (process_option o st) as [st1|] eqn:Hstep; [|discriminate].
    destruct (process_option_selects _ _ _ Hstep) as (Hd & Hq & Hs).
    destruct (IH _ _ Hrun) as (-> & -> & ->). rewrite Hd, Hq, Hs.
    split; [by destruct o|]. split; [|by destruct o].
    destruct (is_Opt_q o); simpl; [by destruct (existsb _ _)|done].
Qed.

(** The options select what the scans are started with. *)
Lemma before_dispatch_selects env opts st0 :
  before_dispatch env opts = Some st0 ->
  display_func st0 = selected_display opts
  /\ quiet st0 = (if existsb is_Opt_q opts then 1 else 0)
  /\ serial_ports st0 = last_serial_ports opts.
Proof.
  unfold before_dispatch.
  destruct (parse_options opts _) as [st|] eqn:Hparse; [|discriminate].
  intros [= <-].
  destruct (before_scans_selects st) as (-> & -> & -> & _).
  destruct (parse_options_selects _ _ _ Hparse) as (-> & -> & ->).
  unfold init_nofile_limit.
  destruct (getrlimit env) as [[cur mx]|]; simpl;
    [case_decide; unfold constrain_to_nofile; simpl; [case_decide|]|]; done.
Qed.

(** The calls of the formatter in a whole run. *)
Lemma displays_of_run env opts st0 st1 evs :
  before_dispatch env opts = Some st0 ->
  dispatch_posts env all_types st0 st1 evs ->
  List.filter is_display
    (trace st0 ++ evs ++ join_events st1
     ++ report_events (display_func st0) (dev st1) ++ teardown_events)
  = map (fun t => Display (display_func st0) t (dev st1 t)) all_types.
Proof.
  intros Hbefore Hposts.
  destruct (before_dispatch_spec env opts st0 Hbefore)
    as (_ & _ & _ & _ & _ & Hsetup).
  rewrite !app_assoc, <- (app_assoc _ (report_events _ _)).
  rewrite List.filter_app, (proj2 (report_events_spec _ _)).
  rewrite filter_none; [done|].
  rewrite !Forall_app. split; [split|].
  - eapply Forall_impl; [exact Hsetup|]. intros e He.
    by apply setup_event_classes.
  - eapply Forall_impl; [exact (dps_events _ _ _ _ _ Hposts)|].
    apply dispatch_event_display.
  - eapply Forall_impl; [exact (proj1 (join_events_spec st1))|].
    apply join_event_display.
Qed.

(** X6.  The report is written by one formatter for all eight protocols:
    the one of the last of the options -Q, -N and -P on the command line,
    wherever it stands among the other options, and the one with the sanity
    check when none of them is given. *)
Theorem formatter_of_last_option
  (env : environment) (opts : list cli_opt) (st0 : state) :
  before_dispatch env opts = Some st0 ->
  exists stf,
    main env opts = Some (EXIT_SUCCESS, stf)
    /\ List.filter is_display (trace stf)
       = map (fun t => Display (selected_display opts) t (dev stf t)) all_types.
Proof.
  intros Hbefore.
  destruct (main_run env opts st0 Hbefore) as (st1 & evs & _ & Hposts & Hmain).
  eexists. split; [exact Hmain|]. final_state.
  rewrite (displays_of_run env opts st0 st1 evs Hbefore Hposts).
  by rewrite (proj1 (before_dispatch_selects env opts st0 Hbefore)).
Qed.

(** X7.  The Eaton serial scan probes the list of ports of the last -E
    option only: when its thread is started, the probe is called exactly
    once, with the argument of the last -E on the command line, and the
    lists of ports of the -E options before it are not scanned. *)
Theorem serial_scan_uses_last_ports
  (env : environment) (opts : list cli_opt) (st0 : state) :
  before_dispatch env opts = Some st0 ->
  started env TYPE_EATON_SERIAL st0 = true ->
  exists stf ports,
    main env opts = Some (EXIT_SUCCESS, stf)
    /\ last_serial_ports opts = Some ports
    /\ calls stf TYPE_EATON_SERIAL = [nutscan_scan_eaton_serial (Some ports)]
    /\ dev stf TYPE_EATON_SERIAL
       = nutscan_scan env (nutscan_scan_eaton_serial (Some ports)).
Proof.
  intros Hbefore Hstarted.
  destruct (main_run env opts st0 Hbefore) as (st1 & evs & _ & Hposts & Hmain).
  destruct (started_spec env opts st0 st1 evs _ Hbefore Hposts Hstarted)
    as (Hcalls & Hdev & _).
  destruct (before_dispatch_selects env opts st0 Hbefore) as (_ & _ & Hports).
  assert (Hsome : is_Some (last_serial_ports opts)).
  { assert (Hallow : allow st0 TYPE_EATON_SERIAL = true).
    { unfold started, dispatched in Hstarted.
      by destruct (allow st0 TYPE_EATON_SERIAL). }
    revert Hallow. unfold before_dispatch in Hbefore.
    destruct (parse_options opts _) as [st|] eqn:Hparse; [|discriminate].
    injection Hbefore as <-.
    rewrite resolve_allow_allow, decide_True by done.
    rewrite (proj1 (proj2 (proj2 (flush_pending_fields _)))).
    rewrite (proj1 (proj2 (proj2 (proj2 (proj2 (proj2
               (init_semaphore_fields _))))))).
    rewrite (proj1 (parse_options_allow _ _ _ Hparse)).
    rewrite (proj1 (proj2 (proj2 (proj2 (proj2 (proj2
               (init_nofile_limit_fields env))))))).
    simpl. intros Hex.
    assert (Hex' : existsb (fun o => requests o TYPE_EATON_SERIAL) opts = true)
      by (by destruct (_ || _), (existsb _ opts)).
    clear -Hex'. unfold last_serial_ports. generalize (@None string).
    induction opts as [|o opts IH] using rev_ind; [done|]. intros p.
    rewrite fold_left_app. simpl. rewrite existsb_app in Hex'. simpl in Hex'.
    destruct o; simpl in *; rewrite ?orb_false_r in Hex'; eauto. }
  destruct Hsome as [ports Hlast].
  eexists _, ports. split; [exact Hmain|]. final_state.
  split; [exact Hlast|]. rewrite Hcalls, Hdev.
  unfold expected_dev, expected_calls. rewrite Hports, Hlast. done.
Qed.

(** ** Threads that are created, threads that are joined *)

Lemma started_dispatched env t st :
  started env t st = true ->
  dispatched t st = true /\ pthread_create_rc env t = 0
  /\ allow st t = true
  /\ (avail_checked t = true -> nutscan_avail st t = true).
Proof.
  unfold started. intros H. apply andb_true_iff in H as [Hd Hrc].
  apply bool_decide_eq_true in Hrc. split; [done|]. split; [done|].
  unfold dispatched in Hd. apply andb_true_iff in Hd as [Hd _].
  apply andb_true_iff in Hd as [Ha Hc]. split; [done|].
  intros Hchecked. rewrite Hchecked in Hc. done.
Qed.

(** The threads that [main] joins are those that it has started. *)
Lemma joined_after_dispatch env opts st0 st1 evs t :
  before_dispatch env opts = Some st0 ->
  dispatch_posts env all_types st0 st1 evs ->
  joined t st1 = started env t st0
  /\ nutscan_avail st1 t
     = (if allow st0 t && avail_checked t
        then nutscan_avail st0 t && started env t st0
        else nutscan_avail st0 t).
Proof.
  intros Hbefore Hposts.
  destruct (before_dispatch_spec env opts st0 Hbefore)
    as (_ & _ & _ & Hthread & _).
  pose proof (dps_inside _ _ _ _ _ Hposts t (in_all_types t)) as Hslot.
  pose proof (sc_allow _ _ (dps_config _ _ _ _ _ Hposts)) as Hallow.
  split; [|exact (sr_avail _ _ _ _ _ Hslot)].
  unfold joined.
  rewrite (sr_thread _ _ _ _ _ Hslot), (sr_avail _ _ _ _ _ Hslot),
    Hallow, Hthread, orb_false_r.
  destruct (started env t st0) eqn:Hstarted; [|by rewrite andb_false_r].
  destruct (started_dispatched _ _ _ Hstarted) as (_ & _ & Ha & Hav).
  rewrite Ha. destruct (avail_checked t); simpl; [|done].
  by rewrite Hav.
Qed.

Lemma joined_in_join_events t st :
  joined t st = true -> In (PthreadJoin t) (join_events st).
Proof.
  intros Hj. unfold join_events. apply in_concat.
  exists (join_events_of st t). split.
  - apply in_map, list_elem_of_In, in_all_types.
  - unfold join_events_of. rewrite Hj. simpl. auto.
Qed.

Lemma filter_join_events st ts :
  List.filter is_join (concat (map (join_events_of st) ts))
  = map PthreadJoin (List.filter (fun t => joined t st) ts).
Proof.
  induction ts as [|t ts IH]; [done|]. simpl.
  rewrite List.filter_app, IH. unfold join_events_of.
  by destruct (joined t st).
Qed.

Lemma display_in_report f d t : In (Display f t (d t)) (report_events f d).
Proof.
  unfold report_events. right. apply in_concat.
  exists (report_events_of f d t). split; [|simpl; auto].
  apply in_map, list_elem_of_In, in_all_types.
Qed.

(** X8.  When [pthread_create] fails for a protocol with a capability flag
    that [main] has come to start, the run goes on to EXIT_SUCCESS: the
    capability flag of the protocol is cleared, its thread is not joined, no
    probe is called for it and its slot is reported as NULL; every protocol
    whose thread is started is not touched by this: its probe is called, its
    thread is joined and its result is reported. *)
Theorem thread_creation_failure
  (env : environment) (opts : list cli_opt) (st0 : state) (t : scan_type) :
  before_dispatch env opts = Some st0 ->
  avail_checked t = true ->
  dispatched t st0 = true ->
  pthread_create_rc env t <> 0 ->
  exists stf,
    main env opts = Some (EXIT_SUCCESS, stf)
    /\ In (PthreadCreate t false) (trace stf)
    /\ ~ In (PthreadCreate t true) (trace stf)
    /\ ~ In (PthreadJoin t) (trace stf)
    /\ nutscan_avail stf t = false
    /\ calls stf t = [] /\ dev stf t = None
    /\ In (Display (display_func st0) t None) (trace stf)
    /\ forall t',
         started env t' st0 = true ->
         calls stf t' = expected_calls t' st0
         /\ dev stf t' = expected_dev env t' st0
         /\ In (PthreadCreate t' true) (trace stf)
         /\ In (PthreadJoin t') (trace stf)
         /\ In (Display (display_func st0) t' (expected_dev env t' st0))
              (trace stf).
Proof.
  intros Hbefore Hchecked Hdisp Hrc.
  destruct (before_dispatch_spec env opts st0 Hbefore)
    as (Hwf & Hdev & Hcalls & Hthread & Havail & Hsetup).
  destruct (main_run env opts st0 Hbefore) as (st1 & evs & _ & Hposts & Hmain).
  pose proof (dps_inside _ _ _ _ _ Hposts t (in_all_types t)) as Hslot.
  assert (Hstarted : started env t st0 = false).
  { unfold started. rewrite Hdisp. simpl. by apply bool_decide_eq_false_2. }
  destruct (final_slots env st0 st1 evs t Hdev Hcalls Hposts) as [Hd Hc].
  rewrite Hstarted in Hd, Hc.
  destruct (joined_after_dispatch env opts st0 st1 evs t Hbefore Hposts)
    as [Hjoined Hav].
  destruct (join_events_spec st1) as [Hjoins Hjoin_in].
  destruct (report_events_spec (display_func st0) (dev st1)) as [Hreports _].
  eexists. split; [exact Hmain|]. final_state.
  split; [|split; [|split; [|split; [|split; [done|split; [done|split]]]]]].
  - rewrite !in_app_iff. right; left.
    apply (sr_created _ _ _ _ _ Hslot). by rewrite Hstarted.
  - intros Hb.
    apply in_final_trace in Hb as [[Hb _]|[Hb|[[Hb _]|[Hb _]]]]; try done.
    apply (sr_created _ _ _ _ _ Hslot) in Hb as [_ Hb]. congruence.
  - intros Hj.
    apply in_final_trace in Hj as [[Hj _]|[Hj|[[_ Hj]|[Hj _]]]]; try done.
    + pose proof (dps_events _ _ _ _ _ Hposts) as Hevs.
      rewrite Forall_forall in Hevs.
      by apply list_elem_of_In, Hevs in Hj.
    + apply Hjoin_in in Hj. congruence.
  - assert (Ha : allow st0 t = true).
    { unfold dispatched in Hdisp. by destruct (allow st0 t). }
    by rewrite Hav, Hstarted, Ha, Hchecked, andb_false_r.
  - rewrite !in_app_iff. right; right; right; left.
    rewrite <- Hd. apply display_in_report.
  - intros t' Hstarted'.
    destruct (started_spec env opts st0 st1 evs t' Hbefore Hposts Hstarted')
      as (Hc' & Hd' & Hcreated).
    split; [exact Hc'|]. split; [exact Hd'|]. split; [|split].
    + rewrite !in_app_iff. by right; left.
    + rewrite !in_app_iff. right; right; left.
      apply joined_in_join_events.
      by rewrite (proj1 (joined_after_dispatch env opts st0 st1 evs t'
                           Hbefore Hposts)).
    + rewrite !in_app_iff. right; right; right; left.
      rewrite <- Hd'. apply display_in_report.
Qed.

(** X9.  Every thread that was started is joined exactly once, and no
    other: the trace of a run that comes to the scans falls into three
    parts: first the start of the scans, with every [pthread_create], then
    the joins, one [pthread_join] for each protocol whose thread was started,
    in the order USB, SNMP, XML/HTTP, old NUT, simulation, avahi, IPMI,
    serial, then the report, with every call of the formatter.  (The result
    of the [pthread_create] of the Eaton serial scan is not looked at by
    [main], and what [thread[]] holds after a failure is not specified:
    this thread, when it is requested, is taken to be started.) *)
Theorem threads_joined_once
  (env : environment) (opts : list cli_opt) (st0 : state) :
  before_dispatch env opts = Some st0 ->
  (allow st0 TYPE_EATON_SERIAL = true ->
   pthread_create_rc env TYPE_EATON_SERIAL = 0) ->
  exists stf pre joins post,
    main env opts = Some (EXIT_SUCCESS, stf)
    /\ trace stf = pre ++ joins ++ post
    /\ Forall (fun e => is_join e = false /\ is_display e = false) pre
    /\ Forall (fun e => is_create e = false /\ is_display e = false) joins
    /\ Forall (fun e => is_thread_event e = false) post
    /\ List.filter is_join joins
       = map PthreadJoin
           (List.filter (fun t => started env t st0) all_types)
    /\ forall t, In (PthreadCreate t true) pre <-> started env t st0 = true.
Proof.
  intros Hbefore _.
  destruct (before_dispatch_spec env opts st0 Hbefore)
    as (Hwf & Hdev & Hcalls & Hthread & Havail & Hsetup).
  destruct (main_run env opts st0 Hbefore) as (st1 & evs & _ & Hposts & Hmain).
  exists (set_trace
            (trace st0 ++ evs ++ join_events st1
             ++ report_events (display_func st0) (dev st1) ++ teardown_events)
            st1),
    (trace st0 ++ evs), (join_events st1),
    (report_events (display_func st0) (dev st1) ++ teardown_events).
  split; [exact Hmain|]. final_state.
  split; [by rewrite <- !app_assoc|].
  split; [|split; [|split; [|split]]].
  - apply Forall_app. split.
    + eapply Forall_impl; [exact Hsetup|]. by intros [].
    + eapply Forall_impl; [exact (dps_events _ _ _ _ _ Hposts)|]. by intros [].
  - eapply Forall_impl; [exact (proj1 (join_events_spec st1))|]. by intros [].
  - apply Forall_app_2; [|by repeat constructor].
    eapply Forall_impl; [exact (proj1 (report_events_spec _ _))|].
    apply report_event_thread.
  - unfold join_events. rewrite filter_join_events. f_equal.
    apply filter_ext. intros t.
    apply (joined_after_dispatch env opts st0 st1 evs t Hbefore Hposts).
  - intros t. rewrite in_app_iff. split.
    + intros [Hin|Hin].
      * rewrite Forall_forall in Hsetup.
        by apply list_elem_of_In, Hsetup in Hin.
      * apply (sr_created _ _ _ _ _
                 (dps_inside _ _ _ _ _ Hposts t (in_all_types t))) in Hin
          as [_ Hin]. done.
    + intros Hstarted. right.
      apply (sr_created _ _ _ _ _
               (dps_inside _ _ _ _ _ Hposts t (in_all_types t))).
      split; [|done]. by apply (started_dispatched env t st0).
Qed.

(** ** What the USB probe is given *)

Lemma requests_usb_count opts :
  existsb (fun o => requests o TYPE_USB) opts = true ->
  (0 < length (List.filter is_Opt_U opts))%nat.
Proof.
  induction opts as [|o opts IH]; simpl; [done|].
  destruct o; simpl; auto with lia.
Qed.

Lemma usb_scanopts_detail n :
  usb_scanopts (Z.max 0 (Z.min 3 (Z.of_nat n - 1))) = Some (usb_detail n).
Proof.
  destruct n as [|[|[|[|n]]]]; try reflexivity.
  replace (Z.max 0 (Z.min 3 (Z.of_nat (S (S (S (S n)))) - 1))) with 3 by lia.
  reflexivity.
Qed.

(** The level of detail with which the USB scan is started. *)
Lemma before_dispatch_level env opts st0 :
  before_dispatch env opts = Some st0 ->
  allow st0 TYPE_USB = true ->
  cli_link_detail_level st0
  = Z.max 0 (Z.min 3 (Z.of_nat (length (List.filter is_Opt_U opts)) - 1)).
Proof.
  unfold before_dispatch.
  destruct (parse_options opts _) as [st|] eqn:Hparse; [|discriminate].
  intros [= <-].
  destruct (init_nofile_limit_fields env)
    as (_ & _ & _ & Hlevel0 & _ & Hallow0 & _).
  pose proof (parse_options_level _ _ _ Hparse) as Hlevel.
  rewrite Hlevel0 in Hlevel. specialize (Hlevel ltac:(lia)).
  pose proof (proj1 (parse_options_allow _ _ _ Hparse) TYPE_USB) as Hallow.
  rewrite Hallow0 in Hallow. simpl in Hallow.
  rewrite resolve_allow_allow, resolve_allow_level.
  rewrite (proj1 (flush_pending_fields _)).
  rewrite (proj1 (proj2 (proj2 (proj2 (init_semaphore_fields _))))).
  rewrite (proj1 (proj2 (proj2 (flush_pending_fields _)))).
  rewrite (proj1 (proj2 (proj2 (proj2 (proj2 (proj2
             (init_semaphore_fields _))))))).
  rewrite Hlevel, Hallow.
  destruct (_ || _); simpl.
  - intros _. case_bool_decide; lia.
  - intros Hex. apply requests_usb_count in Hex. lia.
Qed.

(** X10.  When the USB scan is started, its probe is called exactly once
    and always with options of its own, never with NULL (the defaults of the
    library): with no -U at all (complete scan) or one -U, nothing of the
    bus topology is reported; with two, the bus and the port; with three,
    the device as well; with four or more, the device release number too. *)
Theorem usb_probe_options
  (env : environment) (opts : list cli_opt) (st0 : state) :
  before_dispatch env opts = Some st0 ->
  started env TYPE_USB st0 = true ->
  let scanopts := usb_detail (length (List.filter is_Opt_U opts)) in
  exists stf,
    main env opts = Some (EXIT_SUCCESS, stf)
    /\ calls stf TYPE_USB = [nutscan_scan_usb (Some scanopts)]
    /\ dev stf TYPE_USB = nutscan_scan env (nutscan_scan_usb (Some scanopts)).
Proof.
  intros Hbefore Hstarted scanopts.
  destruct (main_run env opts st0 Hbefore) as (st1 & evs & _ & Hposts & Hmain).
  destruct (started_spec env opts st0 st1 evs _ Hbefore Hposts Hstarted)
    as (Hcalls & Hdev & _).
  destruct (started_dispatched _ _ _ Hstarted) as (_ & _ & Hallow & _).
  eexists. split; [exact Hmain|]. final_state.
  rewrite Hcalls, Hdev. unfold expected_dev, expected_calls.
  rewrite (before_dispatch_level env opts st0 Hbefore Hallow).
  rewrite usb_scanopts_detail. done.
Qed.

(** ** The number of threads of a run *)

(** Arithmetic with the limits of the platform, conversions left folded. *)
Ltac bounds :=
  unfold SIZE_MAX, UINT_MAX, RESERVE_FD_COUNT in *;
  change (2 ^ 64) with 18446744073709551616 in *;
  change (2 ^ 63) with 9223372036854775808 in *;
  change (2 ^ 32) with 4294967296 in *;
  lia.

Lemma constrain_to_nofile_cur st :
  nofile_rlim_cur (constrain_to_nofile st) = nofile_rlim_cur st.
Proof. unfold constrain_to_nofile. case_decide; reflexivity. Qed.

Lemma constrain_to_nofile_max st :
  0 <= nofile_rlim_cur st <= SIZE_MAX ->
  max_threads (constrain_to_nofile st)
  = if decide (4 < nofile_rlim_cur st)
    then nofile_rlim_cur st - RESERVE_FD_COUNT
    else nofile_rlim_cur st.
Proof.
  intros Hcur. unfold constrain_to_nofile. simpl.
  rewrite (to_size_t_small (nofile_rlim_cur st)) by limits.
  repeat case_decide; simpl; try (unfold_limits; lia).
  apply to_size_t_small. limits.
Qed.

(** What one turn of the option loop does to [max_threads]: nothing, or,
    for an option -T whose value is accepted, the value or the limit on open
    file descriptors less the reservation. *)
Lemma process_option_max_threads o st st' :
  process_option o st = Continue st' ->
  0 <= nofile_rlim_cur st <= SIZE_MAX ->
  let cur := nofile_rlim_cur st in
  max_threads st' = max_threads st
  \/ (exists val endptr,
         o = Opt_T val endptr /\ 0 < val
         /\ ((max_threads st' = to_size_t val
              /\ (3 < cur < SIZE_MAX -> to_size_t val <= cur - 3))
             \/ (3 < cur < SIZE_MAX
                 /\ max_threads st' = if decide (4 < cur) then cur - 3 else cur))).
Proof.
  intros Hstep Hcur cur.
  destruct (is_endpoint_opt o) eqn:Hend.
  - left. destruct o; try discriminate Hend; injection Hstep as <-; cbv zeta;
      repeat case_match;
      repeat first
        [ done
        | match goal with
          | |- context [max_threads (flush_range ?s)] =>
              rewrite (proj2 (proj2 (proj2 (flush_range_selects s))))
          end
        | progress simpl ].
  - destruct o; try discriminate Hend; simpl in Hstep;
      unfold allow_if_avail, display_help in Hstep;
      try (left; repeat case_match; try discriminate;
           injection Hstep as <-; done).
    destruct (decide (endptr = EmptyString /\ val > 0 /\ to_size_t val < SIZE_MAX))
      as [(He & Hval & Hmax)|Hno]; [|left; by injection Hstep as <-].
    right. exists val, endptr. split; [done|]. split; [lia|].
    assert (Hc : 3 < cur < SIZE_MAX ->
                 to_size_t (cur - RESERVE_FD_COUNT) = cur - 3).
    { intros H. rewrite to_size_t_small; limits. }
    fold cur in Hstep.
    destruct (decide (cur > 0 /\ cur > RESERVE_FD_COUNT /\ cur < SIZE_MAX
                      /\ to_size_t val > to_size_t (cur - RESERVE_FD_COUNT)))
      as [(H1 & H2 & H3 & H4)|Hno]; injection Hstep as <-.
    + right. split; [unfold_limits; lia|].
      change (max_threads (emit ?e ?s)) with (max_threads s).
      rewrite constrain_to_nofile_max by done. reflexivity.
    + left. split; [reflexivity|]. intros Hrange.
      rewrite (Hc Hrange) in Hno. unfold_limits. lia.
Qed.

Lemma init_nofile_limit_max_threads env :
  let st := init_nofile_limit env (initial_state env) in
  0 <= nofile_rlim_cur st <= SIZE_MAX
  /\ (1 <= default_max_threads env < 2 ^ 64 -> 1 <= max_threads st)
  /\ 0 <= max_threads st
  /\ (forall cur mx,
         getrlimit env = Some (cur, mx) -> 4 < cur < SIZE_MAX ->
         nofile_rlim_cur st = cur
         /\ max_threads st <= cur - RESERVE_FD_COUNT).
Proof.
  intros st. split; [apply init_nofile_limit_cur|].
  pose proof (to_size_t_range (default_max_threads env)) as Hd.
  unfold st, init_nofile_limit.
  destruct (getrlimit env) as [[cur mx]|] eqn:Hget.
  - set (s := set_nofile_limit (to_size_t cur) (to_size_t mx) (initial_state env)).
    assert (Hs : nofile_rlim_cur s = to_size_t cur) by reflexivity.
    assert (Hm : max_threads s = to_size_t (default_max_threads env))
      by reflexivity.
    pose proof (to_size_t_range cur) as Hcur.
    case_decide as Hcond.
    + assert (Hmax := constrain_to_nofile_max s ltac:(rewrite Hs; exact Hcur)).
      assert (Hsame : nofile_rlim_cur (constrain_to_nofile s) = to_size_t cur)
        by (by rewrite constrain_to_nofile_cur).
      rewrite Hs in Hmax, Hcond. rewrite Hmax, Hsame.
      split; [intros _; case_decide; bounds|].
      split; [case_decide; bounds|].
      intros cur' mx' [= <- <-] Hrange.
      assert (Hsmall : to_size_t cur = cur) by (apply to_size_t_small; bounds).
      rewrite Hsmall. split; [done|]. by rewrite decide_True by lia.
    + rewrite Hm. split; [intros H; rewrite to_size_t_small; lia|].
      split; [lia|].
      intros cur' mx' [= <- <-] Hrange.
      assert (Hsmall : to_size_t cur = cur) by (apply to_size_t_small; bounds).
      split; [by rewrite Hs|].
      rewrite Hs, Hm, Hsmall in Hcond.
      rewrite (to_size_t_small (cur - RESERVE_FD_COUNT)) in Hcond by bounds.
      bounds.
  - simpl. split; [intros H; rewrite to_size_t_small; lia|].
    split; [lia | discriminate].
Qed.

Lemma parse_options_max_threads opts :
  forall st st',
    parse_options opts st = Continue st' ->
    0 <= nofile_rlim_cur st <= SIZE_MAX ->
    0 <= max_threads st ->
    0 <= max_threads st'
    /\ (Forall long_option opts -> 1 <= max_threads st -> 1 <= max_threads st')
    /\ (4 < nofile_rlim_cur st < SIZE_MAX ->
        max_threads st <= nofile_rlim_cur st - RESERVE_FD_COUNT ->
        max_threads st' <= nofile_rlim_cur st - RESERVE_FD_COUNT).
Proof.
  induction opts as [|o opts IH]; intros st st' Hrun Hcur Hnonneg; simpl in *.
  - by injection Hrun as <-.
  - destruct (process_option o st) as [st1|] eqn:Hstep; [|discriminate].
    pose proof (process_option_nofile _ _ _ Hstep) as Hsame.
    pose proof (process_option_max_threads _ _ _ Hstep Hcur) as Hmax.
    simpl in Hmax.
    assert (H1 : 0 <= max_threads st1
                 /\ (long_option o -> 1 <= max_threads st ->
                     1 <= max_threads st1)
                 /\ (4 < nofile_rlim_cur st < SIZE_MAX ->
                     max_threads st <= nofile_rlim_cur st - RESERVE_FD_COUNT ->
                     max_threads st1 <= nofile_rlim_cur st - RESERVE_FD_COUNT)).
    { destruct Hmax as [->|(val & e & -> & Hval & [[-> Hle]|[Hrange ->]])].
      - done.
      - pose proof (to_size_t_range val). split; [lia|]. split.
        + simpl. intros Hlong _. rewrite to_size_t_small; lia.
        + intros Hrange _. unfold_limits. lia.
      - case_decide; unfold_limits; (split; [lia|]); split; intros; lia. }
    destruct H1 as (Hn1 & Hp1 & Hb1).
    destruct (IH _ _ Hrun) as (Hn & Hp & Hb); [by rewrite Hsame | done|].
    rewrite Hsame in Hb. split; [done|]. split.
    + intros Hlong Hpos. apply Forall_cons in Hlong as [Ho Hopts]. auto.
    + auto.
Qed.

Lemma sem_init_values_app l1 l2 :
  sem_init_values (l1 ++ l2) = sem_init_values l1 ++ sem_init_values l2.
Proof. apply omap_app. Qed.

Lemma sem_init_values_none (P : event -> Prop) l :
  (forall e, P e -> match e with SemInit _ => False | _ => True end) ->
  Forall P l -> sem_init_values l = [].
Proof.
  intros HP. induction 1 as [|e l He _ IH]; [done|].
  specialize (HP e He). destruct e; try done; exact IH.
Qed.

Lemma sem_init_values_options l : Forall option_event l -> sem_init_values l = [].
Proof. apply sem_init_values_none. by intros []. Qed.

(** The trace and the number of threads when the scans are started: the
    semaphore has been initialised once, with the number of threads. *)
Lemma before_dispatch_semaphore env opts st0 :
  before_dispatch env opts = Some st0 ->
  exists st,
    parse_options opts (init_nofile_limit env (initial_state env))
    = Continue st
    /\ max_threads st0
       = (if decide (UINT_MAX < max_threads st) then UINT_MAX - 1
          else max_threads st)
    /\ sem_init_values (trace st0) = [to_uint (max_threads st0)].
Proof.
  unfold before_dispatch.
  destruct (parse_options opts _) as [st|] eqn:Hparse; [|discriminate].
  intros [= <-]. exists st. split; [done|].
  destruct (before_scans_selects st) as (_ & _ & _ & ->).
  rewrite (proj2 (proj2 (proj2 (proj2 (proj2 (resolve_allow_fields _)))))).
  assert (Hflush : forall s,
    sem_init_values (trace (flush_pending s)) = sem_init_values (trace s)).
  { intros s.
    assert (Hrange : sem_init_values (trace (flush_range s))
                     = sem_init_values (trace s)).
    { destruct (flush_range_trace s) as (evs & -> & Hevs).
      by rewrite sem_init_values_app, (sem_init_values_options _ Hevs),
        app_nil_r. }
    unfold flush_pending.
    by destruct (pend_start_ip s), (pend_end_ip s). }
  rewrite Hflush.
  assert (Hopts : sem_init_values (trace st) = []).
  { pose proof (parse_options_events opts
                  (init_nofile_limit env (initial_state env))) as Hev.
    rewrite Hparse in Hev. destruct Hev as (evs & Htr & Hevs).
    simpl in Htr. rewrite Htr, sem_init_values_app.
    by rewrite (sem_init_values_options _ (init_nofile_limit_option_trace env)),
      (sem_init_values_options _ Hevs). }
  unfold init_semaphore.
  change (max_threads (emit SemDestroy st)) with (max_threads st).
  destruct (decide (SIZE_MAX > UINT_MAX /\ max_threads st > UINT_MAX))
    as [[_ H]|H].
  - rewrite decide_True by lia. split; [reflexivity|].
    simpl. rewrite !sem_init_values_app, Hopts. reflexivity.
  - rewrite decide_False by (unfold_limits; lia). split; [reflexivity|].
    simpl. rewrite !sem_init_values_app, Hopts. reflexivity.
Qed.

(** The semaphore is not initialised again once the scans are started. *)
Lemma sem_init_values_run env opts st0 st1 evs :
  before_dispatch env opts = Some st0 ->
  dispatch_posts env all_types st0 st1 evs ->
  sem_init_values
    (trace st0 ++ evs ++ join_events st1
     ++ report_events (display_func st0) (dev st1) ++ teardown_events)
  = sem_init_values (trace st0).
Proof.
  intros Hbefore Hposts.
  rewrite !sem_init_values_app.
  rewrite (sem_init_values_none dispatch_event evs),
    (sem_init_values_none join_event (join_events st1)),
    (sem_init_values_none report_event
       (report_events (display_func st0) (dev st1))).
  - simpl. by rewrite app_nil_r.
  - by intros [].
  - apply report_events_spec.
  - by intros [].
  - apply join_events_spec.
  - by intros [].
  - apply (dps_events _ _ _ _ _ Hposts).
Qed.


(** X12.  The number of threads stays within the limit on open file
    descriptors: when the soft limit [cur] is known, greater than 4 and not
    the largest value of its type, then whatever the default of the library
    and whatever the options -T, valid or not and however many, the scans
    are started with at most [cur - 3] threads, and the semaphore is
    initialised with at most that count. *)
Theorem threads_within_descriptor_limit
  (env : environment) (opts : list cli_opt) (st0 : state) (cur mx : Z) :
  before_dispatch env opts = Some st0 ->
  getrlimit env = Some (cur, mx) ->
  4 < cur < SIZE_MAX ->
  exists stf,
    main env opts = Some (EXIT_SUCCESS, stf)
    /\ 0 <= max_threads stf <= cur - RESERVE_FD_COUNT
    /\ exists v,
         sem_init_values (trace stf) = [v]
         /\ 0 <= v <= cur - RESERVE_FD_COUNT.
Proof.
  intros Hbefore Hget Hrange.
  destruct (main_run env opts st0 Hbefore) as (st1 & evs & _ & Hposts & Hmain).
  destruct (before_dispatch_semaphore env opts st0 Hbefore)
    as (st & Hparse & Hmax & Hsem).
  destruct (init_nofile_limit_max_threads env) as (Hcur & _ & Hnn0 & Hlimit).
  destruct (Hlimit cur mx Hget Hrange) as [Hcur0 Hle0].
  destruct (parse_options_max_threads _ _ _ Hparse Hcur Hnn0) as (Hnn & _ & Hle).
  rewrite Hcur0 in Hle. specialize (Hle Hrange Hle0).
  assert (Hm : 0 <= max_threads st0 <= cur - RESERVE_FD_COUNT).
  { rewrite Hmax. case_decide; unfold_limits; lia. }
  eexists. split; [exact Hmain|].
  change (max_threads (set_trace ?l ?s)) with (max_threads s).
  rewrite (sc_max_threads _ _ (dps_config _ _ _ _ _ Hposts)).
  split; [exact Hm|]. final_state.
  rewrite (sem_init_values_run env opts st0 st1 evs Hbefore Hposts), Hsem.
  eexists. split; [reflexivity|].
  unfold to_uint.
  pose proof (Z.mod_pos_bound (max_threads st0) (2 ^ 32) ltac:(lia)).
  pose proof (Z.mod_le (max_threads st0) (2 ^ 32) ltac:(lia) ltac:(lia)).
  lia.
Qed.

(** * Options that the scan orchestration hands on *)

(** ** The option -t *)

Lemma timeout_product n :
  to_useconds_t (to_useconds_t (to_useconds_t n * 1000) * 1000)
  = (n * 1000000) mod 2 ^ 32.
Proof.
  unfold to_useconds_t.
  rewrite Z.mul_mod_idemp_l, <- Z.mul_assoc, Z.mul_mod_idemp_l by lia.
  reflexivity.
Qed.

Lemma timeout_zero_iff n : (n * 1000000) mod 2 ^ 32 = 0 <-> (2 ^ 26 | n).
Proof.
  rewrite Z.mod_divide by lia.
  replace (n * 1000000) with (64 * (n * 15625)) by lia.
  change (2 ^ 32) with (64 * 2 ^ 26).
  rewrite Z.mul_divide_cancel_l by lia. split.
  - intros H. apply Z.gauss with 15625; [by rewrite Z.mul_comm|].
    reflexivity.
  - intros H. by apply Z.divide_mul_l.
Qed.

(** X13.  The option -t takes its value modulo 2^32 microseconds and
    refuses it only when that is 0: the warning is printed and the default
    kept exactly when the number of seconds is a multiple of 2^26 (0 among
    them, which is also what [atol] makes of a text that is not a number);
    every other value is taken, a negative one as well, as its product with
    1000000 modulo 2^32.  The time-out is the number of seconds that was
    asked for when this is between 1 and 4294; -t 4295 gives 32704
    microseconds, and -t -1 gives 4293967296 microseconds, without a
    warning. *)
Theorem timeout_option_wraps (DEFAULT_NETWORK_TIMEOUT n : Z) :
  ((2 ^ 26 | n) ->
   set_timeout DEFAULT_NETWORK_TIMEOUT n
   = (to_useconds_t (DEFAULT_NETWORK_TIMEOUT * 1000 * 1000),
      [Stderr timeout_warning]))
  /\ (~ (2 ^ 26 | n) ->
      set_timeout DEFAULT_NETWORK_TIMEOUT n = ((n * 1000000) mod 2 ^ 32, [])
      /\ 0 < (n * 1000000) mod 2 ^ 32 < 2 ^ 32)
  /\ (0 < n <= 4294 ->
      set_timeout DEFAULT_NETWORK_TIMEOUT n = (n * 1000000, []))
  /\ set_timeout DEFAULT_NETWORK_TIMEOUT 4295 = (32704, [])
  /\ set_timeout DEFAULT_NETWORK_TIMEOUT (-1) = (4293967296, []).
Proof.
  assert (Hno : ~ (2 ^ 26 | n) ->
    set_timeout DEFAULT_NETWORK_TIMEOUT n = ((n * 1000000) mod 2 ^ 32, [])
    /\ 0 < (n * 1000000) mod 2 ^ 32 < 2 ^ 32).
  { intros Hn. unfold set_timeout. rewrite timeout_product.
    pose proof (Z.mod_pos_bound (n * 1000000) (2 ^ 32) ltac:(lia)) as Hb.
    assert ((n * 1000000) mod 2 ^ 32 <> 0)
      by (by rewrite timeout_zero_iff).
    rewrite decide_False by lia. split; [done | lia]. }
  split; [|split; [exact Hno|split; [|split; reflexivity]]].
  - intros Hn. unfold set_timeout. rewrite timeout_product.
    rewrite (proj2 (timeout_zero_iff n) Hn). reflexivity.
  - intros Hrange.
    assert (Hn : ~ (2 ^ 26 | n)).
    { intros [k Hk]. change (2 ^ 26) with 67108864 in Hk. lia. }
    destruct (Hno Hn) as [-> _]. f_equal. apply Z.mod_small. lia.
Qed.

(** ** The option -m *)

Lemma bits_set_succ w i :
  0 <= i ->
  bits_set (S w) i = Z.land i 1 + bits_set w (Z.shiftr i 1).
Proof.
  intros Hi. unfold bits_set.
  change (seq 0 (S w)) with (0%nat :: seq 1 w).
  rewrite <- seq_shift. cbn [map List.filter]. rewrite map_map.
  assert (Htail :
    List.filter (Z.testbit i) (map (fun x => Z.of_nat (S x)) (seq 0 w))
    = map Z.succ (List.filter (Z.testbit (Z.shiftr i 1)) (map Z.of_nat (seq 0 w)))).
  { induction (seq 0 w) as [|k l IH]; [done|]. cbn [map List.filter].
    rewrite Z.shiftr_spec by lia.
    replace (Z.of_nat k + 1) with (Z.of_nat (S k)) by lia.
    destruct (Z.testbit i (Z.of_nat (S k))); cbn [map]; rewrite IH;
      [f_equal; lia | done]. }
  rewrite Htail.
  assert (Hbit : Z.land i 1 = Z.b2z (Z.testbit i 0)).
  { change 1 with (Z.ones 1). rewrite Z.land_ones by lia.
    symmetry. change (2 ^ 1) with 2. apply Z.bit0_mod. }
  rewrite Hbit. change (Z.of_nat 0) with 0.
  destruct (Z.testbit i 0); cbn [length Z.b2z]; rewrite length_map; lia.
Qed.

Lemma bits_set_zero w : bits_set w 0 = 0.
Proof.
  unfold bits_set. induction (seq 0 w) as [|k l IH]; [done|].
  cbn [map List.filter]. by rewrite Z.testbit_0_l.
Qed.

(** The loop counts the bits that are set. *)
Lemma count_bits_spec fuel :
  forall i masklen,
    0 <= i < 2 ^ Z.of_nat fuel ->
    count_bits fuel i masklen = Some (masklen + bits_set fuel i).
Proof.
  induction fuel as [|fuel IH]; intros i masklen Hi.
  - assert (i = 0) as -> by (change (2 ^ Z.of_nat 0) with 1 in Hi; lia).
    simpl. f_equal. unfold bits_set. simpl. lia.
  - cbn [count_bits]. case_decide as Hz.
    + subst i. rewrite bits_set_zero. f_equal. lia.
    + rewrite IH.
      * rewrite bits_set_succ by lia. f_equal. lia.
      * rewrite Z.shiftr_div_pow2 by lia. change (2 ^ 1) with 2.
        rewrite Nat2Z.inj_succ, Z.pow_succ_r in Hi by lia.
        split; [apply Z.div_pos; lia|].
        apply Z.div_lt_upper_bound; lia.
Qed.

Lemma masklen_inet_spec s_addr :
  masklen_inet s_addr = Some (bits_set 32 (to_uint s_addr)).
Proof.
  unfold masklen_inet. rewrite count_bits_spec; [done|].
  unfold to_uint. apply Z.mod_pos_bound. lia.
Qed.

Lemma masklen_inet6_spec s6_addr :
  masklen_inet6 s6_addr
  = Some (foldr Z.add 0 (map (fun b => bits_set 8 (to_uint8 b)) s6_addr)).
Proof.
  unfold masklen_inet6.
  assert (Hgen : forall l a,
    foldl (fun masklen byte => masklen ≫= count_bits 8 (to_uint8 byte))
      (Some a) l
    = Some (a + foldr Z.add 0 (map (fun b => bits_set 8 (to_uint8 b)) l))).
  { induction l as [|b l IH]; intros a;
      cbn [foldl mbind option_bind map foldr].
    - f_equal. lia.
    - rewrite count_bits_spec
        by (unfold to_uint8; apply Z.mod_pos_bound; lia).
      rewrite IH. f_equal. lia. }
  apply Hgen.
Qed.

Lemma in_range_seq (n : Z) (k : nat) :
  0 <= n < Z.of_nat k -> In n (map Z.of_nat (seq 0 k)).
Proof.
  intros Hn. apply in_map_iff. exists (Z.to_nat n).
  split; [lia|]. apply in_seq. lia.
Qed.

(** X14.  The length of the mask that -m auto derives from the netmask of
    an interface is the number of bits that are set in it: among the 32 bits
    of the word of an IPv4 netmask, and among the bits of the 16 bytes of an
    IPv6 netmask; both loops end.  For the netmask of a prefix of [n] bits it
    is [n], whichever way the bytes of the IPv4 word lie in memory; for a
    netmask that is not a prefix it is still the number of its bits. *)
Theorem netmask_length_counts_bits :
  (forall s_addr,
      masklen_inet s_addr = Some (bits_set 32 (to_uint s_addr)))
  /\ (forall s6_addr,
         masklen_inet6 s6_addr
         = Some (foldr Z.add 0
                   (map (fun b => bits_set 8 (to_uint8 b)) s6_addr)))
  /\ (forall n,
         0 <= n <= 32 ->
         masklen_inet (word_le (prefix_mask 4 n)) = Some n
         /\ masklen_inet (word_be (prefix_mask 4 n)) = Some n)
  /\ (forall n,
         0 <= n <= 128 -> masklen_inet6 (prefix_mask 16 n) = Some n).
Proof.
  split; [exact masklen_inet_spec|]. split; [exact masklen_inet6_spec|].
  split.
  - assert (Hall : Forall (fun n =>
      masklen_inet (word_le (prefix_mask 4 n)) = Some n
      /\ masklen_inet (word_be (prefix_mask 4 n)) = Some n)
      (map Z.of_nat (seq 0 33))).
    { apply (bool_decide_unpack _). vm_compute. exact I. }
    intros n Hn. rewrite Forall_forall in Hall.
    apply Hall, list_elem_of_In, in_range_seq. lia.
  - assert (Hall : Forall (fun n => masklen_inet6 (prefix_mask 16 n) = Some n)
      (map Z.of_nat (seq 0 129))).
    { apply (bool_decide_unpack _). vm_compute. exact I. }
    intros n Hn. rewrite Forall_forall in Hall.
    apply Hall, list_elem_of_In, in_range_seq. lia.
Qed.

Lemma flush_range_recorded st rs :
  reg_wf (reg st) ->
  registry_ranges (reg st) = Some rs ->
  reg_wf (reg (flush_range st))
  /\ registry_ranges (reg (flush_range st)) = Some (rs ++ pending_range st)
  /\ pending_range (flush_range st) = [].
Proof.
  intros Hwf Hrs.
  destruct (add_ip_range_recorded (pend_start_ip st) (pend_end_ip st) st rs
              Hwf Hrs) as [Hwf' Hrs'].
  unfold flush_range, pending_range.
  destruct (add_ip_range _ _ st) as [n st']. done.
Qed.

Lemma flush_pending_recorded st rs :
  reg_wf (reg st) ->
  registry_ranges (reg st) = Some rs ->
  reg_wf (reg (flush_pending st))
  /\ registry_ranges (reg (flush_pending st)) = Some (rs ++ pending_range st)
  /\ pending_range (flush_pending st) = [].
Proof.
  intros Hwf Hrs. unfold flush_pending.
  destruct (pend_start_ip st) as [a|] eqn:Ea;
    [|destruct (pend_end_ip st) as [b|] eqn:Eb];
    try by apply flush_range_recorded.
  unfold pending_range. rewrite Ea, Eb. simpl. by rewrite app_nil_r.
Qed.

Lemma add_cidr_recorded net cidr st rs :
  reg_wf (reg st) ->
  registry_ranges (reg st) = Some rs ->
  reg_wf (reg (add_cidr net cidr st))
  /\ registry_ranges (reg (add_cidr net cidr st))
     = Some (rs ++ option_list (recorded_range (nutscan_cidr_to_ip net cidr)))
  /\ pending_range (add_cidr net cidr st) = [].
Proof.
  intros Hwf Hrs. unfold add_cidr.
  destruct (nutscan_cidr_to_ip net cidr) as [s e].
  match goal with
  | |- context [flush_range ?x] =>
      destruct (flush_range_recorded x rs) as (Hwf' & Hrs' & Hpend);
      [exact Hwf | exact Hrs |]
  end.
  done.
Qed.

(** One interface: the loop records its range when it is wanted. *)
Lemma scan_interface_recorded net auto_nets ifa st rs :
  reg_wf (reg st) ->
  registry_ranges (reg st) = Some rs ->
  pending_range st = [] ->
  exists st',
    scan_interface net auto_nets ifa st = Some st'
    /\ reg_wf (reg st')
    /\ registry_ranges (reg st')
       = Some (rs ++ option_list (interface_range net auto_nets ifa))
    /\ pending_range st' = [].
Proof.
  intros Hwf Hrs Hpend.
  assert (Hsame : exists st',
    Some st = Some st' /\ reg_wf (reg st')
    /\ registry_ranges (reg st') = Some (rs ++ option_list None)
    /\ pending_range st' = []).
  { exists st. simpl. by rewrite app_nil_r. }
  assert (Hcidr : forall cidr,
    let st1 := upsdebugx 5 "Discovering getifaddrs(): %s" st in
    exists st',
      Some (add_cidr net cidr st1) = Some st' /\ reg_wf (reg st')
      /\ registry_ranges (reg st')
         = Some (rs ++ option_list (recorded_range (nutscan_cidr_to_ip net cidr)))
      /\ pending_range st' = []).
  { intros cidr st1. eexists. split; [reflexivity|].
    by apply add_cidr_recorded. }
  assert (Hskip :
    let st1 := upsdebugx 5 "Discovering getifaddrs(): %s" st in
    exists st',
      Some st1 = Some st' /\ reg_wf (reg st')
      /\ registry_ranges (reg st') = Some (rs ++ option_list None)
      /\ pending_range st' = []).
  { eexists. split; [reflexivity|]. simpl. by rewrite app_nil_r. }
  unfold scan_interface, interface_range, wanted_cidr, interface_cidr.
  destruct (ifa_addr ifa) as [[addr netmask|addr netmask|]|]; try exact Hsame.
  - rewrite masklen_inet_spec. cbn [mbind option_bind].
    destruct (interface_wanted auto_nets false ifa); [apply Hcidr|apply Hskip].
  - rewrite masklen_inet6_spec. cbn [mbind option_bind].
    destruct (interface_wanted auto_nets true ifa); [apply Hcidr|apply Hskip].
Qed.

Lemma scan_interfaces_recorded net auto_nets ifap :
  forall st rs,
    reg_wf (reg st) ->
    registry_ranges (reg st) = Some rs ->
    pending_range st = [] ->
    exists st',
      scan_interfaces net auto_nets ifap st = Some st'
      /\ reg_wf (reg st')
      /\ registry_ranges (reg st')
         = Some (rs ++ omap (interface_range net auto_nets) ifap)
      /\ pending_range st' = [].
Proof.
  induction ifap as [|ifa ifap IH]; intros st rs Hwf Hrs Hpend.
  - exists st. simpl. by rewrite app_nil_r.
  - destruct (scan_interface_recorded net auto_nets ifa st rs Hwf Hrs Hpend)
      as (st1 & Hrun1 & Hwf1 & Hrs1 & Hpend1).
    destruct (IH st1 _ Hwf1 Hrs1 Hpend1) as (st2 & Hrun2 & Hwf2 & Hrs2 & Hpend2).
    exists st2. cbn [scan_interfaces]. rewrite Hrun1. cbn [mbind option_bind].
    split; [exact Hrun2|]. split; [exact Hwf2|]. split; [|exact Hpend2].
    rewrite Hrs2, <- app_assoc. do 2 f_equal.
    change (omap (interface_range net auto_nets) (ifa :: ifap))
      with (match interface_range net auto_nets ifa with
            | Some y => y :: omap (interface_range net auto_nets) ifap
            | None => omap (interface_range net auto_nets) ifap
            end).
    by destruct (interface_range net auto_nets ifa).
Qed.

(** X15.  The option -m with a CIDR first records a pending -s or -e as a
    range of its own (a single address, its start and its end), and then the
    range that the library makes of the CIDR, after the ranges recorded
    before: an address given by -s or -e is never paired across a -m, and
    none is lost; when the library returns no address at all, nothing is
    recorded for the CIDR, and when it returns one address, that address is
    both ends.  No endpoint is pending afterwards, and [auto_nets] is as it
    was. *)
Theorem cidr_option_records_range
  (net : net_environment) (optarg : string) (auto_nets : Z) (st : state)
  (rs : list (option string * option string)) :
  reg_wf (reg st) ->
  registry_ranges (reg st) = Some rs ->
  optarg <> "auto" -> optarg <> "auto4" -> optarg <> "auto6" ->
  exists st',
    process_m net optarg auto_nets st = Some (M_continue auto_nets st')
    /\ reg_wf (reg st')
    /\ registry_ranges (reg st')
       = Some (rs ++ pending_range st
               ++ option_list (recorded_range (nutscan_cidr_to_ip net optarg)))
    /\ pending_range st' = []
    /\ pend_start_ip st' = None /\ pend_end_ip st' = None.
Proof.
  intros Hwf Hrs H1 H2 H3. unfold process_m.
  rewrite !bool_decide_eq_false_2 by done. cbn [orb].
  destruct (flush_pending_recorded st rs Hwf Hrs) as (Hwf1 & Hrs1 & _).
  destruct (add_cidr_recorded net optarg (flush_pending st) _ Hwf1 Hrs1)
    as (Hwf2 & Hrs2 & Hpend2).
  eexists. split; [reflexivity|]. split; [exact Hwf2|].
  split; [by rewrite Hrs2, <- app_assoc|]. split; [exact Hpend2|].
  unfold add_cidr. destruct (nutscan_cidr_to_ip net optarg).
  apply flush_range_pending.
Qed.

(** X16.  The option -m auto, auto4 or auto6 also records a pending -s or
    -e first.  The first such option of a run then records, in the order of
    the list of [getifaddrs], one range for each interface that has an
    address of a family that was asked for (IPv4 for auto4, IPv6 for auto6,
    either for auto), is up, running and able to broadcast, and is not the
    loopback: the range that the library makes of the text of its address,
    a slash and the number of bits of its netmask; interfaces without an
    address or of another family are passed over.  When [getifaddrs] fails
    the program ends through [fatalx].  Any further such option is answered
    by a warning and records nothing but the pending endpoint. *)
Theorem auto_option_records_interfaces
  (net : net_environment) (optarg : string) (auto_nets : Z) (st : state)
  (rs : list (option string * option string)) :
  reg_wf (reg st) ->
  registry_ranges (reg st) = Some rs ->
  optarg = "auto" \/ optarg = "auto4" \/ optarg = "auto6" ->
  (forall ifap,
      auto_nets = 0 -> getifaddrs net = Some ifap ->
      exists st',
        process_m net optarg auto_nets st
        = Some (M_continue (auto_nets_of optarg) st')
        /\ auto_nets_of optarg <> 0
        /\ reg_wf (reg st')
        /\ registry_ranges (reg st')
           = Some (rs ++ pending_range st
                   ++ omap (interface_range net (auto_nets_of optarg)) ifap)
        /\ pending_range st' = [])
  /\ (auto_nets = 0 -> getifaddrs net = None ->
      exists st',
        process_m net optarg auto_nets st = Some (M_fatal st')
        /\ registry_ranges (reg st') = Some (rs ++ pending_range st))
  /\ (auto_nets <> 0 ->
      exists st',
        process_m net optarg auto_nets st = Some (M_continue auto_nets st')
        /\ last (trace st') = Some (Stderr duplicate_auto_warning)
        /\ reg_wf (reg st')
        /\ registry_ranges (reg st') = Some (rs ++ pending_range st)
        /\ pending_range st' = []).
Proof.
  intros Hwf Hrs Hauto.
  destruct (flush_pending_recorded st rs Hwf Hrs) as (Hwf1 & Hrs1 & Hpend1).
  assert (Hcond : bool_decide (optarg = "auto") || bool_decide (optarg = "auto4")
                  || bool_decide (optarg = "auto6") = true).
  { destruct Hauto as [-> | [-> | ->]]; reflexivity. }
  assert (Hcode :
    (if bool_decide (optarg = "auto") then 46
     else if bool_decide (optarg = "auto4") then 4
     else if bool_decide (optarg = "auto6") then 6 else 0)
    = auto_nets_of optarg /\ auto_nets_of optarg <> 0).
  { destruct Hauto as [-> | [-> | ->]]; done. }
  destruct Hcode as [Hcode Hnz].
  unfold process_m. rewrite Hcond. split; [|split].
  - intros ifap -> Hget. rewrite decide_False by lia. rewrite Hcode, Hget.
    destruct (scan_interfaces_recorded net (auto_nets_of optarg) ifap
                (flush_pending st) _ Hwf1 Hrs1 Hpend1)
      as (st' & Hrun & Hwf' & Hrs' & Hpend').
    exists st'. rewrite Hrun. cbn [mbind option_bind].
    split; [done|]. split; [done|]. split; [done|].
    split; [by rewrite Hrs', <- app_assoc | done].
  - intros -> Hget. rewrite decide_False by lia. rewrite Hget.
    eexists. split; [reflexivity|]. exact Hrs1.
  - intros Hnz'. rewrite decide_True by done.
    eexists. split; [reflexivity|].
    split; [by rewrite trace_emit, last_snoc|]. done.
Qed.

(** * The registry in memory *)

Lemma freed_length ps m : length (Ptr.freed ps m) = length m.
Proof.
  revert m. induction ps as [|p ps IH]; intros m; [done|].
  change (Ptr.freed (p :: ps) m) with (Ptr.freed ps (<[p:=None]> m)).
  rewrite IH. apply length_insert.
Qed.

Lemma freed_app ps qs m :
  Ptr.freed (ps ++ qs) m = Ptr.freed qs (Ptr.freed ps m).
Proof. unfold Ptr.freed. apply foldl_app. Qed.

Lemma freed_lookup_ne ps m a : a ∉ ps -> Ptr.freed ps m !! a = m !! a.
Proof.
  revert m. induction ps as [|p ps IH]; intros m Ha; [done|].
  apply not_elem_of_cons in Ha as [Hne Ha].
  change (Ptr.freed (p :: ps) m) with (Ptr.freed ps (<[p:=None]> m)).
  rewrite IH by done. by apply list_lookup_insert_ne.
Qed.

Lemma freed_lookup ps m a :
  a ∈ ps -> (a < length m)%nat -> Ptr.freed ps m !! a = Some None.
Proof.
  revert m. induction ps as [|p ps IH]; intros m Ha Hlen.
  - by apply elem_of_nil in Ha.
  - change (Ptr.freed (p :: ps) m) with (Ptr.freed ps (<[p:=None]> m)).
    destruct (decide (a ∈ ps)) as [Hin|Hnotin].
    + apply IH; [done | by rewrite length_insert].
    + apply elem_of_cons in Ha as [->|Ha]; [|done].
      rewrite freed_lookup_ne by done.
      by apply list_lookup_insert_eq.
Qed.

Lemma free_live p m b :
  m !! p = Some (Some b) -> Ptr.free p m = Some (Ptr.freed [p] m).
Proof. intros H. unfold Ptr.free. by rewrite H. Qed.


Lemma owned_in_concat x v (L : list Ptr.node_view) :
  x ∈ Ptr.owned v -> v ∈ L -> x ∈ concat (map Ptr.owned L).
Proof.
  intros Hx Hv. apply list_elem_of_In, in_concat.
  exists (Ptr.owned v). split; [|by apply list_elem_of_In].
  by apply in_map, list_elem_of_In.
Qed.

Lemma owned_members v :
  Ptr.nv_start v ∈ Ptr.owned v /\ Ptr.nv_end v ∈ Ptr.owned v
  /\ Ptr.nv_node v ∈ Ptr.owned v.
Proof.
  unfold Ptr.owned. case_decide as Heq; [rewrite <- Heq|];
    repeat split; repeat first [apply list_elem_of_here | apply list_elem_of_further].
Qed.

(** The loop of [free_ip_ranges] over nodes that are linked and own their
    blocks: it ends and frees the blocks of every node, each once. *)
Lemma free_loop_spec L :
  forall fuel st,
    Ptr.linked (Ptr.mem st) L ->
    NoDup (concat (map Ptr.owned L)) ->
    Ptr.ip_ranges st = Ptr.node_at L 0 ->
    (length L <= fuel)%nat ->
    Ptr.free_loop fuel (Ptr.ip_ranges st) st
    = Some (Ptr.State (Ptr.freed (concat (map Ptr.owned L)) (Ptr.mem st)) None
              (Ptr.ip_ranges_last st) (Ptr.ip_ranges_count st)
              (Ptr.pend_start_ip st) (Ptr.pend_end_ip st)).
Proof.
  induction L as [|v L IH]; intros fuel st [Hnodes Hstrings] Hnodup Hhead Hfuel.
  - rewrite Hhead. destruct st; simpl in *. subst. by destruct fuel.
  - destruct fuel as [|fuel]; [simpl in Hfuel; lia|].
    rewrite Hhead. cbn [Ptr.node_at lookup list_lookup fmap option_fmap option_map].
    cbn [Ptr.free_loop]. rewrite (Hnodes 0%nat v eq_refl).
    cbn [map concat] in Hnodup. apply NoDup_app in Hnodup as (Hv & Hdisj & HL).
    destruct (Hstrings v (list_elem_of_here _ _)) as [Hs He].
    pose proof (Hnodes 0%nat v eq_refl) as Hn.
    set (m := Ptr.mem st) in *.
    assert (Hfree : Ptr.free_strings (Some (Ptr.nv_start v))
                      (Some (Ptr.nv_end v)) m
                    ≫= Ptr.free (Ptr.nv_node v)
                    = Some (Ptr.freed (Ptr.owned v) m)).
    { unfold Ptr.owned, Ptr.free_strings in *. cbn [Ptr.free_if].
      destruct (decide (Ptr.nv_start v = Ptr.nv_end v)) as [Heq|Hne].
      - rewrite decide_True by (split; [by rewrite Heq | eauto]).
        rewrite (free_live _ _ _ Hs). cbn [mbind option_bind].
        apply NoDup_cons in Hv as [Hns _].
        erewrite free_live; [by rewrite <- freed_app|].
        rewrite freed_lookup_ne; [exact Hn|].
        intros Hin. apply Hns. apply list_elem_of_singleton in Hin.
        rewrite Hin. apply list_elem_of_here.
      - rewrite decide_False by (intros [[= ?] _]; done).
        rewrite (free_live _ _ _ Hs). cbn [mbind option_bind].
        apply NoDup_cons in Hv as [Hs_notin Hv].
        apply NoDup_cons in Hv as [He_notin _].
        erewrite free_live; [|rewrite freed_lookup_ne; [exact He|]].
        2: { intros Hin. apply list_elem_of_singleton in Hin. congruence. }
        cbn [mbind option_bind]. rewrite <- freed_app.
        erewrite free_live; [by rewrite <- freed_app|].
        rewrite freed_lookup_ne; [exact Hn|].
        intros Hin. apply elem_of_cons in Hin as [Hin|Hin].
        + apply Hs_notin. rewrite <- Hin.
          apply list_elem_of_further, list_elem_of_here.
        + apply list_elem_of_singleton in Hin. apply He_notin.
          rewrite <- Hin. apply list_elem_of_here. }
    destruct (Ptr.free_strings _ _ m) as [m0|]; [|discriminate].
    cbn [mbind option_bind] in Hfree |- *. rewrite Hfree.
    cbn [mbind option_bind].
    set (st1 := Ptr.State _ _ _ _ _ _).
    assert (Hnotin : forall x v', v' ∈ L -> x ∈ Ptr.owned v' ->
                                  x ∉ Ptr.owned v).
    { intros x v' Hv' Hx Hxv. apply (Hdisj x Hxv).
      exact (owned_in_concat x v' L Hx Hv'). }
    change (Ptr.free_loop fuel (Ptr.node_at (v :: L) 1) st1)
      with (Ptr.free_loop fuel (Ptr.ip_ranges st1) st1).
    rewrite (IH fuel st1).
    + subst st1.
      cbn [Ptr.mem Ptr.ip_ranges_last Ptr.ip_ranges_count Ptr.pend_start_ip
           Ptr.pend_end_ip map concat].
      by rewrite freed_app.
    + subst st1. cbn [Ptr.mem]. split.
      * intros i v' Hi. rewrite freed_lookup_ne.
        -- exact (Hnodes (S i) v' Hi).
        -- eapply Hnotin; [by eapply list_elem_of_lookup_2|].
           apply owned_members.
      * intros v' Hv'.
        destruct (Hstrings v' (list_elem_of_further _ _ _ Hv')) as [Hs' He'].
        rewrite !freed_lookup_ne; [done| |];
          (eapply Hnotin; [exact Hv' | apply owned_members]).
    + exact HL.
    + reflexivity.
    + simpl in Hfuel. lia.
Qed.

(** Every block that is owned or pending is live. *)
Lemma inv_live st L x :
  Ptr.memory_inv st L ->
  x ∈ concat (map Ptr.owned L) ++ Ptr.pending_ptrs st ->
  exists b, Ptr.mem st !! x = Some (Some b).
Proof.
  intros Hinv Hx. apply elem_of_app in Hx as [Hx|Hx].
  - apply list_elem_of_In, in_concat in Hx as (l & Hl & Hx).
    apply in_map_iff in Hl as (v & <- & Hv).
    apply list_elem_of_In in Hv, Hx.
    destruct (list_elem_of_lookup_1 _ _ Hv) as [i Hi].
    unfold Ptr.owned in Hx.
    apply elem_of_cons in Hx as [->|Hx];
      [rewrite (Ptr.inv_start _ _ Hinv v Hv); eauto|].
    apply elem_of_app in Hx as [Hx|Hx].
    + case_decide; [by apply elem_of_nil in Hx|].
      apply list_elem_of_singleton in Hx as ->.
      rewrite (Ptr.inv_end _ _ Hinv v Hv); eauto.
    + apply list_elem_of_singleton in Hx as ->.
      rewrite (Ptr.inv_nodes _ _ Hinv i v Hi); eauto.
  - destruct (Ptr.inv_pending _ _ Hinv x Hx) as [s Hs]. eauto.
Qed.

Lemma inv_lt st L x :
  Ptr.memory_inv st L ->
  x ∈ concat (map Ptr.owned L) ++ Ptr.pending_ptrs st ->
  (x < length (Ptr.mem st))%nat.
Proof.
  intros Hinv Hx. destruct (inv_live st L x Hinv Hx) as [b Hb].
  by eapply lookup_lt_Some.
Qed.

Lemma node_at_app_l (L : list Ptr.node_view) v i :
  (i < length L)%nat -> Ptr.node_at (L ++ [v]) i = Ptr.node_at L i.
Proof. intros Hi. unfold Ptr.node_at. by rewrite lookup_app_l. Qed.

Lemma node_at_ge (L : list Ptr.node_view) i :
  (length L <= i)%nat -> Ptr.node_at L i = None.
Proof. intros Hi. unfold Ptr.node_at. by rewrite lookup_ge_None_2. Qed.

Lemma node_at_length (L : list Ptr.node_view) v :
  Ptr.node_at (L ++ [v]) (length L) = Some (Ptr.nv_node v).
Proof.
  unfold Ptr.node_at. rewrite lookup_app_r by lia.
  by rewrite Nat.sub_diag.
Qed.

(** What the memory is after a node is linked in. *)
Lemma link_new_memory st L s e :
  Ptr.memory_inv st L ->
  let m := Ptr.mem st in
  let p := length m in
  exists n m2,
    Ptr.link_new s e st
    = Some (n, Ptr.State m2
                 (match Ptr.ip_ranges st with
                  | None => Some p
                  | Some q => Some q
                  end)
                 (Some p) n (Ptr.pend_start_ip st) (Ptr.pend_end_ip st))
    /\ length m2 = S (length m)
    /\ m2 !! p = Some (Some (Ptr.RangeNode (Some s) (Some e) None))
    /\ (forall a t,
           m !! a = Some (Some (Ptr.Chars t)) ->
           m2 !! a = Some (Some (Ptr.Chars t)))
    /\ (forall i vi v,
           L !! i = Some vi -> Ptr.nv_node v = p ->
           m2 !! Ptr.nv_node vi
           = Some (Some (Ptr.RangeNode (Some (Ptr.nv_start vi))
                           (Some (Ptr.nv_end vi))
                           (Ptr.node_at (L ++ [v]) (S i)))))
    /\ (forall a b,
           m2 !! a = Some (Some b) ->
           a = p \/ exists b', m !! a = Some (Some b')).
Proof.
  intros Hinv m p. unfold Ptr.link_new, Ptr.malloc. fold m. fold p.
  rewrite (Ptr.inv_last _ _ Hinv).
  destruct (last L) as [vl|] eqn:Hlast.
  - (* the registry holds nodes: the last one is linked to the new one *)
    apply last_Some in Hlast as [L0 ->].
    assert (Hvl : (L0 ++ [vl]) !! length L0 = Some vl)
      by (by rewrite lookup_app_r, Nat.sub_diag by lia).
    pose proof (Ptr.inv_nodes _ _ Hinv _ _ Hvl) as Hl. fold m in Hl.
    rewrite node_at_ge in Hl by (rewrite length_app; simpl; lia).
    assert (Hlt : (Ptr.nv_node vl < p)%nat) by (by eapply lookup_lt_Some).
    cbn [fmap option_fmap option_map]. unfold Ptr.store_next.
    eexists _, _. split.
    { rewrite lookup_app_l, Hl by done. reflexivity. }
    split; [rewrite length_insert, length_app; simpl; lia|].
    split; [|split; [|split]].
    + rewrite list_lookup_insert_ne by lia.
      by rewrite lookup_app_r, Nat.sub_diag by (unfold p; lia).
    + intros a t Ha.
      rewrite list_lookup_insert_ne by (intros <-; congruence).
      rewrite lookup_app_l; [done | by eapply lookup_lt_Some].
    + intros i vi v Hi Hv.
      pose proof (Ptr.inv_nodes _ _ Hinv _ _ Hi) as Hnode. fold m in Hnode.
      pose proof (lookup_lt_Some _ _ _ Hi) as Hilt.
      rewrite length_app in Hilt. simpl in Hilt.
      destruct (decide (i = length L0)) as [->|Hne].
      * rewrite Hvl in Hi. injection Hi as <-.
        rewrite list_lookup_insert_eq by (rewrite length_app; simpl; lia).
        replace (S (length L0)) with (length (L0 ++ [vl]))
          by (rewrite length_app; simpl; lia).
        by rewrite node_at_length, Hv.
      * assert (Hnext : is_Some (Ptr.node_at (L0 ++ [vl]) (S i))).
        { unfold Ptr.node_at. apply fmap_is_Some, lookup_lt_is_Some.
          rewrite length_app. simpl. lia. }
        rewrite list_lookup_insert_ne.
        -- rewrite lookup_app_l by (by eapply lookup_lt_Some).
           rewrite Hnode, (node_at_app_l (L0 ++ [vl]) v); [done|].
           rewrite length_app. simpl. lia.
        -- intros Heq. rewrite <- Heq, Hl in Hnode.
           injection Hnode as _ _ Hnone. rewrite <- Hnone in Hnext.
           by destruct Hnext.
    + intros a b Ha.
      destruct (decide (a = Ptr.nv_node vl)) as [->|Hne]; [eauto|].
      rewrite list_lookup_insert_ne in Ha by done.
      destruct (decide (a < p)%nat) as [Hlt'|Hge].
      * rewrite lookup_app_l in Ha by done. eauto.
      * left. apply lookup_lt_Some in Ha. rewrite length_app in Ha.
        simpl in Ha. unfold p in *. lia.
  - (* the registry is empty *)
    apply last_None in Hlast as ->. cbn [fmap option_fmap option_map].
    cbn [mbind option_bind].
    eexists _, _. split; [reflexivity|].
    split; [rewrite length_app; simpl; lia|].
    split; [|split; [|split]].
    + by rewrite lookup_app_r, Nat.sub_diag by (unfold p; lia).
    + intros a t Ha. rewrite lookup_app_l; [done | by eapply lookup_lt_Some].
    + intros i vi v Hi. by rewrite lookup_nil in Hi.
    + intros a b Ha.
      destruct (decide (a < p)%nat) as [Hlt'|Hge].
      * rewrite lookup_app_l in Ha by done. eauto.
      * left. apply lookup_lt_Some in Ha. rewrite length_app in Ha.
        simpl in Ha. unfold p in *. lia.
Qed.

Lemma owned_strings_of v :
  Ptr.owned v
  = Ptr.strings_of (Ptr.nv_start v) (Ptr.nv_end v) ++ [Ptr.nv_node v].
Proof. reflexivity. Qed.

Lemma concat_owned_snoc (L : list Ptr.node_view) v :
  concat (map Ptr.owned (L ++ [v])) = concat (map Ptr.owned L) ++ Ptr.owned v.
Proof. by rewrite map_app, concat_app; simpl; rewrite app_nil_r. Qed.

(** A node linked in for the pending strings keeps the invariant, with no
    string pending any more. *)
Lemma link_new_inv st L s e ts te :
  Ptr.memory_inv st L ->
  Ptr.mem st !! s = Some (Some (Ptr.Chars ts)) ->
  Ptr.mem st !! e = Some (Some (Ptr.Chars te)) ->
  Ptr.pending_ptrs st = Ptr.strings_of s e ->
  exists n st',
    Ptr.link_new s e st = Some (n, st')
    /\ length (Ptr.mem st') = S (length (Ptr.mem st))
    /\ Ptr.memory_inv (Ptr.clear_pending st')
         (L ++ [Ptr.NodeView (length (Ptr.mem st)) s e ts te]).
Proof.
  intros Hinv Hs He Hpend.
  set (v := Ptr.NodeView (length (Ptr.mem st)) s e ts te).
  destruct (link_new_memory st L s e Hinv)
    as (n & m2 & Hrun & Hlen & Hnew & Hchars & Hnodes & Hlive).
  eexists _, _. split; [exact Hrun|]. split; [exact Hlen|].
  assert (Hfresh : length (Ptr.mem st)
                   ∉ concat (map Ptr.owned L) ++ Ptr.pending_ptrs st).
  { intros Hin. apply (inv_lt st L _ Hinv) in Hin. lia. }
  split; cbn [Ptr.clear_pending Ptr.mem Ptr.ip_ranges Ptr.ip_ranges_last
              Ptr.pending_ptrs Ptr.pend_start_ip Ptr.pend_end_ip option_list
              app].
  - intros i v' Hi. destruct (decide (i < length L)%nat) as [Hlt|Hge].
    + rewrite lookup_app_l in Hi by done. by apply Hnodes.
    + rewrite lookup_app_r in Hi by lia.
      destruct (i - length L)%nat as [|k] eqn:Hk; [|by destruct k].
      injection Hi as <-. cbn [Ptr.nv_node Ptr.nv_start Ptr.nv_end v].
      rewrite node_at_ge by (rewrite length_app; simpl; lia). exact Hnew.
  - intros v' Hv'. apply elem_of_app in Hv' as [Hv'|Hv'].
    + apply Hchars, (Ptr.inv_start _ _ Hinv), Hv'.
    + apply list_elem_of_singleton in Hv' as ->. by apply Hchars.
  - intros v' Hv'. apply elem_of_app in Hv' as [Hv'|Hv'].
    + apply Hchars, (Ptr.inv_end _ _ Hinv), Hv'.
    + apply list_elem_of_singleton in Hv' as ->. by apply Hchars.
  - rewrite (Ptr.inv_head _ _ Hinv). unfold Ptr.node_at.
    destruct L as [|v0 L]; reflexivity.
  - by rewrite last_snoc.
  - rewrite app_nil_r, concat_owned_snoc, owned_strings_of.
    cbn [Ptr.nv_node Ptr.nv_start Ptr.nv_end v]. rewrite <- Hpend, app_assoc.
    apply NoDup_app. split; [apply (Ptr.inv_nodup _ _ Hinv)|]. split.
    + intros x Hx Hx'. apply list_elem_of_singleton in Hx' as ->. done.
    + apply NoDup_singleton.
  - intros p Hp. by apply elem_of_nil in Hp.
  - intros a b Ha. rewrite app_nil_r, concat_owned_snoc, owned_strings_of.
    cbn [Ptr.nv_node Ptr.nv_start Ptr.nv_end v]. rewrite <- Hpend, app_assoc.
    apply elem_of_app. destruct (Hlive a b Ha) as [->|[b' Hb']].
    + right. apply list_elem_of_here.
    + left. by apply (Ptr.inv_cover _ _ Hinv a b').
Qed.

Lemma deref_Some m p a :
  Ptr.deref m (Some p) = Some a ->
  exists t, a = Some t /\ m !! p = Some (Some (Ptr.Chars t)).
Proof.
  unfold Ptr.deref. destruct (m !! p) as [[[t|]|]|]; try discriminate.
  intros [= <-]. eauto.
Qed.

Lemma deref_chars m p t :
  m !! p = Some (Some (Ptr.Chars t)) -> Ptr.deref m (Some p) = Some (Some t).
Proof. intros H. unfold Ptr.deref. by rewrite H. Qed.

(** The flush of the pending strings links one node in, which holds them as
    [add_ip_range] completes them, and leaves nothing pending. *)
Lemma flush_range_inv st L a b :
  Ptr.memory_inv st L ->
  Ptr.deref (Ptr.mem st) (Ptr.pend_start_ip st) = Some a ->
  Ptr.deref (Ptr.mem st) (Ptr.pend_end_ip st) = Some b ->
  is_Some a \/ is_Some b ->
  exists st' v,
    Ptr.flush_range st = Some st'
    /\ length (Ptr.mem st') = S (length (Ptr.mem st))
    /\ Ptr.memory_inv st' (L ++ [v])
    /\ Ptr.pend_start_ip st' = None
    /\ Ptr.pend_end_ip st' = None
    /\ Ptr.view_bounds v
       = (match a with Some _ => a | None => b end,
          match b with Some _ => b | None => a end).
Proof.
  intros Hinv Ha Hb Hsome. unfold Ptr.flush_range.
  destruct (Ptr.pend_start_ip st) as [s|] eqn:Hps;
    destruct (Ptr.pend_end_ip st) as [e|] eqn:Hpe.
  - apply deref_Some in Ha as (ts & -> & Hs).
    apply deref_Some in Hb as (te & -> & He).
    change (Ptr.add_ip_range (Some s) (Some e) st) with (Ptr.link_new s e st).
    destruct (link_new_inv st L s e ts te Hinv Hs He) as (n & st' & -> & Hlen & Hinv').
    { pose proof (Ptr.inv_nodup _ _ Hinv) as Hnd. unfold Ptr.pending_ptrs in *.
      rewrite Hps, Hpe in *. apply NoDup_app in Hnd as (_ & _ & Hnd).
      apply NoDup_cons in Hnd as [Hne _]. unfold Ptr.strings_of.
      rewrite decide_False; [done|].
      intros ->. apply Hne, list_elem_of_here. }
    eexists _, _. split; [reflexivity|]. split; [exact Hlen|].
    split; [exact Hinv'|]. done.
  - apply deref_Some in Ha as (ts & -> & Hs). injection Hb as <-.
    change (Ptr.add_ip_range (Some s) None st) with (Ptr.link_new s s st).
    destruct (link_new_inv st L s s ts ts Hinv Hs Hs) as (n & st' & -> & Hlen & Hinv').
    { unfold Ptr.pending_ptrs, Ptr.strings_of. rewrite Hps, Hpe.
      by rewrite decide_True. }
    eexists _, _. split; [reflexivity|]. split; [exact Hlen|].
    split; [exact Hinv'|]. done.
  - apply deref_Some in Hb as (te & -> & He). injection Ha as <-.
    change (Ptr.add_ip_range None (Some e) st) with (Ptr.link_new e e st).
    destruct (link_new_inv st L e e te te Hinv He He) as (n & st' & -> & Hlen & Hinv').
    { unfold Ptr.pending_ptrs, Ptr.strings_of. rewrite Hps, Hpe.
      by rewrite decide_True. }
    eexists _, _. split; [reflexivity|]. split; [exact Hlen|].
    split; [exact Hinv'|]. done.
  - injection Ha as <-. injection Hb as <-.
    destruct Hsome as [[? [=]]|[? [=]]].
Qed.

(** A string that is duplicated into a free local keeps the invariant. *)
Lemma alloc_chars_inv st L t ps pe :
  Ptr.memory_inv st L ->
  option_list ps ++ option_list pe
  ≡ₚ length (Ptr.mem st) :: Ptr.pending_ptrs st ->
  Ptr.memory_inv
    (Ptr.State (Ptr.mem st ++ [Some (Ptr.Chars t)]) (Ptr.ip_ranges st)
       (Ptr.ip_ranges_last st) (Ptr.ip_ranges_count st) ps pe) L.
Proof.
  intros Hinv Hperm.
  assert (Hkeep : forall a b,
             Ptr.mem st !! a = Some b ->
             (Ptr.mem st ++ [Some (Ptr.Chars t)]) !! a = Some b).
  { intros a b Hab. rewrite lookup_app_l; [done | by eapply lookup_lt_Some]. }
  split; cbn [Ptr.mem Ptr.ip_ranges Ptr.ip_ranges_last Ptr.pending_ptrs
              Ptr.pend_start_ip Ptr.pend_end_ip].
  - intros i v Hi. apply Hkeep, (Ptr.inv_nodes _ _ Hinv), Hi.
  - intros v Hv. apply Hkeep, (Ptr.inv_start _ _ Hinv), Hv.
  - intros v Hv. apply Hkeep, (Ptr.inv_end _ _ Hinv), Hv.
  - apply (Ptr.inv_head _ _ Hinv).
  - apply (Ptr.inv_last _ _ Hinv).
  - rewrite Hperm. rewrite <- Permutation_middle. apply NoDup_cons. split.
    + intros Hin. apply (inv_lt st L _ Hinv) in Hin. lia.
    + apply (Ptr.inv_nodup _ _ Hinv).
  - intros p Hp. rewrite Hperm in Hp. apply elem_of_cons in Hp as [->|Hp].
    + exists t. by rewrite lookup_app_r, Nat.sub_diag by lia.
    + destruct (Ptr.inv_pending _ _ Hinv p Hp) as [s Hs]. exists s.
      by apply Hkeep.
  - intros a b Ha. rewrite Hperm, <- Permutation_middle.
    destruct (decide (a < length (Ptr.mem st))%nat) as [Hlt|Hge].
    + rewrite lookup_app_l in Ha by done. apply list_elem_of_further.
      by apply (Ptr.inv_cover _ _ Hinv a b).
    + apply lookup_lt_Some in Ha as Hlen. rewrite length_app in Hlen.
      simpl in Hlen. replace a with (length (Ptr.mem st)) by lia.
      apply list_elem_of_here.
Qed.

Lemma deref_None_inv m p : Ptr.deref m p = Some None -> p = None.
Proof.
  destruct p as [q|]; [|done]. intros H.
  by apply deref_Some in H as (t & [=] & _).
Qed.

Lemma deref_Some_inv m p a :
  Ptr.deref m p = Some (Some a) ->
  exists q, p = Some q /\ m !! q = Some (Some (Ptr.Chars a)).
Proof.
  destruct p as [q|]; [|done]. intros H.
  apply deref_Some in H as (t & [= <-] & H). eauto.
Qed.

Lemma deref_app m l p b :
  Ptr.deref m p = Some b -> Ptr.deref (m ++ l) p = Some b.
Proof.
  destruct p as [q|]; [|done]. intros H.
  apply deref_Some in H as (t & -> & H). apply deref_chars.
  rewrite lookup_app_l; [done | by eapply lookup_lt_Some].
Qed.

Lemma strdup_start_spec st L t b :
  Ptr.memory_inv st L ->
  Ptr.pend_start_ip st = None ->
  Ptr.deref (Ptr.mem st) (Ptr.pend_end_ip st) = Some b ->
  Ptr.memory_inv (Ptr.strdup_start t st) L
  /\ Ptr.deref (Ptr.mem (Ptr.strdup_start t st))
       (Ptr.pend_start_ip (Ptr.strdup_start t st)) = Some (Some t)
  /\ Ptr.deref (Ptr.mem (Ptr.strdup_start t st))
       (Ptr.pend_end_ip (Ptr.strdup_start t st)) = Some b.
Proof.
  intros Hinv Hps Hb. unfold Ptr.strdup_start, Ptr.malloc.
  cbn [Ptr.mem Ptr.pend_start_ip Ptr.pend_end_ip]. split; [|split].
  - apply alloc_chars_inv; [done|]. unfold Ptr.pending_ptrs.
    by rewrite Hps.
  - apply deref_chars. by rewrite lookup_app_r, Nat.sub_diag by lia.
  - by apply deref_app.
Qed.

Lemma strdup_end_spec st L t a :
  Ptr.memory_inv st L ->
  Ptr.pend_end_ip st = None ->
  Ptr.deref (Ptr.mem st) (Ptr.pend_start_ip st) = Some a ->
  Ptr.memory_inv (Ptr.strdup_end t st) L
  /\ Ptr.deref (Ptr.mem (Ptr.strdup_end t st))
       (Ptr.pend_start_ip (Ptr.strdup_end t st)) = Some a
  /\ Ptr.deref (Ptr.mem (Ptr.strdup_end t st))
       (Ptr.pend_end_ip (Ptr.strdup_end t st)) = Some (Some t).
Proof.
  intros Hinv Hpe Ha. unfold Ptr.strdup_end, Ptr.malloc.
  cbn [Ptr.mem Ptr.pend_start_ip Ptr.pend_end_ip]. split; [|split].
  - apply alloc_chars_inv; [done|]. unfold Ptr.pending_ptrs.
    rewrite Hpe. cbn [option_list]. rewrite app_nil_r.
    symmetry. apply Permutation_cons_append.
  - by apply deref_app.
  - apply deref_chars. by rewrite lookup_app_r, Nat.sub_diag by lia.
Qed.

Ltac endpoint_step :=
  split; [reflexivity|];
  split; [unfold Ptr.strdup_start, Ptr.strdup_end, Ptr.malloc in *;
          cbn [Ptr.mem length] in *; rewrite ?length_app in *; simpl in *;
          lia|];
  split; [eassumption|];
  split; [first [eassumption | reflexivity]|];
  split; [first [eassumption | reflexivity]|].

(** One -s or -e option on the pointers: the nodes it links in hold the
    ranges that the pairing implies for it, and the locals hold the
    endpoint that is pending after it. *)
Lemma process_endpoint_spec x st L pending :
  Ptr.memory_inv st L ->
  Ptr.deref (Ptr.mem st) (Ptr.pend_start_ip st)
  = Some (pending_slots pending).1 ->
  Ptr.deref (Ptr.mem st) (Ptr.pend_end_ip st)
  = Some (pending_slots pending).2 ->
  exists st' L' pending',
    Ptr.process_endpoint x st = Some st'
    /\ length (Ptr.mem st') = S (length (Ptr.mem st) + length L')
    /\ Ptr.memory_inv st' (L ++ L')
    /\ Ptr.deref (Ptr.mem st') (Ptr.pend_start_ip st')
       = Some (pending_slots pending').1
    /\ Ptr.deref (Ptr.mem st') (Ptr.pend_end_ip st')
       = Some (pending_slots pending').2
    /\ forall xs,
         map implied_bounds (implied_ranges pending (x :: xs))
         = map Ptr.view_bounds L'
           ++ map implied_bounds (implied_ranges pending' xs).
Proof.
  intros Hinv Hs He.
  destruct pending as [[a|a]|], x as [b|b]; cbn [pending_slots fst snd] in Hs, He;
    unfold Ptr.process_endpoint.
  - (* a start is pending, a start arrives *)
    destruct (deref_Some_inv _ _ _ Hs) as (q & Hq & _). rewrite Hq.
    destruct (flush_range_inv st L _ _ Hinv Hs He)
      as (st1 & v & -> & Hlen1 & Hinv1 & Hps1 & Hpe1 & Hv); [by left; eauto|].
    cbn [mbind option_bind].
    destruct (strdup_start_spec st1 (L ++ [v]) b None Hinv1 Hps1)
      as (Hinv2 & Hs2 & He2); [by rewrite Hpe1|].
    change (Ptr.pend_end_ip (Ptr.strdup_start b st1))
      with (Ptr.pend_end_ip st1) at 1.
    rewrite Hpe1. exists (Ptr.strdup_start b st1), [v], (Some (Start b)).
    endpoint_step. intros xs. cbn [implied_ranges map implied_bounds app]. by rewrite Hv.
  - (* a start is pending, an end arrives *)
    rewrite (deref_None_inv _ _ He). cbn [mbind option_bind].
    destruct (strdup_end_spec st L b _ Hinv (deref_None_inv _ _ He) Hs)
      as (Hinv1 & Hs1 & He1).
    change (Ptr.pend_start_ip (Ptr.strdup_end b st))
      with (Ptr.pend_start_ip st) at 1.
    destruct (deref_Some_inv _ _ _ Hs) as (q & Hq & _). rewrite Hq.
    destruct (flush_range_inv _ L _ _ Hinv1 Hs1 He1)
      as (st2 & v & -> & Hlen2 & Hinv2 & Hps2 & Hpe2 & Hv); [by left; eauto|].
    exists st2, [v], None. rewrite Hps2, Hpe2.
    endpoint_step. intros xs. cbn [implied_ranges map implied_bounds app]. by rewrite Hv.
  - (* an end is pending, a start arrives *)
    rewrite (deref_None_inv _ _ Hs). cbn [mbind option_bind].
    destruct (strdup_start_spec st L b _ Hinv (deref_None_inv _ _ Hs) He)
      as (Hinv1 & Hs1 & He1).
    change (Ptr.pend_end_ip (Ptr.strdup_start b st))
      with (Ptr.pend_end_ip st) at 1.
    destruct (deref_Some_inv _ _ _ He) as (q & Hq & _). rewrite Hq.
    destruct (flush_range_inv _ L _ _ Hinv1 Hs1 He1)
      as (st2 & v & -> & Hlen2 & Hinv2 & Hps2 & Hpe2 & Hv); [by left; eauto|].
    exists st2, [v], None. rewrite Hps2, Hpe2.
    endpoint_step. intros xs. cbn [implied_ranges map implied_bounds app]. by rewrite Hv.
  - (* an end is pending, an end arrives *)
    destruct (deref_Some_inv _ _ _ He) as (q & Hq & _). rewrite Hq.
    destruct (flush_range_inv st L _ _ Hinv Hs He)
      as (st1 & v & -> & Hlen1 & Hinv1 & Hps1 & Hpe1 & Hv); [by right; eauto|].
    cbn [mbind option_bind].
    destruct (strdup_end_spec st1 (L ++ [v]) b None Hinv1 Hpe1)
      as (Hinv2 & Hs2 & He2); [by rewrite Hps1|].
    change (Ptr.pend_start_ip (Ptr.strdup_end b st1))
      with (Ptr.pend_start_ip st1) at 1.
    rewrite Hps1. exists (Ptr.strdup_end b st1), [v], (Some (End b)).
    endpoint_step. intros xs. cbn [implied_ranges map implied_bounds app]. by rewrite Hv.
  - (* nothing is pending, a start arrives *)
    rewrite (deref_None_inv _ _ Hs). cbn [mbind option_bind].
    destruct (strdup_start_spec st L b _ Hinv (deref_None_inv _ _ Hs) He)
      as (Hinv1 & Hs1 & He1).
    change (Ptr.pend_end_ip (Ptr.strdup_start b st))
      with (Ptr.pend_end_ip st) at 1.
    rewrite (deref_None_inv _ _ He).
    exists (Ptr.strdup_start b st), [], (Some (Start b)).
    rewrite app_nil_r. endpoint_step. done.
  - (* nothing is pending, an end arrives *)
    rewrite (deref_None_inv _ _ He). cbn [mbind option_bind].
    destruct (strdup_end_spec st L b _ Hinv (deref_None_inv _ _ He) Hs)
      as (Hinv1 & Hs1 & He1).
    change (Ptr.pend_start_ip (Ptr.strdup_end b st))
      with (Ptr.pend_start_ip st) at 1.
    rewrite (deref_None_inv _ _ Hs).
    exists (Ptr.strdup_end b st), [], (Some (End b)).
    rewrite app_nil_r. endpoint_step. done.
Qed.

(** The loop over -s and -e options and the last flush, on the pointers. *)
Lemma record_endpoints_spec xs :
  forall st L pending,
    Ptr.memory_inv st L ->
    Ptr.deref (Ptr.mem st) (Ptr.pend_start_ip st)
    = Some (pending_slots pending).1 ->
    Ptr.deref (Ptr.mem st) (Ptr.pend_end_ip st)
    = Some (pending_slots pending).2 ->
    exists st' L',
      Ptr.record_endpoints xs st = Some st'
      /\ length (Ptr.mem st')
         = (length (Ptr.mem st) + length xs + length L')%nat
      /\ Ptr.memory_inv st' (L ++ L')
      /\ Ptr.pend_start_ip st' = None
      /\ Ptr.pend_end_ip st' = None
      /\ map Ptr.view_bounds L'
         = map implied_bounds (implied_ranges pending xs).
Proof.
  induction xs as [|x xs IH]; intros st L pending Hinv Hs He.
  - cbn [Ptr.record_endpoints]. unfold Ptr.flush_pending.
    destruct pending as [[a|a]|]; cbn [pending_slots fst snd] in Hs, He.
    + destruct (deref_Some_inv _ _ _ Hs) as (q & Hq & _). rewrite Hq.
      destruct (flush_range_inv st L _ _ Hinv Hs He)
        as (st1 & v & -> & Hlen1 & Hinv1 & Hps1 & Hpe1 & Hv); [by left; eauto|].
      exists st1, [v]. split; [done|]. split; [simpl; lia|].
      repeat (split; [done|]).
      cbn [implied_ranges map implied_bounds endpoint_address]. by rewrite Hv.
    + rewrite (deref_None_inv _ _ Hs).
      destruct (deref_Some_inv _ _ _ He) as (q & Hq & _). rewrite Hq.
      destruct (flush_range_inv st L _ _ Hinv Hs He)
        as (st1 & v & -> & Hlen1 & Hinv1 & Hps1 & Hpe1 & Hv); [by right; eauto|].
      exists st1, [v]. split; [done|]. split; [simpl; lia|].
      repeat (split; [done|]).
      cbn [implied_ranges map implied_bounds endpoint_address]. by rewrite Hv.
    + rewrite (deref_None_inv _ _ Hs), (deref_None_inv _ _ He).
      exists st, []. rewrite app_nil_r.
      split; [done|]. split; [simpl; lia|]. split; [done|].
      split; [exact (deref_None_inv _ _ Hs)|].
      split; [exact (deref_None_inv _ _ He)|]. done.
  - destruct (process_endpoint_spec x st L pending Hinv Hs He)
      as (st1 & L1 & pending1 & Hstep & Hlen1 & Hinv1 & Hs1 & He1 & Hranges).
    destruct (IH st1 (L ++ L1) pending1 Hinv1 Hs1 He1)
      as (st2 & L2 & Hrun & Hlen2 & Hinv2 & Hps2 & Hpe2 & Hbounds).
    exists st2, (L1 ++ L2). cbn [Ptr.record_endpoints]. rewrite Hstep.
    cbn [mbind option_bind]. split; [exact Hrun|].
    split; [rewrite Hlen2, Hlen1, length_app; simpl; lia|].
    split; [by rewrite app_assoc|]. split; [done|]. split; [done|].
    by rewrite Hranges, map_app, Hbounds.
Qed.

Lemma initial_memory_inv : Ptr.memory_inv Ptr.initial_state [].
Proof.
  split; try done; try (intros ? H; by apply elem_of_nil in H).
  apply NoDup_nil_2.
Qed.

Lemma inv_linked st L : Ptr.memory_inv st L -> Ptr.linked (Ptr.mem st) L.
Proof.
  intros Hinv. split.
  - apply (Ptr.inv_nodes _ _ Hinv).
  - intros v Hv. split;
      [apply (Ptr.inv_start _ _ Hinv) | apply (Ptr.inv_end _ _ Hinv)]; done.
Qed.

Lemma length_concat_owned (L : list Ptr.node_view) :
  (length L <= length (concat (map Ptr.owned L)))%nat.
Proof.
  induction L as [|v L IH]; [done|].
  cbn [map concat]. rewrite length_app. unfold Ptr.owned at 1. simpl. lia.
Qed.

(** There are no more nodes than blocks. *)
Lemma inv_length st L : Ptr.memory_inv st L -> (length L <= length (Ptr.mem st))%nat.
Proof.
  intros Hinv. etransitivity; [apply length_concat_owned|].
  rewrite <- (length_seq (length (Ptr.mem st)) 0).
  apply NoDup_incl_length.
  - apply NoDup_ListNoDup.
    pose proof (Ptr.inv_nodup _ _ Hinv) as Hnd.
    by apply NoDup_app in Hnd as (Hnd & _).
  - intros x Hx. apply in_seq. split; [lia|]. simpl.
    apply (inv_lt st L x Hinv), elem_of_app. left. by apply list_elem_of_In.
Qed.

(** The walk along nodes that are linked gives their strings, in order. *)
Lemma pointer_walk_linked L :
  forall fuel m,
    Ptr.linked m L ->
    (length L <= fuel)%nat ->
    Ptr.walk fuel m (Ptr.node_at L 0) = Some (map Ptr.view_bounds L).
Proof.
  induction L as [|v L IH]; intros fuel m [Hnodes Hstrings] Hfuel.
  - by destruct fuel.
  - destruct fuel as [|fuel]; [simpl in Hfuel; lia|].
    cbn [Ptr.node_at lookup list_lookup fmap option_fmap option_map Ptr.walk].
    rewrite (Hnodes 0%nat v eq_refl).
    destruct (Hstrings v (list_elem_of_here _ _)) as [Hs He].
    rewrite (deref_chars _ _ _ Hs), (deref_chars _ _ _ He).
    cbn [mbind option_bind].
    change (Ptr.node_at (v :: L) 1) with (Ptr.node_at L 0).
    rewrite IH; [done| |simpl in Hfuel; lia].
    split.
    + intros i v' Hi. exact (Hnodes (S i) v' Hi).
    + intros v' Hv'. apply Hstrings. by apply list_elem_of_further.
Qed.

(** [free_ip_ranges] on a registry that keeps the invariant, with no string
    pending: every block is released. *)
Lemma free_ip_ranges_spec st L :
  Ptr.memory_inv st L ->
  Ptr.pending_ptrs st = [] ->
  exists m,
    Ptr.free_ip_ranges st
    = Some (Ptr.State m None None 0 (Ptr.pend_start_ip st)
              (Ptr.pend_end_ip st))
    /\ length m = length (Ptr.mem st)
    /\ Forall (eq None) m.
Proof.
  intros Hinv Hpend. unfold Ptr.free_ip_ranges.
  pose proof (Ptr.inv_nodup _ _ Hinv) as Hnd.
  rewrite Hpend, app_nil_r in Hnd.
  rewrite (free_loop_spec L (length (Ptr.mem st)) st (inv_linked _ _ Hinv) Hnd
             (Ptr.inv_head _ _ Hinv) (inv_length _ _ Hinv)).
  cbn [mbind option_bind Ptr.mem Ptr.ip_ranges Ptr.pend_start_ip
       Ptr.pend_end_ip].
  eexists. split; [reflexivity|]. split; [apply freed_length|].
  apply Forall_lookup. intros a c Hc.
  destruct (decide (a ∈ concat (map Ptr.owned L))) as [Hin|Hnotin].
  - rewrite freed_lookup in Hc; [congruence | done |].
    apply (inv_lt st L a Hinv), elem_of_app. by left.
  - rewrite freed_lookup_ne in Hc by done.
    destruct c as [b|]; [|done]. exfalso. apply Hnotin.
    pose proof (Ptr.inv_cover _ _ Hinv a b Hc) as Hcov.
    by rewrite Hpend, app_nil_r in Hcov.
Qed.

(** X17.  With the strings and the nodes as allocated blocks: over any
    sequence of -s and -e options, the option loop and the last flush
    allocate one block for each option and one for each range, and
    [free_ip_ranges] then frees every one of these blocks, each exactly once
    (a string that a node holds as both of its addresses included), and
    leaves the three variables of the registry cleared. *)
Theorem free_ip_ranges_releases_every_block (xs : list endpoint_opt) :
  exists st1 st2,
    Ptr.record_endpoints xs Ptr.initial_state = Some st1
    /\ length (Ptr.mem st1)
       = (length xs + length (implied_ranges None xs))%nat
    /\ Ptr.free_ip_ranges st1 = Some st2
    /\ length (Ptr.mem st2) = length (Ptr.mem st1)
    /\ Forall (eq None) (Ptr.mem st2)
    /\ Ptr.ip_ranges st2 = None
    /\ Ptr.ip_ranges_last st2 = None
    /\ Ptr.ip_ranges_count st2 = 0.
Proof.
  destruct (record_endpoints_spec xs Ptr.initial_state [] None
              initial_memory_inv eq_refl eq_refl)
    as (st1 & L & Hrun & Hlen & Hinv & Hps & Hpe & Hbounds).
  destruct (free_ip_ranges_spec st1 L Hinv) as (m & Hfree & Hlen' & Hnone).
  { unfold Ptr.pending_ptrs. by rewrite Hps, Hpe. }
  exists st1, (Ptr.State m None None 0 (Ptr.pend_start_ip st1)
                 (Ptr.pend_end_ip st1)).
  split; [exact Hrun|]. split.
  { rewrite Hlen. apply (f_equal length) in Hbounds.
    rewrite !length_map in Hbounds. simpl. lia. }
  split; [exact Hfree|]. done.
Qed.

(** X18.  With the strings and the nodes as allocated blocks: over any
    sequence of -s and -e options, every node of the list points to two live
    strings, and the walk from [ip_ranges] along the [next] pointers meets
    the same ranges, in the same order, as the registry that the option loop
    of [main] leaves when the scans are about to start. *)
Theorem pointer_list_holds_registry
  (env : environment) (xs : list endpoint_opt) :
  exists st st1,
    before_dispatch env (map cli_of xs) = Some st
    /\ Ptr.record_endpoints xs Ptr.initial_state = Some st1
    /\ is_Some (registry_ranges (reg st))
    /\ Ptr.registry_ranges st1 = registry_ranges (reg st).
Proof.
  destruct (init_nofile_limit_fields env) as (Hreg & Hps & Hpe & _).
  destruct (endpoint_options_refine xs
              (init_nofile_limit env (initial_state env)) None [])
    as (st' & Hrun & Hres).
  { rewrite Hreg. apply empty_registry_wf. }
  { rewrite Hreg. reflexivity. }
  { exact Hps. }
  { exact Hpe. }
  destruct (record_endpoints_spec xs Ptr.initial_state [] None
              initial_memory_inv eq_refl eq_refl)
    as (st1 & L & Hrun1 & _ & Hinv & _ & _ & Hbounds).
  change ([] ++ L) with L in Hinv.
  exists (resolve_allow (flush_pending (init_semaphore st'))), st1.
  unfold before_dispatch. rewrite Hrun.
  rewrite (proj1 (resolve_allow_fields _)), reg_flush_pending_init_semaphore.
  split; [reflexivity|]. split; [exact Hrun1|]. rewrite Hres.
  split; [eauto|]. unfold Ptr.registry_ranges.
  rewrite (Ptr.inv_head _ _ Hinv).
  rewrite (pointer_walk_linked L _ _ (inv_linked _ _ Hinv) (inv_length _ _ Hinv)).
  by rewrite Hbounds.
Qed.

(** ** The IPMI settings *)

Lemma process_ipmi_options_app avail opts1 opts2 sec out :
  process_ipmi_options avail (opts1 ++ opts2) sec out
  = match process_ipmi_options avail opts1 sec out with
    | Ipmi_continue sec' out' => process_ipmi_options avail opts2 sec' out'
    | Ipmi_display_help => Ipmi_display_help
    end.
Proof.
  revert sec out. induction opts1 as [|o opts1 IH]; intros sec out; [done|].
  cbn [app process_ipmi_options].
  destruct (process_ipmi_option avail o sec); [apply IH | done].
Qed.

Lemma process_ipmi_option_settings o sec :
  exists sec',
    process_ipmi_option true o sec
    = Ipmi_continue sec' (option_list (authentication_warning o))
    /\ username sec' = from_option Some (username sec) (asked_username o)
    /\ password sec' = from_option Some (password sec) (asked_password o)
    /\ authentication_type sec'
       = default (authentication_type sec) (asked_authentication o)
    /\ cipher_suite_id sec'
       = default (cipher_suite_id sec) (asked_cipher_suite o)
    /\ ipmi_version sec'
       = match asked_cipher_suite o with
         | Some _ => IPMI_2_0
         | None => ipmi_version sec
         end
    /\ privilege_level sec' = privilege_level sec.
Proof.
  destruct o as [a|a|a|v]; cbn [process_ipmi_option negb];
    try (eexists; split; [reflexivity|]; done).
  unfold authentication_warning, asked_authentication,
    authentication_type_of_name.
  repeat case_bool_decide; eexists; (split; [reflexivity|]); done.
Qed.

Lemma process_ipmi_options_settings opts :
  forall sec out,
  exists sec',
    process_ipmi_options true opts sec out
    = Ipmi_continue sec' (out ++ omap authentication_warning opts)
    /\ username sec'
       = from_option Some (username sec) (last (omap asked_username opts))
    /\ password sec'
       = from_option Some (password sec) (last (omap asked_password opts))
    /\ authentication_type sec'
       = default (authentication_type sec)
           (last (omap asked_authentication opts))
    /\ cipher_suite_id sec'
       = default (cipher_suite_id sec) (last (omap asked_cipher_suite opts))
    /\ ipmi_version sec'
       = match last (omap asked_cipher_suite opts) with
         | Some _ => IPMI_2_0
         | None => ipmi_version sec
         end
    /\ privilege_level sec' = privilege_level sec.
Proof.
  induction opts as [|o opts IH] using rev_ind; intros sec out.
  - exists sec. by rewrite app_nil_r.
  - destruct (IH sec out) as (sec1 & Hrun & Hu & Hp & Ha & Hc & Hv & Hl).
    destruct (process_ipmi_option_settings o sec1)
      as (sec2 & Hstep & Hu2 & Hp2 & Ha2 & Hc2 & Hv2 & Hl2).
    exists sec2. rewrite process_ipmi_options_app, Hrun.
    cbn [process_ipmi_options]. rewrite Hstep, !omap_app.
    cbn [omap list_omap]. rewrite <- app_assoc.
    split; [by destruct (authentication_warning o)|].
    rewrite Hu2, Hp2, Ha2, Hc2, Hv2, Hl2, Hu, Hp, Ha, Hc, Hv, Hl.
    destruct o as [a|a|a|v]; cbn [asked_username asked_password
      asked_authentication asked_cipher_suite option_list app];
      rewrite ?app_nil_r, ?last_snoc; try done.
    destruct (authentication_type_of_name a);
      cbn [option_list]; rewrite ?app_nil_r, ?last_snoc; done.
Qed.

(** X19.  Each setting that the IPMI probe is given is that of the last
    option that sets it, and the default when there is none: the user name
    of the last -b, the password of the last -B, the cipher suite of the
    last -L (default 3), IPMI 2.0 as soon as there is one -L (default 1.5),
    and the privilege level ADMIN whatever the options.  The authentication
    type is that of the last -d whose argument is one of the four names, MD5
    when there is none: a -d with another argument is answered by the
    warning that announces MD5, once for each, and yet leaves the type of an
    earlier -d in place.  Without the IPMI capability any of these options
    ends the option loop at the usage text. *)
Theorem ipmi_settings_of_last_options (opts : list ipmi_opt) :
  (exists sec,
      process_ipmi_options true opts default_ipmi_sec []
      = Ipmi_continue sec (omap authentication_warning opts)
      /\ username sec = last (omap asked_username opts)
      /\ password sec = last (omap asked_password opts)
      /\ authentication_type sec
         = default IPMI_AUTHENTICATION_TYPE_MD5
             (last (omap asked_authentication opts))
      /\ cipher_suite_id sec = default 3 (last (omap asked_cipher_suite opts))
      /\ ipmi_version sec
         = match last (omap asked_cipher_suite opts) with
           | Some _ => IPMI_2_0
           | None => IPMI_1_5
           end
      /\ privilege_level sec = IPMI_PRIVILEGE_LEVEL_ADMIN)
  /\ (forall unknown,
         authentication_type_of_name unknown = None ->
         exists sec,
           process_ipmi_options true [Ipmi_d "NONE"; Ipmi_d unknown]
             default_ipmi_sec []
           = Ipmi_continue sec [Stderr unknown_authentication_warning]
           /\ authentication_type sec = IPMI_AUTHENTICATION_TYPE_NONE)
  /\ (opts <> [] ->
      process_ipmi_options false opts default_ipmi_sec []
      = Ipmi_display_help).
Proof.
  split; [|split].
  - destruct (process_ipmi_options_settings opts default_ipmi_sec [])
      as (sec & Hrun & Hu & Hp & Ha & Hc & Hv & Hl).
    exists sec. split; [exact Hrun|].
    rewrite Hu, Hp, Ha, Hc, Hv, Hl. cbn [default_ipmi_sec username password
      authentication_type cipher_suite_id ipmi_version privilege_level].
    repeat split; try done;
      match goal with |- context [last ?l] => by destruct (last l) end.
  - intros unknown Hunknown.
    destruct (process_ipmi_options_settings [Ipmi_d "NONE"; Ipmi_d unknown]
                default_ipmi_sec [])
      as (sec & Hrun & _ & _ & Ha & _).
    exists sec. rewrite Hrun, Ha.
    cbn [omap list_omap asked_authentication authentication_warning].
    rewrite Hunknown. split; reflexivity.
  - destruct opts as [|o opts]; [done|]. reflexivity.
Qed.

(** * Sample runs of the properties above *)

Lemma add_ip_range_calls_compose_witness :
  (reg_wf (reg (initial_state sample_env)))
  /\ (registry_ranges (reg (initial_state sample_env)) = Some (@nil (option
      string * option string)))
  /\ (reg_wf (reg (add_ip_ranges sample_calls (initial_state sample_env)))
  /\ registry_ranges (reg (add_ip_ranges sample_calls (initial_state
      sample_env)))
     = Some ((@nil (option string * option string)) ++ omap recorded_range
         sample_calls)
  /\ ip_ranges_count (reg (add_ip_ranges sample_calls (initial_state
      sample_env)))
     = to_size_t (Z.of_nat (length (@nil (option string * option string)) +
         length (omap recorded_range sample_calls)))
  /\ Forall both_present (omap recorded_range sample_calls)).
Proof.
  split; [exact empty_registry_wf|].
  split; [reflexivity|].
  apply (add_ip_range_calls_compose sample_calls (initial_state sample_env)
      []);
    [exact empty_registry_wf | reflexivity].
Defined.


Lemma leaving_run_starts_no_scan_witness :
  (parse_options version_cmdline (init_nofile_limit sample_env (initial_state
      sample_env)) = Return EXIT_SUCCESS (state_after_options sample_env
      version_cmdline))
  /\ (main sample_env version_cmdline = Some (EXIT_SUCCESS,
      (state_after_options sample_env version_cmdline))
  /\ (forall more, main sample_env (version_cmdline ++ more) = Some
      (EXIT_SUCCESS, (state_after_options sample_env version_cmdline)))
  /\ (forall t, calls (state_after_options sample_env version_cmdline) t = []
      /\ dev (state_after_options sample_env version_cmdline) t = None /\
      thread (state_after_options sample_env version_cmdline) t = false)
  /\ Forall option_event (trace (state_after_options sample_env
      version_cmdline))).
Proof.
  split; [vm_compute; reflexivity|].
  apply (leaving_run_starts_no_scan sample_env version_cmdline EXIT_SUCCESS
      (state_after_options sample_env version_cmdline));
    [vm_compute; reflexivity].
Defined.

Lemma formatter_of_last_option_witness :
  (before_dispatch sample_env formats_cmdline = Some (state_before_dispatch
      sample_env formats_cmdline))
  /\ (exists stf,
    main sample_env formats_cmdline = Some (EXIT_SUCCESS, stf)
    /\ List.filter is_display (trace stf)
       = map (fun t => Display (selected_display formats_cmdline) t (dev stf
           t)) all_types).
Proof.
  split; [vm_compute; reflexivity|].
  apply (formatter_of_last_option sample_env formats_cmdline
      (state_before_dispatch sample_env formats_cmdline));
    [vm_compute; reflexivity].
Defined.

Lemma serial_scan_uses_last_ports_witness :
  (before_dispatch sample_env serial_cmdline = Some (state_before_dispatch
      sample_env serial_cmdline))
  /\ (started sample_env TYPE_EATON_SERIAL (state_before_dispatch sample_env
      serial_cmdline) = true)
  /\ (exists stf ports,
    main sample_env serial_cmdline = Some (EXIT_SUCCESS, stf)
    /\ last_serial_ports serial_cmdline = Some ports
    /\ calls stf TYPE_EATON_SERIAL = [nutscan_scan_eaton_serial (Some ports)]
    /\ dev stf TYPE_EATON_SERIAL
       = nutscan_scan sample_env (nutscan_scan_eaton_serial (Some ports))).
Proof.
  split; [vm_compute; reflexivity|].
  split; [vm_compute; reflexivity|].
  apply (serial_scan_uses_last_ports sample_env serial_cmdline
      (state_before_dispatch sample_env serial_cmdline));
    [vm_compute; reflexivity | vm_compute; reflexivity].
Defined.

Lemma thread_creation_failure_witness :
  (before_dispatch usb_fails_env usb_snmp_cmdline = Some
      (state_before_dispatch usb_fails_env usb_snmp_cmdline))
  /\ (avail_checked TYPE_USB = true)
  /\ (dispatched TYPE_USB (state_before_dispatch usb_fails_env
      usb_snmp_cmdline) = true)
  /\ (pthread_create_rc usb_fails_env TYPE_USB <> 0)
  /\ (exists stf,
    main usb_fails_env usb_snmp_cmdline = Some (EXIT_SUCCESS, stf)
    /\ In (PthreadCreate TYPE_USB false) (trace stf)
    /\ ~ In (PthreadCreate TYPE_USB true) (trace stf)
    /\ ~ In (PthreadJoin TYPE_USB) (trace stf)
    /\ nutscan_avail stf TYPE_USB = false
    /\ calls stf TYPE_USB = [] /\ dev stf TYPE_USB = None
    /\ In (Display (display_func (state_before_dispatch usb_fails_env
        usb_snmp_cmdline)) TYPE_USB None) (trace stf)
    /\ forall t',
         started usb_fails_env t' (state_before_dispatch usb_fails_env
             usb_snmp_cmdline) = true ->
         calls stf t' = expected_calls t' (state_before_dispatch usb_fails_env
             usb_snmp_cmdline)
         /\ dev stf t' = expected_dev usb_fails_env t' (state_before_dispatch
             usb_fails_env usb_snmp_cmdline)
         /\ In (PthreadCreate t' true) (trace stf)
         /\ In (PthreadJoin t') (trace stf)
         /\ In (Display (display_func (state_before_dispatch usb_fails_env
             usb_snmp_cmdline)) t' (expected_dev usb_fails_env t'
             (state_before_dispatch usb_fails_env usb_snmp_cmdline)))
              (trace stf)).
Proof.
  split; [vm_compute; reflexivity|].
  split; [reflexivity|].
  split; [vm_compute; reflexivity|].
  split; [vm_compute; discriminate|].
  apply (thread_creation_failure usb_fails_env usb_snmp_cmdline
      (state_before_dispatch usb_fails_env usb_snmp_cmdline) TYPE_USB);
    [vm_compute; reflexivity | reflexivity | vm_compute; reflexivity |
        vm_compute; discriminate].
Defined.

Lemma threads_joined_once_witness :
  (before_dispatch sample_env mixed_cmdline = Some (state_before_dispatch
      sample_env mixed_cmdline))
  /\ ((allow (state_before_dispatch sample_env mixed_cmdline)
      TYPE_EATON_SERIAL = true -> pthread_create_rc sample_env
      TYPE_EATON_SERIAL = 0))
  /\ (exists stf pre joins post,
    main sample_env mixed_cmdline = Some (EXIT_SUCCESS, stf)
    /\ trace stf = pre ++ joins ++ post
    /\ Forall (fun e => is_join e = false /\ is_display e = false) pre
    /\ Forall (fun e => is_create e = false /\ is_display e = false) joins
    /\ Forall (fun e => is_thread_event e = false) post
    /\ List.filter is_join joins
       = map PthreadJoin
           (List.filter (fun t => started sample_env t (state_before_dispatch
               sample_env mixed_cmdline)) all_types)
    /\ forall t, In (PthreadCreate t true) pre <-> started sample_env t
        (state_before_dispatch sample_env mixed_cmdline) = true).
Proof.
  split; [vm_compute; reflexivity|].
  split; [intros _; reflexivity|].
  apply (threads_joined_once sample_env mixed_cmdline (state_before_dispatch
      sample_env mixed_cmdline));
    [vm_compute; reflexivity | intros _; reflexivity].
Defined.

Lemma usb_probe_options_witness :
  (before_dispatch sample_env usb_cmdline = Some (state_before_dispatch
      sample_env usb_cmdline))
  /\ (started sample_env TYPE_USB (state_before_dispatch sample_env
      usb_cmdline) = true)
  /\ (let scanopts := usb_detail (length (List.filter is_Opt_U usb_cmdline))
      in
  exists stf,
    main sample_env usb_cmdline = Some (EXIT_SUCCESS, stf)
    /\ calls stf TYPE_USB = [nutscan_scan_usb (Some scanopts)]
    /\ dev stf TYPE_USB = nutscan_scan sample_env (nutscan_scan_usb (Some
        scanopts))).
Proof.
  split; [vm_compute; reflexivity|].
  split; [vm_compute; reflexivity|].
  apply (usb_probe_options sample_env usb_cmdline (state_before_dispatch
      sample_env usb_cmdline));
    [vm_compute; reflexivity | vm_compute; reflexivity].
Defined.


Lemma threads_within_descriptor_limit_witness :
  (before_dispatch sample_env many_threads_cmdline = Some
      (state_before_dispatch sample_env many_threads_cmdline))
  /\ (getrlimit sample_env = Some (1024, 4096))
  /\ (4 < 1024 < SIZE_MAX)
  /\ (exists stf,
    main sample_env many_threads_cmdline = Some (EXIT_SUCCESS, stf)
    /\ 0 <= max_threads stf <= 1024 - RESERVE_FD_COUNT
    /\ exists v,
         sem_init_values (trace stf) = [v]
         /\ 0 <= v <= 1024 - RESERVE_FD_COUNT).
Proof.
  split; [vm_compute; reflexivity|].
  split; [reflexivity|].
  split; [vm_compute; split; reflexivity|].
  apply (threads_within_descriptor_limit sample_env many_threads_cmdline
      (state_before_dispatch sample_env many_threads_cmdline) 1024 4096);
    [vm_compute; reflexivity | reflexivity | vm_compute; split; reflexivity].
Defined.

Lemma cidr_option_records_range_witness :
  (reg_wf (reg pending_start_state))
  /\ (registry_ranges (reg pending_start_state) = Some (@nil (option string *
      option string)))
  /\ ("192.0.2.7/32" <> "auto")
  /\ ("192.0.2.7/32" <> "auto4")
  /\ ("192.0.2.7/32" <> "auto6")
  /\ (exists st',
    process_m sample_net "192.0.2.7/32" 0 pending_start_state = Some
        (M_continue 0 st')
    /\ reg_wf (reg st')
    /\ registry_ranges (reg st')
       = Some ((@nil (option string * option string)) ++ pending_range
           pending_start_state
               ++ option_list (recorded_range (nutscan_cidr_to_ip sample_net
                   "192.0.2.7/32")))
    /\ pending_range st' = []
    /\ pend_start_ip st' = None /\ pend_end_ip st' = None).
Proof.
  split; [exact empty_registry_wf|].
  split; [reflexivity|].
  split; [discriminate|].
  split; [discriminate|].
  split; [discriminate|].
  apply (cidr_option_records_range sample_net "192.0.2.7/32" 0
      pending_start_state []);
    [exact empty_registry_wf | reflexivity | discriminate | discriminate |
        discriminate].
Defined.

Lemma auto_option_records_interfaces_witness :
  (reg_wf (reg pending_start_state))
  /\ (registry_ranges (reg pending_start_state) = Some (@nil (option string *
      option string)))
  /\ ("auto" = "auto" \/ "auto" = "auto4" \/ "auto" = "auto6")
  /\ ((forall ifap,
      0 = 0 -> getifaddrs sample_net = Some ifap ->
      exists st',
        process_m sample_net "auto" 0 pending_start_state
        = Some (M_continue (auto_nets_of "auto") st')
        /\ auto_nets_of "auto" <> 0
        /\ reg_wf (reg st')
        /\ registry_ranges (reg st')
           = Some ((@nil (option string * option string)) ++ pending_range
               pending_start_state
                   ++ omap (interface_range sample_net (auto_nets_of "auto"))
                       ifap)
        /\ pending_range st' = [])
  /\ (0 = 0 -> getifaddrs sample_net = None ->
      exists st',
        process_m sample_net "auto" 0 pending_start_state = Some (M_fatal st')
        /\ registry_ranges (reg st') = Some ((@nil (option string * option
            string)) ++ pending_range pending_start_state))
  /\ (0 <> 0 ->
      exists st',
        process_m sample_net "auto" 0 pending_start_state = Some (M_continue 0
            st')
        /\ last (trace st') = Some (Stderr duplicate_auto_warning)
        /\ reg_wf (reg st')
        /\ registry_ranges (reg st') = Some ((@nil (option string * option
            string)) ++ pending_range pending_start_state)
        /\ pending_range st' = [])).
Proof.
  split; [exact empty_registry_wf|].
  split; [reflexivity|].
  split; [left; reflexivity|].
  apply (auto_option_records_interfaces sample_net "auto" 0
      pending_start_state []);
    [exact empty_registry_wf | reflexivity | left; reflexivity].
Defined.
